(** * Output splitting engine of repomix: a shallow embedding and its properties

    Source: [src/core/output/outputSplit.ts].  The grouper, the byte splitter,
    the token splitter and the entry point are embedded as executable
    functions; the renderer, the tokenizer and the string comparison used for
    sorting are collaborators and appear as section variables. *)

From Stdlib Require Import Ascii String DecimalString.
From Stdlib Require DecimalNat DecimalFacts.
From Stdlib Require Import List ZArith NArith Lia Bool Permutation Sorted.
Import ListNotations.

Set Implicit Arguments.
Local Open Scope Z_scope.

(** ** JavaScript strings

    A JavaScript string is a finite sequence of UTF-16 code units. *)

Definition CodeUnit := N.
Definition jsstring := list CodeUnit.

(** A literal: every character of an ASCII string is one code unit. *)
Definition js (s : string) : jsstring :=
  List.map N_of_ascii (list_ascii_of_string s).

(** [===] on strings. *)
Fixpoint jsstring_eqb (a b : jsstring) : bool :=
  match a, b with
  | [], [] => true
  | x :: a', y :: b' => N.eqb x y && jsstring_eqb a' b'
  | _, _ => false
  end.

(** [path.posix.sep] and [path.win32.sep]. *)
Definition posix_sep : CodeUnit := 47%N.
Definition win32_sep : CodeUnit := 92%N.

(** [s.replaceAll(a, b)] for one-code-unit [a] and [b]. *)
Definition replaceAll (a b : CodeUnit) (s : jsstring) : jsstring :=
  List.map (fun c => if N.eqb c a then b else c) s.

(** [s.split(sep)] for a one-code-unit separator: the array of the segments
    between separators; the empty string splits into one empty segment. *)
Fixpoint split (sep : CodeUnit) (s : jsstring) : list jsstring :=
  match s with
  | [] => [[]]
  | c :: s' =>
      if N.eqb c sep then [] :: split sep s'
      else match split sep s' with
           | seg :: segs => (c :: seg) :: segs
           | [] => [[c]]
           end
  end.

(** Truthiness of a string: only the empty string is falsy. *)
Definition truthy (s : jsstring) : bool :=
  match s with [] => false | _ :: _ => true end.

(** [Buffer.byteLength(content, 'utf8')]: code units below U+0080 take one
    byte, below U+0800 two; a high surrogate followed by a low surrogate is
    one code point of four bytes; every other code unit (an unpaired
    surrogate is written as U+FFFD) takes three. *)
Definition isHighSurrogate (c : CodeUnit) : bool :=
  (N.leb 55296 c && N.leb c 56319)%N.
Definition isLowSurrogate (c : CodeUnit) : bool :=
  (N.leb 56320 c && N.leb c 57343)%N.

Fixpoint utf8Length (s : jsstring) : Z :=
  match s with
  | [] => 0
  | c :: s' =>
      if N.ltb c 128 then 1 + utf8Length s'
      else if N.ltb c 2048 then 2 + utf8Length s'
      else if isHighSurrogate c then
        match s' with
        | d :: s'' => if isLowSurrogate d then 4 + utf8Length s''
                      else 3 + utf8Length s'
        | [] => 3
        end
      else 3 + utf8Length s'
  end.

Definition getUtf8ByteLength (content : jsstring) : Z := utf8Length content.

(** ** [Map] and [Array.prototype.sort]

    A [Map] iterates in insertion order, and [set] on a present key keeps the
    key's position: an association list with update in place. *)

Definition JsMap (V : Type) := list (jsstring * V).

Fixpoint map_get {V} (k : jsstring) (m : JsMap V) : option V :=
  match m with
  | [] => None
  | (k', v) :: m' => if jsstring_eqb k k' then Some v else map_get k m'
  end.

Fixpoint map_set {V} (k : jsstring) (v : V) (m : JsMap V) : JsMap V :=
  match m with
  | [] => [(k, v)]
  | (k', v') :: m' =>
      if jsstring_eqb k k' then (k, v) :: m' else (k', v') :: map_set k v m'
  end.

Definition map_values {V} (m : JsMap V) : list V := List.map snd m.

(** [arr.sort(cmp)]: the sort is stable; [cmp a b <= 0] keeps [a] before
    [b].  Insertion from the right end realises exactly that. *)
Fixpoint sort_insert {A} (cmp : A -> A -> Z) (x : A) (l : list A) : list A :=
  match l with
  | [] => [x]
  | y :: l' => if cmp x y <=? 0 then x :: l else y :: sort_insert cmp x l'
  end.

Definition array_sort {A} (cmp : A -> A -> Z) (l : list A) : list A :=
  fold_right (sort_insert cmp) [] l.

(** ** Data model *)

Record ProcessedFile := {
  path : jsstring;
  content : jsstring
}.

Record OutputSplitGroup := {
  rootEntry : jsstring;
  processedFiles : list ProcessedFile;
  allFilePaths : list jsstring
}.

Record OutputSplitPart := {
  index : nat;
  filePath : jsstring;
  partContent : jsstring;
  byteLength : Z;
  tokenCount : Z;
  groups : option (list OutputSplitGroup)
}.

(** ** Grouper *)

Definition getRootEntry (relativeFilePath : jsstring) : jsstring :=
  let normalized := replaceAll win32_sep posix_sep relativeFilePath in
  match split posix_sep normalized with
  | first :: _ => if truthy first then first else normalized
  | [] => normalized
  end.

Definition pushPath (existing : OutputSplitGroup) (p : jsstring) :=
  {| rootEntry := rootEntry existing;
     processedFiles := processedFiles existing;
     allFilePaths := allFilePaths existing ++ [p] |}.

Definition pushFile (existing : OutputSplitGroup) (f : ProcessedFile) :=
  {| rootEntry := rootEntry existing;
     processedFiles := processedFiles existing ++ [f];
     allFilePaths := allFilePaths existing |}.

(** Body of the first loop of [buildOutputSplitGroups]. *)
Definition groupPathStep (m : JsMap OutputSplitGroup) (p : jsstring) :=
  let r := getRootEntry p in
  match map_get r m with
  | Some existing => map_set r (pushPath existing p) m
  | None =>
      map_set r {| rootEntry := r; processedFiles := [];
                   allFilePaths := [p] |} m
  end.

(** Body of the second loop. *)
Definition groupFileStep (m : JsMap OutputSplitGroup) (f : ProcessedFile) :=
  let r := getRootEntry (path f) in
  match map_get r m with
  | Some existing => map_set r (pushFile existing f) m
  | None =>
      map_set r {| rootEntry := r; processedFiles := [f];
                   allFilePaths := [path f] |} m
  end.

Section Grouper.

(** [a.localeCompare(b)]: negative, zero or positive. *)
Variable localeCompare : jsstring -> jsstring -> Z.

Definition compareGroups (a b : OutputSplitGroup) : Z :=
  localeCompare (rootEntry a) (rootEntry b).

Definition buildOutputSplitGroups
  (files : list ProcessedFile) (paths : list jsstring)
  : list OutputSplitGroup :=
  let groupsByRootEntry := fold_left groupPathStep paths [] in
  let groupsByRootEntry := fold_left groupFileStep files groupsByRootEntry in
  array_sort compareGroups (map_values groupsByRootEntry).

End Grouper.

(** The group of root entry [r], as the contract of the grouper describes
    it: the selected files under [r], and the known paths under [r]; when no
    known path lies under [r], the path of the first selected file does
    duty for them. *)
Definition hasRoot (r : jsstring) (p : jsstring) : bool :=
  jsstring_eqb (getRootEntry p) r.

Definition filesUnder (r : jsstring) (files : list ProcessedFile) :=
  filter (fun f => hasRoot r (path f)) files.

Definition expectedGroup (files : list ProcessedFile) (paths : list jsstring)
  (r : jsstring) : OutputSplitGroup :=
  {| rootEntry := r;
     processedFiles := filesUnder r files;
     allFilePaths :=
       if existsb (hasRoot r) paths then filter (hasRoot r) paths
       else List.map path (firstn 1 (filesUnder r files)) |}.

(** [a] may stand before [b] in a sorted array. *)
Definition before {A} (cmp : A -> A -> Z) (a b : A) : Prop := cmp a b <= 0.

(** What the map holds after the paths [ps] and the files [fs] have been
    entered. *)
Definition mentioned (r : jsstring) (fs : list ProcessedFile)
  (ps : list jsstring) : bool :=
  existsb (hasRoot r) ps || existsb (fun f => hasRoot r (path f)) fs.

Definition GroupsInv (m : JsMap OutputSplitGroup) (fs : list ProcessedFile)
  (ps : list jsstring) : Prop :=
  NoDup (List.map fst m) /\
  forall k, map_get k m =
            if mentioned k fs ps then Some (expectedGroup fs ps k) else None.

(** A comparison is consistent when it is total and transitive. *)
Definition totalCompare (cmp : jsstring -> jsstring -> Z) : Prop :=
  forall a b, 0 < cmp a b -> cmp b a <= 0.
Definition transitiveCompare (cmp : jsstring -> jsstring -> Z) : Prop :=
  forall a b c, cmp a b <= 0 -> cmp b c <= 0 -> cmp a c <= 0.
(** It separates strings when only identical strings compare as equal. *)
Definition separatingCompare (cmp : jsstring -> jsstring -> Z) : Prop :=
  forall a b, cmp a b <= 0 -> cmp b a <= 0 -> a = b.

(** Some occurrence of [a] in [l] has [b] somewhere after it. *)
Fixpoint precedes {A} (a b : A) (l : list A) : Prop :=
  match l with
  | [] => False
  | x :: l' => (x = a /\ In b l') \/ precedes a b l'
  end.

(** The keys of the [Map] in iteration order, which is the order of their
    insertion: a root entry is entered when it first occurs, the known
    paths being gone through before the selected files. *)
Definition noteRoot (seen : list jsstring) (r : jsstring) : list jsstring :=
  if existsb (jsstring_eqb r) seen then seen else seen ++ [r].

Definition rootsInOrder (files : list ProcessedFile) (paths : list jsstring)
  : list jsstring :=
  fold_left noteRoot
    (List.map getRootEntry paths ++
     List.map getRootEntry (List.map path files)) [].

(** Comparison by code units, a comparison in the sense of [localeCompare]
    used to run the model on examples. *)
Fixpoint codeUnitCompare (a b : jsstring) : Z :=
  match a, b with
  | [], [] => 0
  | [], _ :: _ => -1
  | _ :: _, [] => 1
  | x :: a', y :: b' =>
      match N.compare x y with
      | Lt => -1
      | Gt => 1
      | Eq => codeUnitCompare a' b'
      end
  end.

(** Comparison by length: total and transitive, and strings of one length
    compare as equal. *)
Definition lengthCompare (a b : jsstring) : Z :=
  Z.of_nat (length a) - Z.of_nat (length b).

Definition mkFile (p c : string) : ProcessedFile :=
  {| path := js p; content := js c |}.

(** Two paths whose root entries are canonically equivalent and differ as
    strings: U+00E9, and [e] followed by U+0301.  [localeCompare] compares
    canonically equivalent strings as equal. *)
Definition precomposed_root : jsstring := [233%N].
Definition decomposed_root : jsstring := [101%N; 769%N].
Definition precomposed_path : jsstring := precomposed_root ++ js "/a".
Definition decomposed_path : jsstring := decomposed_root ++ js "/b".

(** ** Numbers

    Sizes, token counts and indices are integer-valued JavaScript numbers,
    embedded in [Z] and [nat].  A budget comes from the caller and may be any
    number: [JsInt z] is the integer [z], [JsNonInteger] stands for every
    other value (a fraction, [NaN], an infinity). *)

Inductive JsNumber :=
| JsInt (z : Z)
| JsNonInteger.

(** [Number.MAX_SAFE_INTEGER] is 2^53 - 1. *)
Definition MAX_SAFE_INTEGER : Z := 2 ^ 53 - 1.

Definition isSafeInteger (n : JsNumber) : bool :=
  match n with
  | JsInt z => (- MAX_SAFE_INTEGER <=? z) && (z <=? MAX_SAFE_INTEGER)
  | JsNonInteger => false
  end.

(** [n <= 0]; a comparison with [NaN] is false, the other non-integers are
    not distinguished because [isSafeInteger] has rejected them before. *)
Definition leZero (n : JsNumber) : bool :=
  match n with
  | JsInt z => z <=? 0
  | JsNonInteger => false
  end.

(** A budget the entry point accepts: a positive integer within the safe
    integer range. *)
Definition positiveSafeInteger (n : JsNumber) : Prop :=
  exists z, n = JsInt z /\ 0 < z <= MAX_SAFE_INTEGER.

(** The decimal digits of an index, as in a template literal. *)
Definition decimal (n : nat) : jsstring :=
  js (NilZero.string_of_uint (Nat.to_uint n)).

(** ** Configuration and collaborators *)

Section Engine.

(** Types declared elsewhere in the repository. *)
Variables GitDiffResult GitLogResult : Type.
Variables GitOther OutputOther ConfigOther : Type.
(** What a collaborator may throw. *)
Variable ExtError : Type.

(** The fields of [RepomixConfigMerged] the engine reads or writes; the
    other fields of each object are carried along unread. *)
Record GitConfig := {
  includeDiffs : bool;
  includeLogs : bool;
  gitOther : GitOther
}.

Record OutputConfig := {
  outFilePath : jsstring;
  git : GitConfig;
  outputOther : OutputOther
}.

Record RepomixConfigMerged := {
  output : OutputConfig;
  tokenCountEncoding : jsstring;
  configOther : ConfigOther
}.

Record SplitInfo := {
  partNumber : nat;
  totalParts : nat;
  totalFiles : nat
}.

(** The arguments of one call of [generateOutput]. *)
Record RenderCall := {
  rcRootDirs : list jsstring;
  rcConfig : RepomixConfigMerged;
  rcFiles : list ProcessedFile;
  rcAllFilePaths : list jsstring;
  rcGitDiff : option GitDiffResult;
  rcGitLog : option GitLogResult;
  rcSplitInfo : option SplitInfo
}.

Record TokenCountTask := {
  taskContent : jsstring;
  taskEncoding : jsstring;
  taskPath : jsstring
}.

Inductive SplitError :=
| InvalidMaxBytesPerPart (n : JsNumber)
| InvalidMaxTokensPerPart (n : JsNumber)
| RootEntryExceedsMaxSize (root : jsstring) (partSize limit : Z)
| FileExceedsMaxTokens (file : jsstring) (tokens limit : Z)
| CollaboratorError (e : ExtError).

Inductive result (A : Type) :=
| Ok (a : A)
| Throw (e : SplitError).
Arguments Ok {A} a.
Arguments Throw {A} e.

(** What a collaborator answers: a value, or a failure of its own. *)
Inductive outcome (A : Type) :=
| Returned (a : A)
| Failed (e : ExtError).
Arguments Returned {A} a.
Arguments Failed {A} e.

(** [await] of a collaborator's answer: the value, or the failure thrown
    on, unchanged, to the caller of the engine. *)
Definition await {A} (o : outcome A) : result A :=
  match o with
  | Returned x => Ok x
  | Failed e => Throw (CollaboratorError e)
  end.

Inductive ProgressMessage :=
| MsgEvaluating (partIndex : nat) (root : jsstring)
| MsgPreCalculating.

(** What the engine does to the outside world. *)
Inductive Event :=
| EvProgress (msg : ProgressMessage)
| EvGenerateOutput (call : RenderCall)
| EvInitTaskRunner
| EvTaskRun (task : TokenCountTask)
| EvCalculateOutputMetrics (text encoding : jsstring)
| EvCleanup.

(** The trace of events, most recent first. *)
Definition Trace := list Event.

(** Computations of the engine: they extend the trace and return or
    throw. *)
Definition M (A : Type) := Trace -> result A * Trace.

Definition ret {A} (a : A) : M A := fun t => (Ok a, t).
Definition throw {A} (e : SplitError) : M A := fun t => (Throw e, t).
Definition bind {A B} (m : M A) (f : A -> M B) : M B :=
  fun t => match m t with
           | (Ok a, t') => f a t'
           | (Throw e, t') => (Throw e, t')
           end.
Definition emit (ev : Event) : M unit := fun t => (Ok tt, ev :: t).
(** [try { body } finally { fin }], for a [fin] that returns normally. *)
Definition tryFinally {A} (body : M A) (fin : M unit) : M A :=
  fun t => match body t with
           | (r, t') => match fin t' with
                        | (Ok _, t'') => (r, t'')
                        | (Throw e, t'') => (Throw e, t'')
                        end
           end.

Notation "x <- m ;; k" := (bind m (fun x => k))
  (at level 61, m at next level, right associativity).
Notation "m ;;; k" := (bind m (fun _ => k))
  (at level 61, right associativity).

(** A [for ... of] loop threading its variables. *)
Fixpoint forEach {A S} (body : S -> A -> M S) (l : list A) (s : S) : M S :=
  match l with
  | [] => ret s
  | a :: l' => s' <- body s a ;; forEach body l' s'
  end.

(** The collaborators.  [generateOutput] is [deps.generateOutput],
    [taskRun] is [taskRunner.run], [localeCompare] the comparison of
    [sort], [extname] is [path.extname]. *)
Variable generateOutput : RenderCall -> outcome jsstring.
Variable taskRun : TokenCountTask -> outcome Z.
Variable calculateOutputMetrics : jsstring -> jsstring -> outcome Z.
Variable localeCompare : jsstring -> jsstring -> Z.
Variable extname : jsstring -> jsstring.

Definition callGenerateOutput (call : RenderCall) : M jsstring :=
  fun t => (await (generateOutput call), EvGenerateOutput call :: t).
Definition callTaskRun (task : TokenCountTask) : M Z :=
  fun t => (await (taskRun task), EvTaskRun task :: t).
Definition callCalculateOutputMetrics (text encoding : jsstring) : M Z :=
  fun t => (await (calculateOutputMetrics text encoding),
            EvCalculateOutputMetrics text encoding :: t).
Definition progressCallback (msg : ProgressMessage) : M unit :=
  emit (EvProgress msg).

(** ** Shared helpers *)

Definition buildSplitOutputFilePath (baseFilePath : jsstring) (partIndex : nat)
  : jsstring :=
  let ext := extname baseFilePath in
  if negb (truthy ext) then baseFilePath ++ js "." ++ decimal partIndex
  else
    let baseWithoutExt :=
      firstn (length baseFilePath - length ext) baseFilePath in
    baseWithoutExt ++ js "." ++ decimal partIndex ++ ext.

Definition makeChunkConfig (baseConfig : RepomixConfigMerged) (partIndex : nat)
  : RepomixConfigMerged :=
  if Nat.eqb partIndex 1 then baseConfig
  else
    let git' := {| includeDiffs := false;
                   includeLogs := false;
                   gitOther := gitOther (git (output baseConfig)) |} in
    {| output := {| outFilePath := outFilePath (output baseConfig);
                    git := git';
                    outputOther := outputOther (output baseConfig) |};
       tokenCountEncoding := tokenCountEncoding baseConfig;
       configOther := configOther baseConfig |}.

Definition renderFiles
  (files : list ProcessedFile) (paths : list jsstring) (partIndex : nat)
  (rootDirs : list jsstring) (baseConfig : RepomixConfigMerged)
  (gitDiffResult : option GitDiffResult) (gitLogResult : option GitLogResult)
  (splitInfo : option SplitInfo) : M jsstring :=
  let chunkConfig := makeChunkConfig baseConfig partIndex in
  callGenerateOutput
    {| rcRootDirs := rootDirs;
       rcConfig := chunkConfig;
       rcFiles := files;
       rcAllFilePaths := paths;
       rcGitDiff := if Nat.eqb partIndex 1 then gitDiffResult else None;
       rcGitLog := if Nat.eqb partIndex 1 then gitLogResult else None;
       rcSplitInfo := splitInfo |}.

(** The arguments every splitter receives. *)
Record SplitArgs := {
  rootDirs : list jsstring;
  baseConfig : RepomixConfigMerged;
  argFiles : list ProcessedFile;
  argPaths : list jsstring;
  gitDiffResult : option GitDiffResult;
  gitLogResult : option GitLogResult
}.

(** ** Byte splitter *)

(** The variables of the loop of [generateSplitOutputPartsByBytes]. *)
Record ByteState := {
  parts : list OutputSplitPart;
  currentGroups : list OutputSplitGroup;
  currentContent : jsstring;
  currentBytes : Z
}.

Definition groupFiles (gs : list OutputSplitGroup) : list ProcessedFile :=
  flat_map processedFiles gs.

Section ByBytes.
Variable a : SplitArgs.
Variable maxBytesPerPart : Z.
(** [groups.length]. *)
Variable nGroups : nat.

Definition byteSplitInfo (partIndex : nat) : option SplitInfo :=
  Some {| partNumber := partIndex;
          totalParts := nGroups;
          totalFiles := length (argPaths a) |}.

Definition renderGroups (gs : list OutputSplitGroup) (partIndex : nat)
  : M jsstring :=
  renderFiles (groupFiles gs) (argPaths a) partIndex (rootDirs a)
    (baseConfig a) (gitDiffResult a) (gitLogResult a)
    (byteSplitInfo partIndex).

Definition closePart (st : ByteState) (partIndex : nat) : OutputSplitPart :=
  {| index := partIndex;
     filePath :=
       buildSplitOutputFilePath (outFilePath (output (baseConfig a)))
         partIndex;
     partContent := currentContent st;
     byteLength := currentBytes st;
     tokenCount := 0;
     groups := Some (currentGroups st) |}.

Definition byteStep (st : ByteState) (group : OutputSplitGroup)
  : M ByteState :=
  let partIndex := (length (parts st) + 1)%nat in
  let nextGroups := currentGroups st ++ [group] in
  progressCallback (MsgEvaluating partIndex (rootEntry group)) ;;;
  nextContent <- renderGroups nextGroups partIndex ;;
  let nextBytes := getUtf8ByteLength nextContent in
  if nextBytes <=? maxBytesPerPart then
    ret {| parts := parts st;
           currentGroups := nextGroups;
           currentContent := nextContent;
           currentBytes := nextBytes |}
  else if Nat.eqb (length (currentGroups st)) 0 then
    throw (RootEntryExceedsMaxSize (rootEntry group) nextBytes
             maxBytesPerPart)
  else
    let parts' := parts st ++ [closePart st partIndex] in
    let newPartIndex := (length parts' + 1)%nat in
    progressCallback (MsgEvaluating newPartIndex (rootEntry group)) ;;;
    singleGroupContent <- renderGroups [group] newPartIndex ;;
    let singleGroupBytes := getUtf8ByteLength singleGroupContent in
    if maxBytesPerPart <? singleGroupBytes then
      throw (RootEntryExceedsMaxSize (rootEntry group) singleGroupBytes
               maxBytesPerPart)
    else
      ret {| parts := parts';
             currentGroups := [group];
             currentContent := singleGroupContent;
             currentBytes := singleGroupBytes |}.

Definition byteFinish (st : ByteState) : list OutputSplitPart :=
  if Nat.ltb 0 (length (currentGroups st)) then
    let finalIndex := (length (parts st) + 1)%nat in
    parts st ++ [closePart st finalIndex]
  else parts st.

End ByBytes.

Definition byteInit : ByteState :=
  {| parts := []; currentGroups := []; currentContent := [];
     currentBytes := 0 |}.

Definition generateSplitOutputPartsByBytes
  (a : SplitArgs) (maxBytesPerPart : Z) : M (list OutputSplitPart) :=
  let groups :=
    buildOutputSplitGroups localeCompare (argFiles a) (argPaths a) in
  if Nat.eqb (length groups) 0 then ret []
  else
    st <- forEach (byteStep a maxBytesPerPart (length groups)) groups
            byteInit ;;
    ret (byteFinish a st).

(** ** Token splitter *)

(** [Promise.all(l.map(f))]: every call is started, in list order, before
    any is awaited; the whole fails when one of them fails (the rejection
    reported is taken to be the first in list order). *)
Fixpoint promiseAll {A B} (f : A -> M B) (l : list A) : M (list B) :=
  fun t =>
    match l with
    | [] => (Ok [], t)
    | x :: l' =>
        let (r, t1) := f x t in
        let (rs, t2) := promiseAll f l' t1 in
        (match r, rs with
         | Ok b, Ok bs => Ok (b :: bs)
         | Throw e, _ => Throw e
         | Ok _, Throw e => Throw e
         end, t2)
    end.

(** [new Map(pairs)]: later pairs overwrite earlier ones. *)
Definition newMap {V} (pairs : list (jsstring * V)) : JsMap V :=
  fold_left (fun m kv => map_set (fst kv) (snd kv) m) pairs [].

(** [tokenMap.get(path) || 0]. *)
Definition orZero (o : option Z) : Z :=
  match o with
  | Some c => if c =? 0 then 0 else c
  | None => 0
  end.

Definition overheadPerFile : Z := 20.

(** The variables of the packing loop. *)
Record PackState := {
  partFileData : list (list ProcessedFile);
  currentFiles : list ProcessedFile;
  currentTokens : Z
}.

Definition packInit : PackState :=
  {| partFileData := []; currentFiles := []; currentTokens := 0 |}.

Section ByTokens.
Variable a : SplitArgs.
Variable maxTokensPerPart : Z.

Definition encodingOf : jsstring := tokenCountEncoding (baseConfig a).

Definition countFile (file : ProcessedFile) : M (jsstring * Z) :=
  count <- callTaskRun {| taskContent := content file;
                          taskEncoding := encodingOf;
                          taskPath := path file |} ;;
  ret (path file, count).

Definition fileTokens (tokenMap : JsMap Z) (file : ProcessedFile) : Z :=
  orZero (map_get (path file) tokenMap) + overheadPerFile.

Definition packStep (tokenMap : JsMap Z) (st : PackState)
  (file : ProcessedFile) : PackState :=
  let ft := fileTokens tokenMap file in
  if maxTokensPerPart <? ft then
    let st1 :=
      if Nat.ltb 0 (length (currentFiles st)) then
        {| partFileData := partFileData st ++ [currentFiles st];
           currentFiles := [];
           currentTokens := 0 |}
      else st in
    {| partFileData := partFileData st1 ++ [[file]];
       currentFiles := currentFiles st1;
       currentTokens := currentTokens st1 |}
  else if maxTokensPerPart <? currentTokens st + ft then
    {| partFileData := partFileData st ++ [currentFiles st];
       currentFiles := [file];
       currentTokens := ft |}
  else
    {| partFileData := partFileData st;
       currentFiles := currentFiles st ++ [file];
       currentTokens := currentTokens st + ft |}.

Definition packFinish (st : PackState) : list (list ProcessedFile) :=
  if Nat.ltb 0 (length (currentFiles st)) then
    partFileData st ++ [currentFiles st]
  else partFileData st.

(** The batches the packing loop and the trailing flush leave in
    [partFileData]. *)
Definition packFiles (tokenMap : JsMap Z) (files : list ProcessedFile)
  : list (list ProcessedFile) :=
  packFinish (fold_left (packStep tokenMap) files packInit).

(** One round of the rendering loop: [files] is [partFileData[i]]. *)
Definition tokenPart (total : nat) (i : nat) (files : list ProcessedFile)
  : M OutputSplitPart :=
  let partIndex := (i + 1)%nat in
  text <- renderFiles files (argPaths a) partIndex (rootDirs a)
            (baseConfig a) (gitDiffResult a) (gitLogResult a)
            (Some {| partNumber := partIndex;
                     totalParts := total;
                     totalFiles := length (argPaths a) |}) ;;
  count <- callCalculateOutputMetrics text encodingOf ;;
  if Nat.eqb (length files) 1 && (maxTokensPerPart <? count) then
    throw (FileExceedsMaxTokens
             (match files with f :: _ => path f | [] => [] end)
             count maxTokensPerPart)
  else
    ret {| index := partIndex;
           filePath :=
             buildSplitOutputFilePath (outFilePath (output (baseConfig a)))
               partIndex;
           partContent := text;
           byteLength := getUtf8ByteLength text;
           tokenCount := count;
           groups := None |}.

(** [for (let i = ...; i < totalParts; i++)] over the batches from
    position [i] on, pushing onto [acc]. *)
Fixpoint tokenLoop (total : nat) (batches : list (list ProcessedFile))
  (i : nat) (acc : list OutputSplitPart) : M (list OutputSplitPart) :=
  match batches with
  | [] => ret acc
  | files :: rest =>
      p <- tokenPart total i files ;;
      tokenLoop total rest (S i) (acc ++ [p])
  end.

Definition generateSplitOutputPartsByTokens : M (list OutputSplitPart) :=
  emit EvInitTaskRunner ;;;
  tryFinally
    (progressCallback MsgPreCalculating ;;;
     fileTokenCounts <- promiseAll countFile (argFiles a) ;;
     let tokenMap := newMap fileTokenCounts in
     let batches := packFiles tokenMap (argFiles a) in
     tokenLoop (length batches) batches 0%nat [])
    (emit EvCleanup).

End ByTokens.

(** ** Entry point *)

(** The value of a budget that passed validation. *)
Definition numberValue (n : JsNumber) : Z :=
  match n with
  | JsInt z => z
  | JsNonInteger => 0
  end.

Definition invalidBudget (n : JsNumber) : bool :=
  negb (isSafeInteger n) || leZero n.

Definition generateSplitOutputParts
  (a : SplitArgs) (maxBytesPerPart maxTokensPerPart : option JsNumber)
  : M (list OutputSplitPart) :=
  match maxBytesPerPart with
  | Some n => if invalidBudget n then throw (InvalidMaxBytesPerPart n)
              else ret tt
  | None => ret tt
  end ;;;
  match maxTokensPerPart with
  | Some n => if invalidBudget n then throw (InvalidMaxTokensPerPart n)
              else ret tt
  | None => ret tt
  end ;;;
  match maxTokensPerPart with
  | Some n => generateSplitOutputPartsByTokens a (numberValue n)
  | None =>
      match maxBytesPerPart with
      | Some n => generateSplitOutputPartsByBytes a (numberValue n)
      | None => ret []
      end
  end.

(** ** Reference formulations

    The two packing procedures written once more, following the prose of
    the specification instead of the loops of the source; the theorems
    below compare them with the functions above. *)

(** The renderer as a function of the groups (or files) of a part. *)
Definition renderCallOf (a : SplitArgs) (files : list ProcessedFile)
  (partIndex total : nat) : RenderCall :=
  {| rcRootDirs := rootDirs a;
     rcConfig := makeChunkConfig (baseConfig a) partIndex;
     rcFiles := files;
     rcAllFilePaths := argPaths a;
     rcGitDiff := if Nat.eqb partIndex 1 then gitDiffResult a else None;
     rcGitLog := if Nat.eqb partIndex 1 then gitLogResult a else None;
     rcSplitInfo := Some {| partNumber := partIndex;
                            totalParts := total;
                            totalFiles := length (argPaths a) |} |}.

(** The committed accumulator of the byte splitter: nothing yet, or groups
    confirmed to fit, with their render and its size. *)
Inductive Accumulator :=
| AccEmpty
| AccCommitted (gs : list OutputSplitGroup) (text : jsstring) (bytes : Z).

Definition accGroups (acc : Accumulator) : list OutputSplitGroup :=
  match acc with
  | AccEmpty => []
  | AccCommitted gs _ _ => gs
  end.

Section ByteSpec.
Variable a : SplitArgs.
Variable maxBytesPerPart : Z.
Variable nGroups : nat.

Definition trial (gs : list OutputSplitGroup) (partIndex : nat)
  : result jsstring :=
  await (generateOutput (renderCallOf a (groupFiles gs) partIndex nGroups)).

(** Closing the accumulator as the part after the [finished] ones. *)
Definition closeAccumulator (acc : Accumulator)
  (finished : list OutputSplitPart) : list OutputSplitPart :=
  match acc with
  | AccEmpty => finished
  | AccCommitted gs text bytes =>
      finished ++
      [{| index := S (length finished);
          filePath :=
            buildSplitOutputFilePath (outFilePath (output (baseConfig a)))
              (S (length finished));
          partContent := text;
          byteLength := bytes;
          tokenCount := 0;
          groups := Some gs |}]
  end.

Fixpoint byteSplitSpec (gs : list OutputSplitGroup) (acc : Accumulator)
  (finished : list OutputSplitPart) : result (list OutputSplitPart) :=
  match gs with
  | [] => Ok (closeAccumulator acc finished)
  | g :: rest =>
      match trial (accGroups acc ++ [g]) (S (length finished)) with
      | Throw e => Throw e
      | Ok text =>
          let bytes := getUtf8ByteLength text in
          if bytes <=? maxBytesPerPart then
            byteSplitSpec rest (AccCommitted (accGroups acc ++ [g]) text bytes)
              finished
          else
            match acc with
            | AccEmpty =>
                Throw (RootEntryExceedsMaxSize (rootEntry g) bytes
                         maxBytesPerPart)
            | AccCommitted _ _ _ =>
                let finished' := closeAccumulator acc finished in
                match trial [g] (S (length finished')) with
                | Throw e => Throw e
                | Ok alone =>
                    let aloneBytes := getUtf8ByteLength alone in
                    if aloneBytes <=? maxBytesPerPart then
                      byteSplitSpec rest (AccCommitted [g] alone aloneBytes)
                        finished'
                    else
                      Throw (RootEntryExceedsMaxSize (rootEntry g)
                               aloneBytes maxBytesPerPart)
                end
            end
      end
  end.

End ByteSpec.

(** The greedy packing of the token splitter over adjusted estimates
    [cost]: [batch] is the current batch and [total] its running total. *)
Section PackSpec.
Variable budget : Z.
Variable cost : ProcessedFile -> Z.

Definition flush (batch : list ProcessedFile) : list (list ProcessedFile) :=
  match batch with
  | [] => []
  | _ :: _ => [batch]
  end.

Fixpoint packSpec (files : list ProcessedFile) (batch : list ProcessedFile)
  (total : Z) : list (list ProcessedFile) :=
  match files with
  | [] => flush batch
  | f :: rest =>
      if budget <? cost f then
        flush batch ++ [f] :: packSpec rest [] 0
      else if budget <? total + cost f then
        flush batch ++ packSpec rest [f] (cost f)
      else
        packSpec rest (batch ++ [f]) (total + cost f)
  end.
End PackSpec.

(** The base configuration with the git context switched off and every
    other field kept. *)
Definition withoutGitContext (c : RepomixConfigMerged) : RepomixConfigMerged :=
  {| output := {| outFilePath := outFilePath (output c);
                  git := {| includeDiffs := false;
                            includeLogs := false;
                            gitOther := gitOther (git (output c)) |};
                  outputOther := outputOther (output c) |};
     tokenCountEncoding := tokenCountEncoding c;
     configOther := configOther c |}.

(** The groups and the files embedded in a part of the byte splitter. *)
Definition partGroups (p : OutputSplitPart) : list OutputSplitGroup :=
  match groups p with
  | Some gs => gs
  | None => []
  end.

Definition partFiles (p : OutputSplitPart) : list ProcessedFile :=
  groupFiles (partGroups p).

(** A finished part of the byte splitter: its recorded size is the size of
    its content and within the budget, and its content is the render of its
    groups under its index. *)
Definition bytePartOk (a : SplitArgs) (maxBytesPerPart : Z) (nGroups : nat)
    (p : OutputSplitPart) : Prop :=
  byteLength p = getUtf8ByteLength (partContent p) /\
  byteLength p <= maxBytesPerPart /\
  tokenCount p = 0 /\
  partGroups p <> [] /\
  groups p = Some (partGroups p) /\
  trial a nGroups (partGroups p) (index p) = Ok (partContent p).

(** The loop invariant of the byte splitter after the groups [done]. *)
Definition ByteInv (a : SplitArgs) (maxBytesPerPart : Z) (nGroups : nat)
    (done : list OutputSplitGroup) (st : ByteState) : Prop :=
  flat_map partGroups (parts st) ++ currentGroups st = done /\
  Forall (bytePartOk a maxBytesPerPart nGroups) (parts st) /\
  List.map index (parts st) = seq 1 (length (parts st)) /\
  (currentGroups st <> [] ->
   currentBytes st = getUtf8ByteLength (currentContent st) /\
   currentBytes st <= maxBytesPerPart /\
   trial a nGroups (currentGroups st) (S (length (parts st))) =
     Ok (currentContent st)).

(** The pre-estimate as a function: the counts of all files, or the failure
    of the tokenizer. *)
Fixpoint estimateAll (a : SplitArgs) (files : list ProcessedFile)
    : result (list (jsstring * Z)) :=
  match files with
  | [] => Ok []
  | f :: rest =>
          match await (taskRun {| taskContent := content f;
                              taskEncoding := encodingOf a;
                              taskPath := path f |}),
            estimateAll a rest with
      | Ok c, Ok cs => Ok ((path f, c) :: cs)
      | Throw e, _ => Throw e
      | Ok _, Throw e => Throw e
      end
  end.

(** The sum of the adjusted estimates of a batch. *)
Definition sumTokens (tokenMap : JsMap Z) (batch : list ProcessedFile) : Z :=
  fold_right Z.add 0 (List.map (fileTokens tokenMap) batch).

(** A pending part of the token splitter: one file whose adjusted estimate
    alone exceeds the budget, or files whose adjusted estimates sum to at
    most the budget. *)
Definition batchOk (maxTokensPerPart : Z) (tokenMap : JsMap Z)
    (batch : list ProcessedFile) : Prop :=
  batch <> [] /\
  ((exists f, batch = [f] /\ maxTokensPerPart < fileTokens tokenMap f) \/
   sumTokens tokenMap batch <= maxTokensPerPart).

(** The loop invariant of the packing loop after the files [done]. *)
Definition PackInv (maxTokensPerPart : Z) (tokenMap : JsMap Z)
    (done : list ProcessedFile) (st : PackState) : Prop :=
  concat (partFileData st) ++ currentFiles st = done /\
  Forall (batchOk maxTokensPerPart tokenMap) (partFileData st) /\
  currentTokens st = sumTokens tokenMap (currentFiles st) /\
  (currentFiles st <> [] -> currentTokens st <= maxTokensPerPart).

(** A part of the token splitter made from the batch [files]: its content
    is the render of [files] under its index, its token count is the exact
    count of that content, checked against the budget when the batch is a
    single file. *)
Definition tokenPartOk (a : SplitArgs) (maxTokensPerPart : Z) (total : nat)
    (files : list ProcessedFile) (p : OutputSplitPart) : Prop :=
  generateOutput (renderCallOf a files (index p) total) =
    Returned (partContent p) /\
  calculateOutputMetrics (partContent p) (encodingOf a) =
    Returned (tokenCount p) /\
  (length files = 1%nat -> tokenCount p <= maxTokensPerPart) /\
  byteLength p = getUtf8ByteLength (partContent p) /\
  groups p = None.

(** The accumulator held in the loop variables of the byte splitter. *)
Definition accOfState (st : ByteState) : Accumulator :=
  match currentGroups st with
  | [] => AccEmpty
  | _ :: _ =>
      AccCommitted (currentGroups st) (currentContent st) (currentBytes st)
  end.

(** What the engine owes the renderer on every call: a part number from 1
    on; for part 1 the base configuration and the caller's diff and log
    data; for later parts no diff or log data and a configuration with
    the git context switched off. *)
Definition gitContextRule (a : SplitArgs) (call : RenderCall) : Prop :=
  exists info,
    rcSplitInfo call = Some info /\
    (1 <= partNumber info)%nat /\
    (partNumber info = 1%nat ->
     rcConfig call = baseConfig a /\
     rcGitDiff call = gitDiffResult a /\
     rcGitLog call = gitLogResult a) /\
    ((1 < partNumber info)%nat ->
     rcConfig call = withoutGitContext (baseConfig a) /\
     rcGitDiff call = None /\
     rcGitLog call = None).

Definition eventRule (a : SplitArgs) (ev : Event) : Prop :=
  match ev with
  | EvGenerateOutput call => gitContextRule a call
  | _ => True
  end.

(** A call of the tokenizer pool; no other event. *)
Definition isTaskRun (ev : Event) : Prop :=
  match ev with
  | EvTaskRun _ => True
  | _ => False
  end.

(** Among the events [new], the single-file batch [[f]] was rendered as
    part [n] of [total], and the exact token count [m] of that render
    exceeds the budget. *)
Definition singleFileOverBudget (a : SplitArgs) (maxTokensPerPart : Z)
  (total n : nat) (f : ProcessedFile) (m : Z) (new : Trace) : Prop :=
  exists text,
    In (EvGenerateOutput (renderCallOf a [f] n total)) new /\
    generateOutput (renderCallOf a [f] n total) = Returned text /\
    calculateOutputMetrics text (encodingOf a) = Returned m /\
    maxTokensPerPart < m.

(** [m] only adds events satisfying [P] to the trace. *)
Definition emitsOnly {A} (P : Event -> Prop) (m : M A) : Prop :=
  forall t, exists new, snd (m t) = new ++ t /\ Forall P new.

End Engine.

Arguments Ok {ExtError A} a.
Arguments Throw {ExtError A} e.
Arguments Returned {ExtError A} a.
Arguments Failed {ExtError A} e.

Arguments InvalidMaxBytesPerPart {ExtError} n.
Arguments InvalidMaxTokensPerPart {ExtError} n.
Arguments RootEntryExceedsMaxSize {ExtError} root partSize limit.
Arguments FileExceedsMaxTokens {ExtError} file tokens limit.
Arguments CollaboratorError {ExtError} e.
Arguments EvProgress {GitDiffResult GitLogResult GitOther OutputOther
                      ConfigOther} msg.
Arguments EvInitTaskRunner {GitDiffResult GitLogResult GitOther OutputOther
                            ConfigOther}.
Arguments EvTaskRun {GitDiffResult GitLogResult GitOther OutputOther
                     ConfigOther} task.
Arguments EvCalculateOutputMetrics {GitDiffResult GitLogResult GitOther
                                    OutputOther ConfigOther} text encoding.
Arguments EvCleanup {GitDiffResult GitLogResult GitOther OutputOther
                     ConfigOther}.
Arguments isTaskRun {GitDiffResult GitLogResult GitOther OutputOther
                     ConfigOther} ev.
Arguments ret {GitDiffResult GitLogResult GitOther OutputOther ConfigOther
               ExtError A} a _.
Arguments emit {GitDiffResult GitLogResult GitOther OutputOther ConfigOther
                ExtError} ev _.
Arguments progressCallback {GitDiffResult GitLogResult GitOther OutputOther
                            ConfigOther ExtError} msg _.

(** ** Sample collaborators and inputs

    Used to run the model on the scenarios of the test suite. *)

Definition sampleConfig : RepomixConfigMerged unit unit unit :=
  {| output := {| outFilePath := js "repomix-output.xml";
                  git := {| includeDiffs := false; includeLogs := false;
                            gitOther := tt |};
                  outputOther := tt |};
     tokenCountEncoding := js "o200k_base";
     configOther := tt |}.

Definition sampleArgs (files : list ProcessedFile) (paths : list jsstring)
  : SplitArgs unit unit unit unit unit :=
  {| rootDirs := [js "/test"];
     baseConfig := sampleConfig;
     argFiles := files;
     argPaths := paths;
     gitDiffResult := None;
     gitLogResult := None |}.

(** [path.extname] on the sample output path. *)
Definition sampleExtname (p : jsstring) : jsstring := js ".xml".

(** [path.extname] on [a/b.c/]: it looks past the separator at the end. *)
Definition trailingExtname (p : jsstring) : jsstring := js ".c".

(** The renderer of the byte-mode test: fifty ['x'] per embedded file. *)
Definition renderFifty (call : RenderCall unit unit unit unit unit)
  : outcome unit jsstring :=
  Returned (repeat 120%N (length (rcFiles call) * 50)).

(** The renderer of the token-mode test: the paths joined by commas. *)
Fixpoint joinPaths (files : list ProcessedFile) : jsstring :=
  match files with
  | [] => []
  | [f] => path f
  | f :: rest => path f ++ 44%N :: joinPaths rest
  end.

Definition renderPaths (call : RenderCall unit unit unit unit unit)
  : outcome unit jsstring :=
  Returned (joinPaths (rcFiles call)).

(** The inputs of the scenarios. *)
Definition scenarioA_files : list ProcessedFile :=
  [mkFile "src/a.ts" "source a"; mkFile "tests/test.ts" "test content"].
Definition scenarioA_paths : list jsstring :=
  [js "src/a.ts"; js "tests/test.ts"].
Definition scenarioB_files : list ProcessedFile :=
  [mkFile "file1.ts" "content1"; mkFile "file2.ts" "content2";
   mkFile "file3.ts" "content3"].
Definition scenarioB_paths : list jsstring :=
  [js "file1.ts"; js "file2.ts"; js "file3.ts"].
(** Selected files whose root entries are not in sorted order. *)
Definition interleaved_files : list ProcessedFile :=
  [mkFile "lib/x.ts" "x"; mkFile "app/y.ts" "y"; mkFile "lib/z.ts" "z"].
Definition interleaved_paths : list jsstring :=
  [js "lib/x.ts"; js "app/y.ts"; js "lib/z.ts"].
(** Selected files under a root entry that no known path mentions. *)
Definition unlisted_files : list ProcessedFile :=
  [mkFile "a/x" "1"; mkFile "a/y" "2"].

(** Tokenizers answering a constant. *)
Definition constantRun (n : Z) (task : TokenCountTask) : outcome unit Z :=
  Returned n.
Definition constantMetrics (n : Z) (text encoding : jsstring)
  : outcome unit Z :=
  Returned n.

(** The runs of the scenarios, evaluated. *)
Definition scenarioA_run :=
  Eval vm_compute in
    generateSplitOutputPartsByBytes renderFifty codeUnitCompare sampleExtname
      (sampleArgs scenarioA_files scenarioA_paths) 70 [].

Definition scenarioB_run :=
  Eval vm_compute in
    generateSplitOutputPartsByTokens renderPaths (constantRun 60)
      (constantMetrics 60) sampleExtname
      (sampleArgs scenarioB_files scenarioB_paths) 100 [].

(** Scenario C: one file whose render counts 200 tokens, budget 100. *)
Definition scenarioC_files : list ProcessedFile :=
  [mkFile "large.ts" "large content"].
Definition scenarioC_run :=
  Eval vm_compute in
    generateSplitOutputPartsByTokens renderPaths (constantRun 150)
      (constantMetrics 200) sampleExtname
      (sampleArgs scenarioC_files [js "large.ts"]) 100 [].

(** Two small files whose common render counts 200 tokens, budget 100. *)
Definition loose_run :=
  Eval vm_compute in
    generateSplitOutputPartsByTokens renderPaths (constantRun 10)
      (constantMetrics 200) sampleExtname
      (sampleArgs scenarioA_files scenarioA_paths) 100 [].

(** The interleaved files under a generous byte budget. *)
Definition interleaved_run :=
  Eval vm_compute in
    generateSplitOutputPartsByBytes renderFifty codeUnitCompare sampleExtname
      (sampleArgs interleaved_files interleaved_paths) 1000 [].

Definition partsOf {E T} (run : result E (list OutputSplitPart) * T)
  : list OutputSplitPart :=
  match fst run with
  | Ok ps => ps
  | Throw _ => []
  end.

(** A tokenizer that counts the code units of the content, a renderer that
    fails, and two selected files of one path. *)
Definition lengthRun (task : TokenCountTask) : outcome unit Z :=
  Returned (Z.of_nat (length (taskContent task))).

Definition failingRender (call : RenderCall unit unit unit unit unit)
  : outcome unit jsstring :=
  Failed tt.

Definition twice_files : list ProcessedFile :=
  [mkFile "a.ts" "x"; mkFile "a.ts" "yyy"].

(** ** Further notions

    Used by the properties of the helpers and of whole runs below. *)

(** The known paths carried by a list of groups. *)
Definition groupPaths (gs : list OutputSplitGroup) : list jsstring :=
  flat_map allFilePaths gs.

(** Every element of a list stands in relation [R] to its successor. *)
Fixpoint adjacent {A} (R : A -> A -> Prop) (l : list A) : Prop :=
  match l with
  | x :: ((y :: _) as l') => R x y /\ adjacent R l'
  | _ => True
  end.

Section FurtherNotions.
Variables GitDiffResult GitLogResult : Type.
Variables GitOther OutputOther ConfigOther : Type.
Variable ExtError : Type.
Variable generateOutput :
  RenderCall GitDiffResult GitLogResult GitOther OutputOther ConfigOther ->
  outcome ExtError jsstring.
Variable taskRun : TokenCountTask -> outcome ExtError Z.
Variable calculateOutputMetrics : jsstring -> jsstring -> outcome ExtError Z.
Variable extname : jsstring -> jsstring.
Variable a :
  SplitArgs GitDiffResult GitLogResult GitOther OutputOther ConfigOther.

(** The path the engine gives to a part of index [index p]. *)
Definition namedByIndex (p : OutputSplitPart) : Prop :=
  filePath p =
  buildSplitOutputFilePath extname (outFilePath (output (baseConfig a)))
    (index p).

(** Part [p] was closed because the render of its groups together with the
    first group of [next] measured more than [maxBytesPerPart]. *)
Definition closedByOverflow (maxBytesPerPart : Z) (nGroups : nat)
  (p : nat * list OutputSplitGroup) (next : nat * list OutputSplitGroup)
  : Prop :=
  exists g rest text,
    snd next = g :: rest /\
    generateOutput
      (renderCallOf a (groupFiles (snd p ++ [g])) (fst p) nGroups) =
    Returned text /\
    maxBytesPerPart < getUtf8ByteLength text.

(** A part seen as its index and its groups. *)
Definition partView (p : OutputSplitPart) : nat * list OutputSplitGroup :=
  (index p, partGroups p).

(** The number of renderer calls recorded in a trace. *)
Definition isRender
  (ev : Event GitDiffResult GitLogResult GitOther OutputOther ConfigOther)
  : bool :=
  match ev with
  | EvGenerateOutput _ => true
  | _ => false
  end.

Definition countRenders
  (t : Trace GitDiffResult GitLogResult GitOther OutputOther ConfigOther)
  : nat :=
  length (filter isRender t).

(** Progress messages and renderer calls: the only events of the byte
    splitter. *)
Definition isByteEvent
  (ev : Event GitDiffResult GitLogResult GitOther OutputOther ConfigOther)
  : Prop :=
  match ev with
  | EvProgress _ | EvGenerateOutput _ => True
  | _ => False
  end.

(** Neither the start nor the release of the worker pool. *)
Definition isWork
  (ev : Event GitDiffResult GitLogResult GitOther OutputOther ConfigOther)
  : Prop :=
  match ev with
  | EvInitTaskRunner | EvCleanup => False
  | _ => True
  end.

(** The task submitted to the worker pool for a file. *)
Definition taskOf (f : ProcessedFile) : TokenCountTask :=
  {| taskContent := content f;
     taskEncoding := encodingOf a;
     taskPath := path f |}.

(** The events of rendering and measuring the batches of a successful
    token-mode run, in the order they happen. *)
Definition partEvents (total : nat)
  (bp : list ProcessedFile * OutputSplitPart)
  : list (Event GitDiffResult GitLogResult GitOther OutputOther ConfigOther) :=
  [EvGenerateOutput (renderCallOf a (fst bp) (index (snd bp)) total);
   EvCalculateOutputMetrics (partContent (snd bp)) (encodingOf a)].

Definition tokenRunEvents (batches : list (list ProcessedFile))
  (ps : list OutputSplitPart)
  : list (Event GitDiffResult GitLogResult GitOther OutputOther ConfigOther) :=
  [EvInitTaskRunner; EvProgress MsgPreCalculating] ++
  List.map (fun f => EvTaskRun (taskOf f)) (argFiles a) ++
  flat_map (partEvents (length batches)) (combine batches ps) ++
  [EvCleanup].

(** A recorded collaborator call whose answer was the failure [e]. *)
Definition failedWith (e : ExtError)
  (ev : Event GitDiffResult GitLogResult GitOther OutputOther ConfigOther)
  : Prop :=
  match ev with
  | EvGenerateOutput call => generateOutput call = Failed e
  | EvTaskRun task => taskRun task = Failed e
  | EvCalculateOutputMetrics text encoding =>
      calculateOutputMetrics text encoding = Failed e
  | _ => False
  end.

(** A recorded event that is no failed collaborator call. *)
Definition answered
  (ev : Event GitDiffResult GitLogResult GitOther OutputOther ConfigOther)
  : Prop :=
  match ev with
  | EvGenerateOutput call => exists x, generateOutput call = Returned x
  | EvTaskRun task => exists x, taskRun task = Returned x
  | EvCalculateOutputMetrics text encoding =>
      exists x, calculateOutputMetrics text encoding = Returned x
  | _ => True
  end.

(** What a run that added the events [new] owes its caller: when it
    returns, or throws an error of the engine (one satisfying [Q]), every
    collaborator call among [new] was answered; when it throws a
    collaborator's failure, a call among [new] failed that way. *)
Definition verdict {A} (Q : SplitError ExtError -> Prop)
  (r : result ExtError A)
  (new : Trace GitDiffResult GitLogResult GitOther OutputOther ConfigOther)
  : Prop :=
  match r with
  | Ok _ => Forall answered new
  | Throw (CollaboratorError x) => Exists (failedWith x) new
  | Throw e => Q e /\ Forall answered new
  end.

Definition runs {A} (Q : SplitError ExtError -> Prop)
  (m : M GitDiffResult GitLogResult GitOther OutputOther ConfigOther
         ExtError A) : Prop :=
  forall t, exists new, snd (m t) = new ++ t /\ verdict Q (fst (m t)) new.

(** The errors the entry point can throw under the given budgets. *)
Definition errorFits (maxBytesPerPart maxTokensPerPart : option JsNumber)
  (e : SplitError ExtError) : Prop :=
  match e with
  | InvalidMaxBytesPerPart n =>
      maxBytesPerPart = Some n /\ invalidBudget n = true
  | InvalidMaxTokensPerPart n =>
      maxTokensPerPart = Some n /\ invalidBudget n = true
  | RootEntryExceedsMaxSize _ _ limit =>
      maxTokensPerPart = None /\
      exists n, maxBytesPerPart = Some n /\ limit = numberValue n
  | FileExceedsMaxTokens _ _ limit =>
      exists n, maxTokensPerPart = Some n /\ limit = numberValue n
  | CollaboratorError _ => True
  end.

End FurtherNotions.

(** Next to a batch [b1], the batch [b2] begins with a file that is
    oversized, or follows an oversized file, or would not have fitted into
    [b1]. *)
Definition batchBoundary (maxTokensPerPart : Z) (tokenMap : JsMap Z)
  (b1 b2 : list ProcessedFile) : Prop :=
  exists f rest,
    b2 = f :: rest /\
    (maxTokensPerPart < fileTokens tokenMap f \/
     (exists g, b1 = [g] /\ maxTokensPerPart < fileTokens tokenMap g) \/
     maxTokensPerPart < sumTokens tokenMap b1 + fileTokens tokenMap f).

(** * Properties *)

Unset Implicit Arguments.

(** ** Strings and maps *)

Lemma jsstring_eqb_eq (a b : jsstring) : jsstring_eqb a b = true <-> a = b.
Proof.
  revert b; induction a as [|x a IH]; intros [|y b]; simpl; split;
    try congruence; try reflexivity.
  - intros H. apply andb_true_iff in H as [Hx Hab].
    apply N.eqb_eq in Hx. apply IH in Hab. congruence.
  - intros H. injection H as -> ->. rewrite N.eqb_refl. simpl. now apply IH.
Qed.

Lemma jsstring_eqb_refl (a : jsstring) : jsstring_eqb a a = true.
Proof. now apply jsstring_eqb_eq. Qed.

Lemma jsstring_eqb_neq (a b : jsstring) : jsstring_eqb a b = false <-> a <> b.
Proof.
  split.
  - intros H E. apply jsstring_eqb_eq in E. congruence.
  - intros H. destruct (jsstring_eqb a b) eqn:E; [|reflexivity].
    apply jsstring_eqb_eq in E. contradiction.
Qed.

Lemma jsstring_eq_dec (a b : jsstring) : {a = b} + {a <> b}.
Proof.
  destruct (jsstring_eqb a b) eqn:E.
  - left. now apply jsstring_eqb_eq.
  - right. now apply jsstring_eqb_neq.
Qed.

Section MapFacts.
Context {V : Type}.
Implicit Types (m : JsMap V) (k : jsstring) (v : V).

Lemma map_get_set_same k v m : map_get k (map_set k v m) = Some v.
Proof.
  induction m as [|[k' v'] m IH]; simpl.
  - now rewrite jsstring_eqb_refl.
  - destruct (jsstring_eqb k k') eqn:E; simpl.
    + now rewrite jsstring_eqb_refl.
    + now rewrite E.
Qed.

Lemma map_get_set_other k k' v m :
  k <> k' -> map_get k' (map_set k v m) = map_get k' m.
Proof.
  intros Hne. induction m as [|[k0 v0] m IH]; simpl.
  - assert (jsstring_eqb k' k = false) as ->
      by (apply jsstring_eqb_neq; congruence).
    reflexivity.
  - destruct (jsstring_eqb k k0) eqn:E; simpl.
    + apply jsstring_eqb_eq in E. subst k0.
      assert (jsstring_eqb k' k = false) as ->
        by (apply jsstring_eqb_neq; congruence).
      reflexivity.
    + now rewrite IH.
Qed.

Lemma map_get_None k m : map_get k m = None <-> ~ In k (List.map fst m).
Proof.
  induction m as [|[k' v'] m IH]; simpl.
  - tauto.
  - destruct (jsstring_eqb k k') eqn:E.
    + apply jsstring_eqb_eq in E. subst. split; [discriminate | tauto].
    + apply jsstring_eqb_neq in E. rewrite IH. split.
      * intros H [H'|H']; [congruence | tauto].
      * tauto.
Qed.

Lemma map_get_In k v m :
  NoDup (List.map fst m) -> In (k, v) m -> map_get k m = Some v.
Proof.
  induction m as [|[k' v'] m IH]; simpl; [tauto|].
  intros Hnd [H|H].
  - injection H as -> ->. now rewrite jsstring_eqb_refl.
  - inversion Hnd as [|? ? Hnotin Hnd']; subst.
    destruct (jsstring_eqb k k') eqn:E.
    + apply jsstring_eqb_eq in E. subst. exfalso. apply Hnotin.
      now apply (in_map fst) in H.
    + now apply IH.
Qed.

Lemma map_keys_set k v m :
  List.map fst (map_set k v m) =
  match map_get k m with
  | Some _ => List.map fst m
  | None => List.map fst m ++ [k]
  end.
Proof.
  induction m as [|[k' v'] m IH]; simpl; [reflexivity|].
  destruct (jsstring_eqb k k') eqn:E; simpl.
  - apply jsstring_eqb_eq in E. now subst.
  - rewrite IH. now destruct (map_get k m).
Qed.

Lemma map_set_NoDup k v m :
  NoDup (List.map fst m) -> NoDup (List.map fst (map_set k v m)).
Proof.
  intros Hnd. rewrite map_keys_set. destruct (map_get k m) eqn:E; [assumption|].
  apply map_get_None in E.
  apply NoDup_app; [assumption | constructor; [intros [] | constructor] |].
  intros x Hx [<-|[]]. contradiction.
Qed.
End MapFacts.

(** ** The stable sort *)

Section SortFacts.
Context {A : Type} (cmp : A -> A -> Z).

Lemma sort_insert_perm x l : Permutation (sort_insert cmp x l) (x :: l).
Proof.
  induction l as [|y l IH]; simpl; [reflexivity|].
  destruct (cmp x y <=? 0); [reflexivity|].
  rewrite IH. apply perm_swap.
Qed.

Lemma array_sort_perm l : Permutation (array_sort cmp l) l.
Proof.
  induction l as [|x l IH]; simpl; [reflexivity|].
  rewrite sort_insert_perm. now constructor.
Qed.

Lemma array_sort_In x l : In x (array_sort cmp l) <-> In x l.
Proof.
  split; apply Permutation_in;
    [apply array_sort_perm | symmetry; apply array_sort_perm].
Qed.

Hypothesis cmp_total : forall a b, 0 < cmp a b -> cmp b a <= 0.

Lemma sort_insert_sorted x l :
  Sorted (before cmp) l -> Sorted (before cmp) (sort_insert cmp x l).
Proof.
  induction l as [|y l IH]; simpl; intros Hs.
  - repeat constructor.
  - destruct (cmp x y <=? 0) eqn:E.
    + constructor; [assumption|]. constructor. apply Z.leb_le in E. exact E.
    + apply Z.leb_gt in E. inversion Hs as [|? ? Hs' Hhd]; subst.
      constructor; [now apply IH|].
      destruct l as [|z l]; simpl.
      * constructor. now apply cmp_total.
      * destruct (cmp x z <=? 0); constructor.
        -- now apply cmp_total.
        -- now inversion Hhd.
Qed.

Lemma array_sort_sorted l : Sorted (before cmp) (array_sort cmp l).
Proof.
  induction l as [|x l IH]; simpl; [constructor|].
  now apply sort_insert_sorted.
Qed.
End SortFacts.

Lemma StronglySorted_perm_eq {A} (le : A -> A -> Prop) :
  (forall a b, le a b -> le b a -> a = b) ->
  forall l1 l2,
    StronglySorted le l1 -> StronglySorted le l2 -> Permutation l1 l2 ->
    l1 = l2.
Proof.
  intros Hanti. induction l1 as [|a l1 IH]; intros l2 H1 H2 Hperm.
  - apply Permutation_nil in Hperm. now subst.
  - destruct l2 as [|b l2].
    + symmetry in Hperm. apply Permutation_nil in Hperm. discriminate.
    + inversion H1 as [|? ? Hs1 Hall1]; subst.
      inversion H2 as [|? ? Hs2 Hall2]; subst.
      assert (a = b) as ->.
      { assert (Ha : In a (b :: l2))
          by (apply (Permutation_in _ Hperm); now left).
        assert (Hb : In b (a :: l1))
          by (apply (Permutation_in _ (Permutation_sym Hperm)); now left).
        destruct Ha as [Ha|Ha]; [now subst|].
        destruct Hb as [Hb|Hb]; [now subst|].
        rewrite Forall_forall in Hall1, Hall2.
        apply Hanti; auto. }
      f_equal. apply IH; auto. now apply Permutation_cons_inv in Hperm.
Qed.

Lemma Sorted_map {A B} (f : A -> B) (le : B -> B -> Prop) (l : list A) :
  Sorted (fun x y => le (f x) (f y)) l -> Sorted le (List.map f l).
Proof.
  induction 1 as [|x l Hs IH Hhd]; simpl; constructor; auto.
  destruct Hhd; simpl; constructor; auto.
Qed.

(** *** The sort is stable *)

Lemma precedes_In {A} (a b : A) l : precedes a b l -> In a l /\ In b l.
Proof.
  induction l as [|x l IH]; simpl; [intros []|].
  intros [[-> Hb]|H]; [split; auto|]. apply IH in H as [Ha Hb]. auto.
Qed.

Lemma precedes_asym {A} (a b : A) l :
  NoDup l -> precedes a b l -> precedes b a l -> False.
Proof.
  induction 1 as [|x l Hx Hl IH]; simpl; [intros []|].
  intros [[-> Hb]|H1] [[E Ha]|H2]; auto.
  - apply precedes_In in H2 as [_ Ha]. auto.
  - subst x. apply precedes_In in H1 as [_ Hb]. auto.
Qed.

Lemma precedes_total {A} (a b : A) l :
  In a l -> In b l -> a <> b -> precedes a b l \/ precedes b a l.
Proof.
  induction l as [|x l IH]; simpl; [intros []|].
  intros [Ha|Ha] [Hb|Hb] Hne; try congruence; auto.
  destruct (IH Ha Hb Hne); auto.
Qed.

Lemma precedes_sorted {A} (R : A -> A -> Prop) (a b : A) l :
  StronglySorted R l -> precedes a b l -> R a b.
Proof.
  induction 1 as [|x l Hs IH Hall]; simpl; [intros []|].
  intros [[-> Hb]|H]; [|now apply IH].
  rewrite Forall_forall in Hall. now apply Hall.
Qed.

Section Stable.
Context {A : Type} (cmp : A -> A -> Z).

Lemma sort_insert_In (x y : A) l :
  In y (sort_insert cmp x l) <-> y = x \/ In y l.
Proof.
  split.
  - intros H. apply (Permutation_in _ (sort_insert_perm cmp x l)) in H.
    destruct H; auto.
  - intros H.
    apply (Permutation_in _ (Permutation_sym (sort_insert_perm cmp x l))).
    destruct H; [now left | now right].
Qed.

Lemma precedes_sort_insert (a b x : A) l :
  precedes a b l -> precedes a b (sort_insert cmp x l).
Proof.
  induction l as [|y l IH]; simpl; [intros []|].
  intros H. destruct (cmp x y <=? 0); simpl; [now right|].
  destruct H as [[-> Hb]|H]; [left | right; now apply IH].
  split; [reflexivity|]. apply sort_insert_In. now right.
Qed.

Lemma sort_insert_before (x b : A) l :
  In b l -> cmp x b <= 0 -> precedes x b (sort_insert cmp x l).
Proof.
  induction l as [|y l IH]; simpl; [intros []|].
  intros Hb Hle. destruct (cmp x y <=? 0) eqn:E; simpl; [now left|].
  apply Z.leb_gt in E. destruct Hb as [->|Hb]; [lia|].
  right. now apply IH.
Qed.

(** An element that stands before another and may stand before it keeps
    its place before it. *)
Lemma array_sort_stable (a b : A) l :
  precedes a b l -> cmp a b <= 0 -> precedes a b (array_sort cmp l).
Proof.
  induction l as [|x l IH]; simpl; [intros []|].
  intros [[-> Hb]|H] Hle.
  - apply sort_insert_before; [|exact Hle]. now apply array_sort_In.
  - now apply precedes_sort_insert, IH.
Qed.

Lemma array_sort_map {B} (f : B -> A) (l : list B) :
  List.map f (array_sort (fun x y => cmp (f x) (f y)) l) =
  array_sort cmp (List.map f l).
Proof.
  induction l as [|x l IH]; simpl; [reflexivity|]. rewrite <- IH.
  generalize (array_sort (fun x y => cmp (f x) (f y)) l). clear IH.
  intros s. induction s as [|y s IH]; simpl; [reflexivity|].
  destruct (cmp (f x) (f y) <=? 0); simpl; [reflexivity|]. now rewrite IH.
Qed.
End Stable.

(** ** The grouper *)

Lemma filter_nil_existsb {A} (f : A -> bool) (l : list A) :
  existsb f l = false -> filter f l = [].
Proof.
  induction l as [|x l IH]; simpl; [reflexivity|].
  destruct (f x); simpl; [discriminate | exact IH].
Qed.

Lemma filter_cons_existsb {A} (f : A -> bool) (l : list A) :
  existsb f l = true -> exists x l', filter f l = x :: l'.
Proof.
  induction l as [|x l IH]; simpl; [discriminate|].
  destruct (f x); simpl; [eauto | exact IH].
Qed.

Lemma hasRoot_self p : hasRoot (getRootEntry p) p = true.
Proof. apply jsstring_eqb_refl. Qed.

Lemma hasRoot_other k p : getRootEntry p <> k -> hasRoot k p = false.
Proof. intros H. now apply jsstring_eqb_neq. Qed.

Lemma GroupsInv_init : GroupsInv [] [] [].
Proof. split; [constructor | reflexivity]. Qed.

Lemma GroupsInv_path m ps p :
  GroupsInv m [] ps -> GroupsInv (groupPathStep m p) [] (ps ++ [p]).
Proof.
  intros [Hnd Hget]. unfold groupPathStep.
  set (r := getRootEntry p).
  assert (Hkeys : NoDup (List.map fst
            (match map_get r m with
             | Some existing => map_set r (pushPath existing p) m
             | None => map_set r {| rootEntry := r; processedFiles := [];
                                    allFilePaths := [p] |} m
             end))).
  { destruct (map_get r m); now apply map_set_NoDup. }
  split; [exact Hkeys|]. intros k.
  unfold mentioned, expectedGroup, filesUnder in *. simpl in *.
  rewrite existsb_app, filter_app. simpl.
  destruct (jsstring_eq_dec r k) as [<-|Hne].
  - pose proof (hasRoot_self p) as Hs. fold r in Hs.
    rewrite Hs, !orb_true_r. simpl.
    specialize (Hget r). rewrite orb_false_r in *.
    destruct (existsb (hasRoot r) ps) eqn:E; rewrite Hget.
    + rewrite map_get_set_same. reflexivity.
    + rewrite map_get_set_same. now rewrite (filter_nil_existsb _ _ E).
  - rewrite (hasRoot_other _ _ Hne), !orb_false_r, app_nil_r.
    transitivity (map_get k m);
      [destruct (map_get r m); now apply map_get_set_other|].
    now rewrite Hget, orb_false_r.
Qed.

Lemma GroupsInv_file m fs ps f :
  GroupsInv m fs ps -> GroupsInv (groupFileStep m f) (fs ++ [f]) ps.
Proof.
  intros [Hnd Hget]. unfold groupFileStep.
  set (r := getRootEntry (path f)).
  split; [destruct (map_get r m); now apply map_set_NoDup|]. intros k.
  unfold mentioned, expectedGroup, filesUnder in *.
  rewrite existsb_app, filter_app. simpl.
  destruct (jsstring_eq_dec r k) as [<-|Hne].
  - pose proof (hasRoot_self (path f)) as Hs. fold r in Hs.
    rewrite Hs, !orb_true_r. simpl.
    specialize (Hget r).
    destruct (existsb (hasRoot r) ps) eqn:Ep; simpl in Hget.
    + rewrite Hget, map_get_set_same. reflexivity.
    + destruct (existsb (fun f0 => hasRoot r (path f0)) fs) eqn:Ef;
        rewrite Hget, map_get_set_same.
      * destruct (filter_cons_existsb _ _ Ef) as (x & l' & ->). reflexivity.
      * now rewrite (filter_nil_existsb _ _ Ef).
  - rewrite (hasRoot_other _ _ Hne), !orb_false_r, app_nil_r.
    transitivity (map_get k m);
      [destruct (map_get r m); now apply map_get_set_other|].
    now rewrite Hget.
Qed.

Lemma GroupsInv_paths ps : GroupsInv (fold_left groupPathStep ps []) [] ps.
Proof.
  induction ps as [|p ps IH] using rev_ind; [apply GroupsInv_init|].
  rewrite fold_left_app. simpl. now apply GroupsInv_path.
Qed.

Lemma GroupsInv_files m fs ps :
  GroupsInv m [] ps -> GroupsInv (fold_left groupFileStep fs m) fs ps.
Proof.
  intros H0. induction fs as [|f fs IH] using rev_ind; [exact H0|].
  rewrite fold_left_app. simpl. now apply GroupsInv_file.
Qed.

Lemma GroupsInv_final fs ps :
  GroupsInv (fold_left groupFileStep fs (fold_left groupPathStep ps [])) fs ps.
Proof. apply GroupsInv_files, GroupsInv_paths. Qed.

Lemma mentioned_iff r fs ps :
  mentioned r fs ps = true <->
  In r (List.map getRootEntry ps) \/
  In r (List.map getRootEntry (List.map path fs)).
Proof.
  unfold mentioned. rewrite orb_true_iff, !existsb_exists, map_map, !in_map_iff.
  unfold hasRoot. split.
  - intros [(p & Hin & E)|(f & Hin & E)]; apply jsstring_eqb_eq in E; eauto.
  - intros [(p & E & Hin)|(f & E & Hin)]; [left | right];
      eexists; (split; [eassumption|]); now apply jsstring_eqb_eq.
Qed.

Lemma GroupsInv_entry m fs ps k g :
  GroupsInv m fs ps -> In (k, g) m ->
  g = expectedGroup fs ps k /\ mentioned k fs ps = true.
Proof.
  intros [Hnd Hget] Hin. pose proof (map_get_In _ _ _ Hnd Hin) as E.
  rewrite Hget in E. destruct (mentioned k fs ps); [|discriminate].
  split; congruence.
Qed.

Lemma GroupsInv_roots m fs ps :
  GroupsInv m fs ps -> List.map rootEntry (map_values m) = List.map fst m.
Proof.
  intros Hinv. unfold map_values. rewrite map_map. apply map_ext_in.
  intros [k g] Hin.
  destruct (GroupsInv_entry _ _ _ _ _ Hinv Hin) as [-> _]. reflexivity.
Qed.

Lemma GroupsInv_value m fs ps g :
  GroupsInv m fs ps -> In g (map_values m) ->
  g = expectedGroup fs ps (rootEntry g) /\ mentioned (rootEntry g) fs ps = true.
Proof.
  intros Hinv Hin. apply in_map_iff in Hin as ([k g'] & <- & Hin).
  destruct (GroupsInv_entry _ _ _ _ _ Hinv Hin) as [E Hm]. simpl.
  rewrite E at 2 3. simpl. now split.
Qed.

(** The keys of the map are entered in order of first occurrence. *)
Lemma noteRoot_keys {V} (m : JsMap V) (r : jsstring) (v : V) :
  List.map fst (map_set r v m) = noteRoot (List.map fst m) r.
Proof.
  rewrite map_keys_set. unfold noteRoot.
  destruct (map_get r m) eqn:E.
  - assert (Hin : In r (List.map fst m)).
    { destruct (in_dec jsstring_eq_dec r (List.map fst m)) as [H|H];
        [exact H|]. apply map_get_None in H. congruence. }
    assert (existsb (jsstring_eqb r) (List.map fst m) = true) as ->;
      [|reflexivity].
    apply existsb_exists. exists r. split; [exact Hin|].
    apply jsstring_eqb_refl.
  - apply map_get_None in E.
    destruct (existsb (jsstring_eqb r) (List.map fst m)) eqn:Ex;
      [|reflexivity].
    apply existsb_exists in Ex as (k & Hk & Ek).
    apply jsstring_eqb_eq in Ek. subst k. contradiction.
Qed.

Lemma keys_pathLoop paths :
  forall m,
    List.map fst (fold_left groupPathStep paths m) =
    fold_left noteRoot (List.map getRootEntry paths) (List.map fst m).
Proof.
  induction paths as [|p paths IH]; intros m; simpl; [reflexivity|].
  rewrite IH. f_equal. unfold groupPathStep.
  destruct (map_get (getRootEntry p) m); apply noteRoot_keys.
Qed.

Lemma keys_fileLoop files :
  forall m,
    List.map fst (fold_left groupFileStep files m) =
    fold_left noteRoot (List.map getRootEntry (List.map path files))
      (List.map fst m).
Proof.
  induction files as [|f files IH]; intros m; simpl; [reflexivity|].
  rewrite IH. f_equal. unfold groupFileStep.
  destruct (map_get (getRootEntry (path f)) m); apply noteRoot_keys.
Qed.

Lemma keys_final files paths :
  List.map fst (fold_left groupFileStep files
                  (fold_left groupPathStep paths [])) =
  rootsInOrder files paths.
Proof.
  unfold rootsInOrder. now rewrite keys_fileLoop, keys_pathLoop, fold_left_app.
Qed.

Section GrouperProperties.
Variable localeCompare : jsstring -> jsstring -> Z.

Local Abbreviation build := (buildOutputSplitGroups localeCompare).

(** The root entries come out as the sort of the keys of the map. *)
Lemma build_stable files paths :
  List.map rootEntry (build files paths) =
  array_sort localeCompare (rootsInOrder files paths).
Proof.
  unfold buildOutputSplitGroups, compareGroups.
  rewrite (array_sort_map localeCompare rootEntry).
  now rewrite (GroupsInv_roots _ _ _ (GroupsInv_final files paths)),
    keys_final.
Qed.

Lemma build_perm files paths :
  Permutation (build files paths)
    (map_values (fold_left groupFileStep files
                   (fold_left groupPathStep paths []))).
Proof. apply array_sort_perm. Qed.

Lemma build_NoDup files paths : NoDup (List.map rootEntry (build files paths)).
Proof.
  eapply Permutation_NoDup.
  - apply Permutation_map. symmetry. apply build_perm.
  - rewrite (GroupsInv_roots _ _ _ (GroupsInv_final files paths)).
    apply GroupsInv_final.
Qed.

Lemma build_In files paths g :
  In g (build files paths) ->
  g = expectedGroup files paths (rootEntry g) /\
  mentioned (rootEntry g) files paths = true.
Proof.
  intros Hin. apply (Permutation_in _ (build_perm files paths)) in Hin.
  exact (GroupsInv_value _ _ _ _ (GroupsInv_final files paths) Hin).
Qed.

Lemma build_roots files paths r :
  In r (List.map rootEntry (build files paths)) <->
  mentioned r files paths = true.
Proof.
  pose proof (GroupsInv_final files paths) as Hinv.
  split.
  - intros Hin. apply in_map_iff in Hin as (g & <- & Hin).
    now apply build_In.
  - intros Hm.
    apply (Permutation_in (l := List.map rootEntry (map_values
             (fold_left groupFileStep files
                (fold_left groupPathStep paths []))))).
    + apply Permutation_map. symmetry. apply build_perm.
    + rewrite (GroupsInv_roots _ _ _ Hinv).
      destruct (in_dec jsstring_eq_dec r
                  (List.map fst (fold_left groupFileStep files
                                   (fold_left groupPathStep paths []))))
        as [Hin|Hnotin]; [assumption|].
      apply map_get_None in Hnotin. destruct Hinv as [_ Hget].
      rewrite Hget, Hm in Hnotin. discriminate.
Qed.

(** C7 (as amended): the grouper returns exactly one group per root entry
    occurring among the known paths or the selected files; a group holds
    the selected files under its root entry, in input order, and the known
    paths under it, in input order -- or, when no known path lies under
    it, the path of its first selected file alone.  When every selected
    path is a known path, each group carries exactly the matching known
    paths.  The groups are sorted by [localeCompare] of their root entries
    whenever that comparison is total; when it is also transitive and
    compares only identical strings as equal, the sequence of root entries
    is the same for every reordering of the two input lists.  The sort is
    stable: the root entries come out as the sort of the order in which
    they first occur (known paths before selected files), and for a total
    and transitive comparison one root entry stands before another exactly
    when it compares as not greater and, should the two compare as equal,
    occurs first. *)
Theorem buildOutputSplitGroups_contract
  (files : list ProcessedFile) (paths : list jsstring) :
  let gs := buildOutputSplitGroups localeCompare files paths in
  NoDup (List.map rootEntry gs) /\
  (forall r, In r (List.map rootEntry gs) <->
             In r (List.map getRootEntry paths) \/
             In r (List.map getRootEntry (List.map path files))) /\
  (forall g, In g gs -> g = expectedGroup files paths (rootEntry g)) /\
  (incl (List.map path files) paths ->
   forall g, In g gs ->
     processedFiles g = filesUnder (rootEntry g) files /\
     allFilePaths g = filter (hasRoot (rootEntry g)) paths) /\
  (totalCompare localeCompare ->
   Sorted (before (compareGroups localeCompare)) gs) /\
  (totalCompare localeCompare -> transitiveCompare localeCompare ->
   separatingCompare localeCompare ->
   forall files' paths',
     Permutation files files' -> Permutation paths paths' ->
     List.map rootEntry
       (buildOutputSplitGroups localeCompare files' paths') =
     List.map rootEntry gs) /\
  List.map rootEntry gs =
    array_sort localeCompare (rootsInOrder files paths) /\
  (totalCompare localeCompare -> transitiveCompare localeCompare ->
   forall r1 r2,
     precedes r1 r2 (List.map rootEntry gs) <->
     In r1 (List.map rootEntry gs) /\ In r2 (List.map rootEntry gs) /\
     r1 <> r2 /\
     localeCompare r1 r2 <= 0 /\
     (localeCompare r2 r1 <= 0 ->
      precedes r1 r2 (rootsInOrder files paths))).
Proof.
  cbv zeta. split; [|split; [|split; [|split; [|split; [|split; [|split]]]]]].
  - apply build_NoDup.
  - intros r. rewrite <- mentioned_iff. apply build_roots.
  - intros g Hin. now apply build_In.
  - intros Hincl g Hin. apply build_In in Hin as [E Hm]. split.
    + rewrite E at 1. reflexivity.
    + rewrite E at 1. simpl.
      destruct (existsb (hasRoot (rootEntry g)) paths) eqn:Ep;
        [reflexivity|].
      exfalso. unfold mentioned in Hm. rewrite Ep in Hm. simpl in Hm.
      apply existsb_exists in Hm as (f & Hf & Hr).
      assert (existsb (hasRoot (rootEntry g)) paths = true); [|congruence].
      apply existsb_exists. exists (path f). split; [|assumption].
      apply Hincl. now apply in_map.
  - intros Htot. apply array_sort_sorted.
    intros x y. apply Htot.
  - intros Htot Htrans Hsep files' paths' Hf Hp.
    assert (Hsorted : forall fs ps,
               StronglySorted (before localeCompare)
                 (List.map rootEntry (build fs ps))).
    { intros fs ps. apply Sorted_StronglySorted.
      - intros x y z. apply Htrans.
      - apply (Sorted_map rootEntry (before localeCompare)).
        apply array_sort_sorted. intros x y. apply Htot. }
    apply (StronglySorted_perm_eq (before localeCompare) Hsep); auto.
    apply NoDup_Permutation; try apply build_NoDup.
    intros r. rewrite !build_roots, !mentioned_iff.
    split; intros [Hin|Hin]; [left | right | left | right];
      (eapply Permutation_in; [|exact Hin]);
      repeat apply Permutation_map; auto using Permutation_sym.
  - apply build_stable.
  - intros Htot Htrans r1 r2.
    pose proof (build_NoDup files paths) as Hnd.
    assert (Hsorted : StronglySorted (before localeCompare)
                        (List.map rootEntry (build files paths))).
    { apply Sorted_StronglySorted.
      - intros x y z. apply Htrans.
      - apply (Sorted_map rootEntry (before localeCompare)).
        apply array_sort_sorted. intros x y. apply Htot. }
    assert (Hins : forall r, In r (rootsInOrder files paths) <->
                             In r (List.map rootEntry (build files paths))).
    { intros r. rewrite build_stable. symmetry. apply array_sort_In. }
    assert (Hstable : forall a b,
               precedes a b (rootsInOrder files paths) ->
               localeCompare a b <= 0 ->
               precedes a b (List.map rootEntry (build files paths))).
    { intros a b Hab Hle. rewrite build_stable.
      now apply array_sort_stable. }
    split.
    + intros H. destruct (precedes_In _ _ _ H) as [H1 H2].
      assert (Hle : localeCompare r1 r2 <= 0)
        by exact (precedes_sorted _ _ _ _ Hsorted H).
      assert (Hne : r1 <> r2).
      { intros ->. exact (precedes_asym _ _ _ Hnd H H). }
      repeat split; auto. intros Hge.
      destruct (precedes_total r1 r2 (rootsInOrder files paths))
        as [Hp|Hp]; auto; try now apply Hins.
      exfalso. exact (precedes_asym _ _ _ Hnd H (Hstable _ _ Hp Hge)).
    + intros (H1 & H2 & Hne & Hle & Htie).
      destruct (precedes_total r1 r2 _ H1 H2 Hne) as [Hp|Hp]; [exact Hp|].
      apply Hstable; [|exact Hle]. apply Htie.
      exact (precedes_sorted _ _ _ _ Hsorted Hp).
Qed.

End GrouperProperties.

(** ** The files of the groups *)

Lemma map_set_absent {V} (k : jsstring) (v : V) (m : JsMap V) :
  map_get k m = None -> map_set k v m = m ++ [(k, v)].
Proof.
  induction m as [|[k' v'] m IH]; simpl; [reflexivity|].
  destruct (jsstring_eqb k k'); [discriminate|].
  intros H. now rewrite IH.
Qed.

Lemma groupFiles_app gs1 gs2 :
  groupFiles (gs1 ++ gs2) = groupFiles gs1 ++ groupFiles gs2.
Proof. apply flat_map_app. Qed.

Lemma groupFiles_set_present m r existing f :
  map_get r m = Some existing ->
  Permutation (groupFiles (map_values (map_set r (pushFile existing f) m)))
    (groupFiles (map_values m) ++ [f]).
Proof.
  induction m as [|[k v] m IH]; simpl; [discriminate|].
  destruct (jsstring_eqb r k); simpl.
  - intros H. injection H as ->. unfold groupFiles. simpl.
    rewrite <- !app_assoc. apply Permutation_app_head.
    apply Permutation_app_comm.
  - intros H. unfold groupFiles in *. simpl. rewrite <- app_assoc.
    apply Permutation_app_head. now apply IH.
Qed.

Lemma groupFiles_fileStep m f :
  Permutation (groupFiles (map_values (groupFileStep m f)))
    (groupFiles (map_values m) ++ [f]).
Proof.
  unfold groupFileStep. destruct (map_get _ m) as [existing|] eqn:E.
  - now apply groupFiles_set_present.
  - rewrite (map_set_absent _ _ _ E). unfold map_values.
    rewrite map_app, groupFiles_app. simpl. unfold groupFiles at 2. simpl.
    reflexivity.
Qed.

Lemma groupFiles_fileLoop fs m :
  Permutation (groupFiles (map_values (fold_left groupFileStep fs m)))
    (groupFiles (map_values m) ++ fs).
Proof.
  induction fs as [|f fs IH] using rev_ind.
  - simpl. now rewrite app_nil_r.
  - rewrite fold_left_app. simpl. rewrite groupFiles_fileStep, IH.
    now rewrite <- app_assoc.
Qed.

Lemma groupFiles_pathLoop ps :
  groupFiles (map_values (fold_left groupPathStep ps [])) = [].
Proof.
  pose proof (GroupsInv_paths ps) as Hinv.
  assert (H : forall g, In g (map_values (fold_left groupPathStep ps [])) ->
                        processedFiles g = []).
  { intros g Hin. destruct (GroupsInv_value _ _ _ _ Hinv Hin) as [-> _].
    reflexivity. }
  induction (map_values (fold_left groupPathStep ps [])) as [|g gs IH];
    [reflexivity|].
  unfold groupFiles in *. simpl. rewrite (H g (or_introl eq_refl)). simpl.
  apply IH. intros g' Hg'. apply H. now right.
Qed.

Lemma filesUnder_app r l1 l2 :
  filesUnder r (l1 ++ l2) = filesUnder r l1 ++ filesUnder r l2.
Proof. apply filter_app. Qed.

Lemma filesUnder_filesUnder r k files :
  filesUnder r (filesUnder k files) =
  if jsstring_eqb k r then filesUnder r files else [].
Proof.
  unfold filesUnder, hasRoot. induction files as [|f files IH]; simpl.
  - now destruct (jsstring_eqb k r).
  - destruct (jsstring_eqb (getRootEntry (path f)) k) eqn:Ek; simpl.
    + apply jsstring_eqb_eq in Ek. rewrite Ek.
      destruct (jsstring_eqb k r) eqn:Er; simpl; rewrite IH;
        reflexivity.
    + destruct (jsstring_eqb k r) eqn:Er; [|exact IH].
      apply jsstring_eqb_eq in Er. subst r. rewrite Ek. exact IH.
Qed.

(** Filtering the files of groups with distinct root entries by a root
    entry yields the files of the group of that root entry. *)
Lemma filesUnder_groupFiles files r gs :
  NoDup (List.map rootEntry gs) ->
  (forall g, In g gs -> processedFiles g = filesUnder (rootEntry g) files) ->
  filesUnder r (groupFiles gs) =
  if in_dec jsstring_eq_dec r (List.map rootEntry gs)
  then filesUnder r files else [].
Proof.
  induction gs as [|g gs IH]; simpl; intros Hnd Hg; [reflexivity|].
  inversion Hnd as [|? ? Hnotin Hnd']; subst.
  unfold groupFiles. simpl. rewrite filesUnder_app.
  fold (groupFiles gs). rewrite IH by auto.
  rewrite (Hg g (or_introl eq_refl)), filesUnder_filesUnder.
  destruct (jsstring_eq_dec (rootEntry g) r) as [E|E].
  - subst r. rewrite jsstring_eqb_refl.
    destruct (in_dec jsstring_eq_dec (rootEntry g) (List.map rootEntry gs));
      [contradiction | apply app_nil_r].
  - rewrite (proj2 (jsstring_eqb_neq _ _) E). simpl.
    destruct (in_dec jsstring_eq_dec r (List.map rootEntry gs));
      reflexivity.
Qed.

Section GroupFiles.
Variable localeCompare : jsstring -> jsstring -> Z.

(** The selected files, regrouped by root entry in the order of the sorted
    groups: every file once, the files of one root entry in input order. *)
Lemma build_files files paths :
  let gs := buildOutputSplitGroups localeCompare files paths in
  Permutation (groupFiles gs) files /\
  forall r, filesUnder r (groupFiles gs) = filesUnder r files.
Proof.
  cbv zeta. split.
  - unfold groupFiles. rewrite (array_sort_perm _ _
      : Permutation (buildOutputSplitGroups localeCompare files paths) _).
    fold (groupFiles (map_values (fold_left groupFileStep files
                                    (fold_left groupPathStep paths [])))).
    rewrite groupFiles_fileLoop, groupFiles_pathLoop. reflexivity.
  - intros r.
    rewrite (filesUnder_groupFiles files r).
    + destruct (in_dec _ _ _) as [Hin|Hnotin]; [reflexivity|].
      symmetry. apply filter_nil_existsb.
      destruct (existsb _ files) eqn:E; [|reflexivity].
      exfalso. apply Hnotin. apply build_roots. unfold mentioned.
      rewrite E. apply orb_true_r.
    + apply build_NoDup.
    + intros g Hin. apply build_In in Hin as [E _]. rewrite E at 1.
      reflexivity.
Qed.
End GroupFiles.

(** ** Root entries *)

Lemma split_first (sep : CodeUnit) (s : jsstring) :
  exists first rest,
    split sep s = first :: rest /\
    ~ In sep first /\
    (s = first \/ exists tl, s = first ++ sep :: tl).
Proof.
  induction s as [|c s (first & rest & E & Hno & Hs)]; simpl.
  - exists [], []. repeat split; auto.
  - destruct (N.eqb c sep) eqn:Ec.
    + apply N.eqb_eq in Ec. subst c. exists [], (split sep s).
      repeat split; [auto|]. right. now exists s.
    + apply N.eqb_neq in Ec. rewrite E. exists (c :: first), rest.
      repeat split.
      * intros [H|H]; [congruence | contradiction].
      * destruct Hs as [->|(tl & ->)]; [now left | right; now exists tl].
Qed.

(** C10: [getRootEntry] returns the first ['/']-delimited segment of the
    path with every ['\'] replaced by ['/']; when that segment is empty --
    exactly when the path is empty or begins with a separator -- it returns
    the whole normalized path instead. *)
Theorem getRootEntry_first_segment (p : jsstring) :
  let normalized := replaceAll win32_sep posix_sep p in
  normalized =
    List.map (fun c => if N.eqb c win32_sep then posix_sep else c) p /\
  exists first rest,
    split posix_sep normalized = first :: rest /\
    ~ In posix_sep first /\
    (normalized = first \/ exists tl, normalized = first ++ posix_sep :: tl) /\
    (first <> [] -> getRootEntry p = first) /\
    (first = [] -> getRootEntry p = normalized) /\
    (first = [] <->
     p = [] \/
     exists c tl, p = c :: tl /\ (c = posix_sep \/ c = win32_sep)).
Proof.
  cbv zeta. split; [reflexivity|].
  destruct (split_first posix_sep (replaceAll win32_sep posix_sep p))
    as (first & rest & E & Hno & Hs).
  exists first, rest. unfold getRootEntry. rewrite E.
  repeat split; try assumption.
  - intros Hne. destruct first; [congruence | reflexivity].
  - intros ->. reflexivity.
  - intros ->. destruct p as [|c tl]; [now left | right].
    exists c, tl. split; [reflexivity|].
    simpl in Hs. destruct (N.eqb c win32_sep) eqn:Ec.
    + right. now apply N.eqb_eq.
    + left. destruct Hs as [Hs|(tl' & Hs)]; [discriminate|].
      simpl in Hs. congruence.
  - intros [->|(c & tl & -> & Hc)].
    + simpl in E. congruence.
    + simpl in E.
      assert ((if N.eqb c win32_sep then posix_sep else c) = posix_sep) as Hn.
      { destruct Hc as [->| ->]; reflexivity. }
      rewrite Hn in E. simpl in E. congruence.
Qed.

(** ** Code-unit comparison is a consistent comparison *)

Lemma codeUnitCompare_total : totalCompare codeUnitCompare.
Proof.
  intros a. induction a as [|x a IH]; intros [|y b]; simpl; try lia.
  rewrite (N.compare_antisym x y).
  destruct (N.compare x y); simpl; try lia. apply IH.
Qed.

Lemma codeUnitCompare_separating : separatingCompare codeUnitCompare.
Proof.
  intros a. induction a as [|x a IH]; intros [|y b]; simpl; try lia;
    [reflexivity|].
  rewrite (N.compare_antisym x y).
  destruct (N.compare x y) eqn:E; simpl; try lia.
  intros H1 H2. apply N.compare_eq in E. subst y. f_equal. now apply IH.
Qed.

Lemma codeUnitCompare_transitive : transitiveCompare codeUnitCompare.
Proof.
  intros a. induction a as [|x a IH]; intros [|y b] [|z c]; simpl; try lia.
  destruct (N.compare_spec x y) as [Exy|Exy|Exy]; try lia;
    destruct (N.compare_spec y z) as [Eyz|Eyz|Eyz]; try lia; intros H1 H2.
  - subst. rewrite N.compare_refl. now apply (IH b c).
  - subst. now rewrite (proj2 (N.compare_lt_iff _ _) Eyz).
  - subst. now rewrite (proj2 (N.compare_lt_iff _ _) Exy).
  - now rewrite (proj2 (N.compare_lt_iff _ _) (N.lt_trans _ _ _ Exy Eyz)).
Qed.

Lemma lengthCompare_total : totalCompare lengthCompare.
Proof. intros a b. unfold lengthCompare. lia. Qed.

Lemma lengthCompare_transitive : transitiveCompare lengthCompare.
Proof. intros a b c. unfold lengthCompare. lia. Qed.

(** Scenario A under the comparison by code units; and the interleaved
    paths under the comparison by length, where [lib] and [app] compare as
    equal and [lib], which occurs first, comes out first. *)
Lemma buildOutputSplitGroups_contract_witness :
  Sorted (before (compareGroups codeUnitCompare))
    (buildOutputSplitGroups codeUnitCompare scenarioA_files scenarioA_paths) /\
    (forall g,
      In g (buildOutputSplitGroups codeUnitCompare scenarioA_files
              scenarioA_paths) ->
      processedFiles g = filesUnder (rootEntry g) scenarioA_files /\
      allFilePaths g = filter (hasRoot (rootEntry g)) scenarioA_paths) /\
  List.map rootEntry
    (buildOutputSplitGroups codeUnitCompare (rev scenarioA_files)
       (rev scenarioA_paths)) =
  List.map rootEntry
    (buildOutputSplitGroups codeUnitCompare scenarioA_files scenarioA_paths) /\
  precedes (js "lib") (js "app")
    (List.map rootEntry
       (buildOutputSplitGroups lengthCompare interleaved_files
          interleaved_paths)).
Proof.
  destruct (buildOutputSplitGroups_contract codeUnitCompare scenarioA_files
              scenarioA_paths) as (_ & _ & _ & Hsub & Hsorted & Horder & _).
  split; [|split; [|split]].
  - apply Hsorted. exact codeUnitCompare_total.
  - apply Hsub. intros x Hx. exact Hx.
  - apply Horder.
    + exact codeUnitCompare_total.
    + exact codeUnitCompare_transitive.
    + exact codeUnitCompare_separating.
    + apply Permutation_rev.
    + apply Permutation_rev.
  - destruct (buildOutputSplitGroups_contract lengthCompare interleaved_files
                interleaved_paths) as (_ & _ & _ & _ & _ & _ & _ & Hstable).
    apply (Hstable lengthCompare_total lengthCompare_transitive).
    repeat split.
    + vm_compute. auto.
    + vm_compute. auto.
    + discriminate.
    + vm_compute. discriminate.
    + intros _. vm_compute. auto.
Defined.

(** C7, as stated, fails twice.  With no known path under root entry [a],
    the group of [a] carries the path [a/x] of its first selected file, not
    the (empty) matching subset of the known paths.  And the order of the
    groups depends on the order of the input: under any comparison that
    compares the two canonically equivalent root entries as equal, as
    [localeCompare] does, each of the two comes out first when its path
    comes first. *)
Lemma grouper_paths_and_order_counterexample :
  ~ (forall g,
       In g (buildOutputSplitGroups codeUnitCompare unlisted_files []) ->
       allFilePaths g = filter (hasRoot (rootEntry g)) []) /\
  precomposed_root <> decomposed_root /\
  (forall cmp : jsstring -> jsstring -> Z,
      cmp precomposed_root decomposed_root = 0 ->
      cmp decomposed_root precomposed_root = 0 ->
      List.map rootEntry
        (buildOutputSplitGroups cmp [] [precomposed_path; decomposed_path]) =
      [precomposed_root; decomposed_root] /\
      List.map rootEntry
        (buildOutputSplitGroups cmp [] [decomposed_path; precomposed_path]) =
      [decomposed_root; precomposed_root]).
Proof.
  split; [|split].
  - intros H.
    specialize (H {| rootEntry := js "a"; processedFiles := unlisted_files;
                     allFilePaths := [js "a/x"] |}).
    simpl in H. discriminate H. left. reflexivity.
  - discriminate.
  - intros cmp H12 H21. split.
    + assert (E : List.map rootEntry
                    (buildOutputSplitGroups cmp []
                       [precomposed_path; decomposed_path]) =
                  if cmp precomposed_root decomposed_root <=? 0
                  then [precomposed_root; decomposed_root]
                  else [decomposed_root; precomposed_root]).
      { unfold buildOutputSplitGroups, compareGroups. simpl.
        now destruct (cmp _ _ <=? 0). }
      rewrite E, H12. reflexivity.
    + assert (E : List.map rootEntry
                    (buildOutputSplitGroups cmp []
                       [decomposed_path; precomposed_path]) =
                  if cmp decomposed_root precomposed_root <=? 0
                  then [decomposed_root; precomposed_root]
                  else [precomposed_root; decomposed_root]).
      { unfold buildOutputSplitGroups, compareGroups. simpl.
        now destruct (cmp _ _ <=? 0). }
      rewrite E, H21. reflexivity.
Qed.

(** ** The engine *)

Section EngineProperties.
Variables GitDiffResult GitLogResult : Type.
Variables GitOther OutputOther ConfigOther : Type.
Variable ExtError : Type.

Local Abbreviation Call :=
  (RenderCall GitDiffResult GitLogResult GitOther OutputOther ConfigOther).
Local Abbreviation Args :=
  (SplitArgs GitDiffResult GitLogResult GitOther OutputOther ConfigOther).
Local Abbreviation Ev :=
  (Event GitDiffResult GitLogResult GitOther OutputOther ConfigOther).
Local Abbreviation Eff :=
  (M GitDiffResult GitLogResult GitOther OutputOther ConfigOther ExtError).

Variable generateOutput : Call -> outcome ExtError jsstring.
Variable taskRun : TokenCountTask -> outcome ExtError Z.
Variable calculateOutputMetrics : jsstring -> jsstring -> outcome ExtError Z.
Variable localeCompare : jsstring -> jsstring -> Z.
Variable extname : jsstring -> jsstring.

Local Abbreviation byBytes :=
  (generateSplitOutputPartsByBytes generateOutput localeCompare extname).
Local Abbreviation byTokens :=
  (generateSplitOutputPartsByTokens generateOutput taskRun
     calculateOutputMetrics extname).
Local Abbreviation entry :=
  (generateSplitOutputParts generateOutput taskRun calculateOutputMetrics
     localeCompare extname).

(** *** Computations *)

Lemma await_ok {A} (o : outcome ExtError A) (x : A) :
await o = Ok x -> o = Returned x.
Proof. destruct o; simpl; congruence. Qed.

Lemma bind_ok_inv {A B} (m : Eff A) (f : A -> Eff B) t b t' :
  bind m f t = (Ok b, t') ->
  exists x t1, m t = (Ok x, t1) /\ f x t1 = (Ok b, t').
Proof.
  unfold bind. destruct (m t) as [[x|e] t1]; intros H; [eauto | discriminate].
Qed.

Lemma forEach_prefix {A S} (body : S -> A -> Eff S)
  (P : list A -> S -> Prop) :
  (forall done s x t s' t',
      P done s -> body s x t = (Ok s', t') -> P (done ++ [x]) s') ->
  forall l done s t r t',
    P done s -> forEach body l s t = (Ok r, t') -> P (done ++ l) r.
Proof.
  intros Hstep. induction l as [|x l IH]; simpl; intros done s t r t' HP H.
  - unfold ret in H. injection H as <- _. now rewrite app_nil_r.
  - apply bind_ok_inv in H as (s1 & t1 & H1 & H2).
    replace (done ++ x :: l) with ((done ++ [x]) ++ l)
      by (now rewrite <- app_assoc).
    eapply IH; [|exact H2]. eapply Hstep; eassumption.
Qed.

(** *** Traces *)

Section Emits.
Variable P : Ev -> Prop.

Lemma emitsOnly_ret {A} (x : A) : emitsOnly P (ret x : Eff A).
Proof. intros t. exists []. split; [reflexivity | constructor]. Qed.

Lemma emitsOnly_throw {A} e : emitsOnly P (throw e : Eff A).
Proof. intros t. exists []. split; [reflexivity | constructor]. Qed.

Lemma emitsOnly_emit ev :
  P ev -> emitsOnly P (emit ev : Eff unit).
Proof.
  intros H t. exists [ev]. split; [reflexivity | now constructor].
Qed.

Lemma emitsOnly_bind {A B} (m : Eff A) (f : A -> Eff B) :
  emitsOnly P m -> (forall x, emitsOnly P (f x)) -> emitsOnly P (bind m f).
Proof.
  intros Hm Hf t. unfold bind.
  destruct (Hm t) as (n1 & E1 & F1).
  destruct (m t) as [[x|e] t1]; simpl in E1; subst t1.
  - destruct (Hf x (n1 ++ t)) as (n2 & E2 & F2).
    exists (n2 ++ n1). rewrite E2, app_assoc. split; [reflexivity|].
    now apply Forall_app.
  - exists n1. now split.
Qed.

Lemma emitsOnly_forEach {A S} (body : S -> A -> Eff S) l :
  (forall s x, emitsOnly P (body s x)) ->
  forall s, emitsOnly P (forEach body l s).
Proof.
  intros Hb. induction l as [|x l IH]; intros s; simpl.
  - apply emitsOnly_ret.
  - apply emitsOnly_bind; [apply Hb | exact IH].
Qed.

Lemma emitsOnly_tryFinally {A} (body : Eff A) (fin : Eff unit) :
  emitsOnly P body -> emitsOnly P fin -> emitsOnly P (tryFinally body fin).
Proof.
  intros Hb Hf t. unfold tryFinally.
  destruct (Hb t) as (n1 & E1 & F1).
  destruct (body t) as [r t1]; simpl in E1; subst t1.
  destruct (Hf (n1 ++ t)) as (n2 & E2 & F2).
  destruct (fin (n1 ++ t)) as [[u|e] t2]; simpl in E2; subst t2;
    exists (n2 ++ n1); rewrite app_assoc;
    (split; [reflexivity | now apply Forall_app]).
Qed.

Lemma emitsOnly_promiseAll {A B} (f : A -> Eff B) l :
  (forall x, emitsOnly P (f x)) -> emitsOnly P (promiseAll f l).
Proof.
  intros Hf. induction l as [|x l IH]; intros t; simpl.
  - exists []. split; [reflexivity | constructor].
  - destruct (Hf x t) as (n1 & E1 & F1).
    destruct (f x t) as [r t1]; simpl in E1; subst t1.
    destruct (IH (n1 ++ t)) as (n2 & E2 & F2).
    destruct (promiseAll f l (n1 ++ t)) as [rs t2]; simpl in E2; subst t2.
    exists (n2 ++ n1). rewrite app_assoc.
    split; [reflexivity | now apply Forall_app].
Qed.
End Emits.

(** *** Render calls carry the git context on part 1 only *)

Lemma renderCallOf_rule (a : Args) files idx total :
  (1 <= idx)%nat -> gitContextRule a (renderCallOf a files idx total).
Proof.
  intros Hidx. eexists. split; [reflexivity|]. simpl.
  split; [exact Hidx|]. unfold makeChunkConfig. split.
  - intros ->. simpl. auto.
  - intros Hgt. destruct (Nat.eqb idx 1) eqn:E.
    + apply Nat.eqb_eq in E. lia.
    + auto.
Qed.

Lemma emitsOnly_renderGroups (a : Args) n gs idx :
  (1 <= idx)%nat ->
  emitsOnly (eventRule a) (renderGroups generateOutput a n gs idx).
Proof.
  intros Hidx t. eexists [_]. split; [reflexivity|].
  constructor; [|constructor]. now apply renderCallOf_rule.
Qed.

Lemma emitsOnly_progress (a : Args) msg :
  emitsOnly (eventRule a) (progressCallback msg : Eff unit).
Proof. apply emitsOnly_emit. exact I. Qed.

Lemma emitsOnly_byteStep (a : Args) maxBytes n st g :
  emitsOnly (eventRule a) (byteStep generateOutput extname a maxBytes n st g).
Proof.
  unfold byteStep.
  apply emitsOnly_bind; [apply emitsOnly_progress | intros _].
  apply emitsOnly_bind; [apply emitsOnly_renderGroups; lia | intros text].
  destruct (_ <=? _); [apply emitsOnly_ret|].
  destruct (Nat.eqb _ _); [apply emitsOnly_throw|].
  apply emitsOnly_bind; [apply emitsOnly_progress | intros _].
  apply emitsOnly_bind; [apply emitsOnly_renderGroups; lia | intros alone].
  destruct (_ <? _); [apply emitsOnly_throw | apply emitsOnly_ret].
Qed.

Lemma emitsOnly_byBytes (a : Args) maxBytes :
  emitsOnly (eventRule a) (byBytes a maxBytes).
Proof.
  unfold generateSplitOutputPartsByBytes.
  destruct (Nat.eqb _ _); [apply emitsOnly_ret|].
  apply emitsOnly_bind; [|intros st; apply emitsOnly_ret].
  apply emitsOnly_forEach. intros s x. apply emitsOnly_byteStep.
Qed.

Lemma emitsOnly_tokenPart (a : Args) maxTokens total i files :
  emitsOnly (eventRule a)
    (tokenPart generateOutput calculateOutputMetrics extname a maxTokens
       total i files).
Proof.
  unfold tokenPart. apply emitsOnly_bind.
  - intros t. eexists [_]. split; [reflexivity|].
    constructor; [|constructor].
    apply (renderCallOf_rule a files (i + 1) total). lia.
  - intros text. apply emitsOnly_bind.
    + intros t. eexists [_]. split; [reflexivity|]. now repeat constructor.
    + intros count. destruct (_ && _);
        [apply emitsOnly_throw | apply emitsOnly_ret].
Qed.

Lemma emitsOnly_tokenLoop (a : Args) maxTokens total batches :
  forall i acc,
    emitsOnly (eventRule a)
      (tokenLoop generateOutput calculateOutputMetrics extname a maxTokens
         total batches i acc).
Proof.
  induction batches as [|files rest IH]; intros i acc; simpl.
  - apply emitsOnly_ret.
  - apply emitsOnly_bind; [apply emitsOnly_tokenPart | intros p; apply IH].
Qed.

Lemma emitsOnly_byTokens (a : Args) maxTokens :
  emitsOnly (eventRule a) (byTokens a maxTokens).
Proof.
  unfold generateSplitOutputPartsByTokens.
  apply emitsOnly_bind; [now apply emitsOnly_emit | intros _].
  apply emitsOnly_tryFinally; [|now apply emitsOnly_emit].
  apply emitsOnly_bind; [apply emitsOnly_progress | intros _].
  apply emitsOnly_bind.
  - apply emitsOnly_promiseAll. intros f. unfold countFile.
    apply emitsOnly_bind; [|intros c; apply emitsOnly_ret].
    intros t. eexists [_]. split; [reflexivity|]. now repeat constructor.
  - intros counts. apply emitsOnly_tokenLoop.
Qed.

Lemma emitsOnly_entry (a : Args) maxBytes maxTokens :
  emitsOnly (eventRule a) (entry a maxBytes maxTokens).
Proof.
  unfold generateSplitOutputParts.
  apply emitsOnly_bind.
  { destruct maxBytes as [n|]; [destruct (invalidBudget n)|];
      first [apply emitsOnly_throw | apply emitsOnly_ret]. }
  intros _. apply emitsOnly_bind.
  { destruct maxTokens as [n|]; [destruct (invalidBudget n)|];
      first [apply emitsOnly_throw | apply emitsOnly_ret]. }
  intros _. destruct maxTokens as [n|]; [apply emitsOnly_byTokens|].
  destruct maxBytes as [n|]; [apply emitsOnly_byBytes | apply emitsOnly_ret].
Qed.

(** C9: [renderFiles] calls the renderer once, with the base configuration
    and the caller's diff and log data when the part index is 1, and
    otherwise with no diff or log data and a configuration that differs
    from the base one in [includeDiffs] and [includeLogs] only, both
    false; and every renderer call of a run of the entry point has a part
    number from 1 on and follows this rule for its part number. *)
Theorem render_git_context
  (a : Args) (maxBytes maxTokens : option JsNumber)
  (t : list Ev) :
  (forall files paths partIndex dirs base diff log info t0,
      let call :=
        {| rcRootDirs := dirs;
           rcConfig := if Nat.eqb partIndex 1 then base
                       else withoutGitContext base;
           rcFiles := files;
           rcAllFilePaths := paths;
           rcGitDiff := if Nat.eqb partIndex 1 then diff else None;
           rcGitLog := if Nat.eqb partIndex 1 then log else None;
           rcSplitInfo := info |} in
      renderFiles generateOutput files paths partIndex dirs base diff log
        info t0 =
          (await (generateOutput call), EvGenerateOutput call :: t0)) /\
  (forall c : RepomixConfigMerged GitOther OutputOther ConfigOther,
      includeDiffs (git (output (withoutGitContext c))) = false /\
      includeLogs (git (output (withoutGitContext c))) = false /\
      gitOther (git (output (withoutGitContext c))) =
        gitOther (git (output c)) /\
      outFilePath (output (withoutGitContext c)) = outFilePath (output c) /\
      outputOther (output (withoutGitContext c)) = outputOther (output c) /\
      tokenCountEncoding (withoutGitContext c) = tokenCountEncoding c /\
      configOther (withoutGitContext c) = configOther c) /\
  exists new,
    snd (entry a maxBytes maxTokens t) = new ++ t /\
    forall call, In (EvGenerateOutput call) new -> gitContextRule a call.
Proof.
  split; [|split].
  - intros. unfold renderFiles, callGenerateOutput, makeChunkConfig.
    subst call. destruct (Nat.eqb partIndex 1); reflexivity.
  - intros c. repeat split.
  - destruct (emitsOnly_entry a maxBytes maxTokens t) as (new & E & F).
    exists new. split; [exact E|]. intros call Hin.
    rewrite Forall_forall in F. exact (F _ Hin).
Qed.

(** *** Validation of the budgets *)

Lemma invalidBudget_false n :
  invalidBudget n = false <-> positiveSafeInteger n.
Proof.
  unfold invalidBudget, positiveSafeInteger. destruct n as [z|]; simpl.
  - rewrite orb_false_iff, negb_false_iff, andb_true_iff.
    rewrite !Z.leb_le, Z.leb_gt. split.
    + intros [[H1 H2] H3]. exists z. split; [reflexivity | lia].
    + intros (z' & E & H). injection E as <-. unfold MAX_SAFE_INTEGER in *.
      lia.
  - split; [discriminate | intros (z & E & _); discriminate].
Qed.

Lemma invalidBudget_true n :
  invalidBudget n = true <-> ~ positiveSafeInteger n.
Proof.
  rewrite <- invalidBudget_false. destruct (invalidBudget n); split;
    congruence.
Qed.

(** C8: a supplied byte or token budget that is not a positive safe
    integer makes the entry point throw at once, the trace of renderer and
    tokenizer calls left as it was; and with neither budget the entry
    point returns the empty list, the trace again untouched. *)
Theorem invalid_budget_rejected_before_any_work
  (a : Args) (maxBytes maxTokens : option JsNumber) (t : list Ev) :
  (forall n,
      maxBytes = Some n \/ maxTokens = Some n ->
      ~ positiveSafeInteger n ->
      exists n',
        ~ positiveSafeInteger n' /\
        (maxBytes = Some n' /\
         entry a maxBytes maxTokens t = (Throw (InvalidMaxBytesPerPart n'), t)
         \/
         maxTokens = Some n' /\
         entry a maxBytes maxTokens t =
           (Throw (InvalidMaxTokensPerPart n'), t))) /\
  (maxBytes = None -> maxTokens = None ->
   entry a maxBytes maxTokens t = (Ok [], t)).
Proof.
  split.
  - intros n Hsup Hbad. unfold generateSplitOutputParts, bind.
    destruct maxBytes as [b|].
    + destruct (invalidBudget b) eqn:Eb.
      * exists b. split; [now apply invalidBudget_true|]. left.
        split; reflexivity.
      * destruct Hsup as [H|H].
        { injection H as ->. apply invalidBudget_true in Hbad. congruence. }
        subst maxTokens. apply invalidBudget_true in Hbad.
        exists n. split; [now apply invalidBudget_true|]. right.
        simpl. rewrite Hbad. split; reflexivity.
    + destruct Hsup as [H|H]; [discriminate|]. subst maxTokens.
      exists n. split; [exact Hbad|]. right.
      apply invalidBudget_true in Hbad. simpl. rewrite Hbad.
      split; reflexivity.
  - intros -> ->. reflexivity.
Qed.

(** *** The byte splitter *)

Lemma renderGroups_run (a : Args) n gs idx t :
  renderGroups generateOutput a n gs idx t =
  (trial generateOutput a n gs idx,
   EvGenerateOutput (renderCallOf a (groupFiles gs) idx n) :: t).
Proof. reflexivity. Qed.

(** The two ways a round of the loop can complete. *)
Lemma byteStep_ok (a : Args) maxBytes n st g t st' t' :
  byteStep generateOutput extname a maxBytes n st g t = (Ok st', t') ->
  (exists text,
      trial generateOutput a n (currentGroups st ++ [g])
        (S (length (parts st))) = Ok text /\
      getUtf8ByteLength text <= maxBytes /\
      st' = {| parts := parts st;
               currentGroups := currentGroups st ++ [g];
               currentContent := text;
               currentBytes := getUtf8ByteLength text |}) \/
  (exists alone,
      currentGroups st <> [] /\
      trial generateOutput a n [g] (S (S (length (parts st)))) = Ok alone /\
      getUtf8ByteLength alone <= maxBytes /\
      st' = {| parts := parts st ++
                        [closePart extname a st (S (length (parts st)))];
               currentGroups := [g];
               currentContent := alone;
               currentBytes := getUtf8ByteLength alone |}).
Proof.
  unfold byteStep, bind, progressCallback, emit. rewrite renderGroups_run.
  rewrite Nat.add_1_r.
  destruct (trial generateOutput a n (currentGroups st ++ [g])
              (S (length (parts st)))) as [text|e] eqn:Et; [|discriminate].
  destruct (getUtf8ByteLength text <=? maxBytes) eqn:Ele.
  - intros H. injection H as <- _. left. exists text.
    apply Z.leb_le in Ele. auto.
  - destruct (Nat.eqb (length (currentGroups st)) 0) eqn:Elen;
      [discriminate|].
    rewrite renderGroups_run, length_app, Nat.add_1_r. simpl.
    rewrite Nat.add_1_r.
    destruct (trial generateOutput a n [g] (S (S (length (parts st)))))
      as [alone|e] eqn:Ea; [|discriminate].
    destruct (maxBytes <? getUtf8ByteLength alone) eqn:Elt; [discriminate|].
    intros H. injection H as <- _. right. exists alone.
    apply Z.ltb_ge in Elt. apply Nat.eqb_neq in Elen.
    repeat split; auto. intros E. now rewrite E in Elen.
Qed.

Lemma ByteInv_init (a : Args) maxBytes n :
  ByteInv generateOutput a maxBytes n [] byteInit.
Proof.
  unfold ByteInv. simpl. repeat split; auto; congruence.
Qed.

Lemma ByteInv_step (a : Args) maxBytes n done st g t st' t' :
  ByteInv generateOutput a maxBytes n done st ->
  byteStep generateOutput extname a maxBytes n st g t = (Ok st', t') ->
  ByteInv generateOutput a maxBytes n (done ++ [g]) st'.
Proof.
  intros (Hcover & Hparts & Hidx & Hcur) Hstep.
  apply byteStep_ok in Hstep
    as [(text & Et & Hle & ->)|(alone & Hne & Ea & Hle & ->)];
    unfold ByteInv; simpl.
  - repeat split; auto.
    now rewrite <- Hcover, app_assoc.
  - destruct (Hcur Hne) as (Hb & Hb' & Hr).
    rewrite flat_map_app, length_app, map_app, seq_app, Hidx. simpl.
    rewrite app_nil_r, Nat.add_1_r.
    unfold partGroups at 2. simpl.
    repeat split; auto.
    + now rewrite <- Hcover.
    + apply Forall_app. split; [assumption|]. constructor; [|constructor].
      unfold bytePartOk, partGroups. simpl. repeat split; auto.
Qed.

Lemma ByteInv_finish (a : Args) maxBytes n done st :
  ByteInv generateOutput a maxBytes n done st ->
  let ps := byteFinish extname a st in
  flat_map partGroups ps = done /\
  Forall (bytePartOk generateOutput a maxBytes n) ps /\
  List.map index ps = seq 1 (length ps).
Proof.
  intros (Hcover & Hparts & Hidx & Hcur). unfold byteFinish.
  destruct (currentGroups st) as [|g gs] eqn:Eg; simpl.
  - rewrite app_nil_r in Hcover. auto.
  - destruct Hcur as (Hb & Hb' & Hr); [congruence|].
    rewrite flat_map_app, length_app, map_app, seq_app, Hidx. simpl.
    rewrite app_nil_r, Nat.add_1_r.
    unfold partGroups at 2. simpl. rewrite Eg.
    repeat split; auto.
    apply Forall_app. split; [assumption|]. constructor; [|constructor].
    unfold bytePartOk, partGroups. simpl. rewrite Eg.
    repeat split; auto. congruence.
Qed.

(** What a successful byte split returns. *)
Lemma byBytes_ok (a : Args) maxBytes t ps t' :
  byBytes a maxBytes t = (Ok ps, t') ->
  let gs := buildOutputSplitGroups localeCompare (argFiles a) (argPaths a) in
  flat_map partGroups ps = gs /\
  Forall (bytePartOk generateOutput a maxBytes (length gs)) ps /\
  List.map index ps = seq 1 (length ps).
Proof.
  unfold generateSplitOutputPartsByBytes. cbv zeta.
  set (gs := buildOutputSplitGroups localeCompare (argFiles a) (argPaths a)).
  destruct (Nat.eqb (length gs) 0) eqn:E.
  - intros H. injection H as <- _. apply Nat.eqb_eq in E.
    destruct gs; [|discriminate]. simpl. auto.
  - intros H. apply bind_ok_inv in H as (st & t1 & Hloop & Hret).
    injection Hret as <- _.
    apply ByteInv_finish with (done := gs).
    change gs with ([] ++ gs).
    eapply (forEach_prefix _
              (ByteInv generateOutput a maxBytes (length gs)));
      [|apply ByteInv_init | exact Hloop].
    intros done s x t0 s' t0'. apply ByteInv_step.
Qed.

(** C3: in a successful byte-mode split every part's content measures at
    most the byte budget in UTF-8, and the part's [byteLength] field is that
    measure. *)
Theorem byte_parts_within_budget
    (a : Args) (maxBytesPerPart : Z) (t : list Ev)
    (ps : list OutputSplitPart) (t' : list Ev) :
  byBytes a maxBytesPerPart t = (Ok ps, t') ->
  Forall (fun p =>
            byteLength p = getUtf8ByteLength (partContent p) /\
            getUtf8ByteLength (partContent p) <= maxBytesPerPart) ps.
Proof.
  intros H. apply byBytes_ok in H as (_ & Hok & _).
  eapply Forall_impl; [|exact Hok].
  intros p (Hlen & Hle & _). split; [exact Hlen | now rewrite <- Hlen].
Qed.

(** *** The packing loop of the token splitter *)

Lemma fold_left_prefix {A S} (f : S -> A -> S) (P : list A -> S -> Prop) :
  (forall done s x, P done s -> P (done ++ [x]) (f s x)) ->
  forall l done s, P done s -> P (done ++ l) (fold_left f l s).
Proof.
  intros Hstep. induction l as [|x l IH]; simpl; intros done s HP.
  - now rewrite app_nil_r.
  - replace (done ++ x :: l) with ((done ++ [x]) ++ l)
      by (now rewrite <- app_assoc).
    apply IH. now apply Hstep.
Qed.

Lemma sumTokens_app tm b1 b2 :
  sumTokens tm (b1 ++ b2) = sumTokens tm b1 + sumTokens tm b2.
Proof.
  unfold sumTokens. induction b1 as [|f b1 IH]; simpl; [reflexivity|].
  rewrite IH. lia.
Qed.

Lemma PackInv_step maxTokens tm done st f :
  PackInv maxTokens tm done st ->
  PackInv maxTokens tm (done ++ [f]) (packStep maxTokens tm st f).
Proof.
  intros (Hcat & Hok & Hsum & Hle). unfold packStep, PackInv.
  destruct (maxTokens <? fileTokens tm f) eqn:Ebig.
  - apply Z.ltb_lt in Ebig.
    assert (Hsingle : batchOk maxTokens tm [f]).
    { split; [discriminate|]. left. now exists f. }
    destruct (currentFiles st) as [|g gs] eqn:Ecur; simpl.
    + rewrite Ecur. simpl. rewrite concat_app. simpl.
      rewrite ?app_nil_r. rewrite app_nil_r in Hcat. subst done.
      repeat split; auto.
      apply Forall_app. split; [assumption | now constructor].
    + rewrite !concat_app. simpl. rewrite !app_nil_r, <- Hcat, <- app_assoc.
      repeat split; auto; [|congruence].
      apply Forall_app. split; [|now constructor].
      apply Forall_app. split; [assumption|]. constructor; [|constructor].
      split; [discriminate|]. right. rewrite <- Hsum. apply Hle. discriminate.
  - apply Z.ltb_ge in Ebig.
    destruct (maxTokens <? currentTokens st + fileTokens tm f) eqn:Eover; simpl.
    + apply Z.ltb_lt in Eover.
      assert (Hne : currentFiles st <> []).
      { intros E. rewrite E in Hsum. unfold sumTokens in Hsum. simpl in Hsum.
        lia. }
      rewrite concat_app. simpl. rewrite app_nil_r, <- Hcat.
      repeat split; auto.
      * apply Forall_app. split; [assumption|]. constructor; [|constructor].
        split; [assumption|]. right. rewrite <- Hsum. now apply Hle.
      * unfold sumTokens. simpl. lia.
    + apply Z.ltb_ge in Eover. rewrite <- Hcat, app_assoc.
      repeat split; auto.
      rewrite sumTokens_app, Hsum.
      change (sumTokens tm [f]) with (fileTokens tm f + 0). lia.
Qed.

(** The batches are the selected files cut into consecutive runs, each run a
    pending part as described by [batchOk]. *)
Lemma packFiles_ok maxTokens tm files :
  concat (packFiles maxTokens tm files) = files /\
  Forall (batchOk maxTokens tm) (packFiles maxTokens tm files).
Proof.
  unfold packFiles.
  assert (H : PackInv maxTokens tm ([] ++ files)
                (fold_left (packStep maxTokens tm) files packInit)).
  { apply (fold_left_prefix _ (PackInv maxTokens tm)).
    - intros done s x. apply PackInv_step.
    - unfold PackInv, packInit. simpl. repeat split; auto. congruence. }
  simpl in H. destruct H as (Hcat & Hok & Hsum & Hle). unfold packFinish.
  destruct (currentFiles _) as [|g gs] eqn:Ecur; simpl.
  - rewrite app_nil_r in Hcat. auto.
  - rewrite concat_app. simpl. rewrite app_nil_r. split; [assumption|].
    apply Forall_app. split; [assumption|]. constructor; [|constructor].
    split; [discriminate|]. right. rewrite <- Hsum. apply Hle. discriminate.
Qed.

(** *** The rendering loop of the token splitter *)

Lemma promiseAll_countFile (a : Args) files :
  forall t,
    fst (promiseAll (countFile taskRun a) files t) =
    estimateAll taskRun a files.
Proof.
  induction files as [|f files IH]; intros t; simpl; [reflexivity|].
  unfold countFile at 1, bind, callTaskRun, ret.
  destruct (taskRun _) as [c|e]; cbn [await];
    match goal with
    | |- context [promiseAll ?g files ?t1] =>
        specialize (IH t1); destruct (promiseAll g files t1) as [rs t2]
    end; simpl in *; subst rs;
    destruct (estimateAll taskRun a files); reflexivity.
Qed.

Lemma tokenPart_run (a : Args) maxTokens total i files t :
  tokenPart generateOutput calculateOutputMetrics extname a maxTokens total i
    files t =
  let call := renderCallOf a files (i + 1) total in
  match await (generateOutput call) with
  | Throw e => (Throw e, EvGenerateOutput call :: t)
  | Ok text =>
      let t2 := EvCalculateOutputMetrics text (encodingOf a)
                :: EvGenerateOutput call :: t in
      match await (calculateOutputMetrics text (encodingOf a)) with
      | Throw e => (Throw e, t2)
      | Ok count =>
          if Nat.eqb (length files) 1 && (maxTokens <? count) then
            (Throw (FileExceedsMaxTokens
                      (match files with f :: _ => path f | [] => [] end)
                      count maxTokens), t2)
          else
            (Ok {| index := (i + 1)%nat;
                   filePath :=
                     buildSplitOutputFilePath extname
                       (outFilePath (output (baseConfig a))) (i + 1);
                   partContent := text;
                   byteLength := getUtf8ByteLength text;
                   tokenCount := count;
                   groups := None |}, t2)
      end
  end.
Proof.
  unfold tokenPart, bind, renderFiles, callGenerateOutput,
    callCalculateOutputMetrics, renderCallOf. cbv zeta.
  destruct (generateOutput _) as [text|e]; [|reflexivity]. simpl.
  destruct (calculateOutputMetrics _ _) as [count|e]; [|reflexivity]. simpl.
  destruct (_ && _); reflexivity.
Qed.

Lemma tokenPart_ok (a : Args) maxTokens total i files t p t' :
  tokenPart generateOutput calculateOutputMetrics extname a maxTokens total i
    files t = (Ok p, t') ->
  tokenPartOk generateOutput calculateOutputMetrics a maxTokens total files p /\
  index p = (i + 1)%nat.
Proof.
  rewrite tokenPart_run. cbv zeta.
  destruct (generateOutput _) as [text|e] eqn:Er; [|discriminate]. simpl.
  destruct (calculateOutputMetrics _ _) as [count|e] eqn:Ec; [|discriminate].
  simpl.
  destruct (Nat.eqb (length files) 1 && (maxTokens <? count)) eqn:Echk;
    [discriminate|].
  intros H. injection H as <- _. unfold tokenPartOk. simpl.
  repeat split; auto.
  intros Hlen. rewrite Hlen in Echk. simpl in Echk. now apply Z.ltb_ge.
Qed.

Lemma tokenLoop_ok (a : Args) maxTokens total batches :
  forall i acc t ps t',
    tokenLoop generateOutput calculateOutputMetrics extname a maxTokens total
      batches i acc t = (Ok ps, t') ->
    exists new,
      ps = acc ++ new /\
      Forall2 (tokenPartOk generateOutput calculateOutputMetrics a maxTokens
                 total) batches new /\
      List.map index new = seq (i + 1) (length batches).
Proof.
  induction batches as [|files rest IH]; simpl; intros i acc t ps t' H.
  - injection H as <- _. exists []. rewrite app_nil_r. repeat constructor.
  - apply bind_ok_inv in H as (p & t1 & Hp & Hrest).
    apply tokenPart_ok in Hp as [Hok Hidx].
    apply IH in Hrest as (new & -> & Hall & Hseq).
    exists (p :: new). rewrite <- app_assoc. simpl.
    repeat split; [now constructor|].
    rewrite Hidx, Hseq. now replace (S i + 1)%nat with (S (i + 1)) by lia.
Qed.

(** What a successful token split returns. *)
Lemma byTokens_ok (a : Args) maxTokens t ps t' :
  byTokens a maxTokens t = (Ok ps, t') ->
  exists counts,
    estimateAll taskRun a (argFiles a) = Ok counts /\
    let batches := packFiles maxTokens (newMap counts) (argFiles a) in
    Forall2 (tokenPartOk generateOutput calculateOutputMetrics a maxTokens
               (length batches)) batches ps /\
    List.map index ps = seq 1 (length batches).
Proof.
  unfold generateSplitOutputPartsByTokens, bind at 1, emit, tryFinally.
  intros H.
  destruct (bind _ _ _) as [r t1] eqn:Ebody in H.
  injection H as -> _.
  unfold bind at 1, progressCallback, emit in Ebody.
  apply bind_ok_inv in Ebody as (counts & t2 & Hcounts & Hloop).
  exists counts. split.
  - rewrite <- (promiseAll_countFile a (argFiles a)
                 (EvProgress MsgPreCalculating :: EvInitTaskRunner :: t)).
    now rewrite Hcounts.
  - cbv zeta. apply tokenLoop_ok in Hloop as (new & -> & Hall & Hseq).
    simpl. split; assumption.
Qed.

(** *** Coverage of the selected files *)

Lemma partFiles_flat ps :
  flat_map partFiles ps = groupFiles (flat_map partGroups ps).
Proof.
  induction ps as [|p ps IH]; simpl; [reflexivity|].
  now rewrite groupFiles_app, IH.
Qed.

(** C1 (as amended): when the token-mode split succeeds, the batches
    rendered into the returned parts, in part order, concatenate to exactly
    the selected-files list.  When the byte-mode split succeeds, the groups
    embedded in the returned parts are, in part order, exactly the sorted
    root-entry groups; the files embedded in the parts are a rearrangement
    of the selected-files list in which every file occurs once and the files
    of one root entry keep their input order. *)
Theorem split_parts_cover_selected_files
    (a : Args) (budget : Z) (t : list Ev)
    (ps : list OutputSplitPart) (t' : list Ev) :
  (byTokens a budget t = (Ok ps, t') ->
   exists batches,
     concat batches = argFiles a /\
        Forall2 (fun files p =>
                generateOutput
                  (renderCallOf a files (index p) (length batches)) =
                Returned (partContent p)) batches ps) /\
  (byBytes a budget t = (Ok ps, t') ->
   let gs := buildOutputSplitGroups localeCompare (argFiles a) (argPaths a) in
   flat_map partGroups ps = gs /\
   Forall (fun p =>
             groups p = Some (partGroups p) /\
                        generateOutput
               (renderCallOf a (partFiles p) (index p) (length gs)) =
             Returned (partContent p)) ps /\
   Permutation (flat_map partFiles ps) (argFiles a) /\
   forall r, filesUnder r (flat_map partFiles ps) = filesUnder r (argFiles a)).
Proof.
  split.
  - intros H. apply byTokens_ok in H as (counts & _ & Hall & _).
    cbv zeta in Hall.
    exists (packFiles budget (newMap counts) (argFiles a)).
    split; [apply packFiles_ok|].
    eapply Forall2_impl; [|exact Hall].
    intros files p (Hr & _). exact Hr.
  - intros H. apply byBytes_ok in H as (Hcover & Hok & _). cbv zeta in *.
    split; [exact Hcover|]. split.
    + eapply Forall_impl; [|exact Hok].
          intros p (_ & _ & _ & _ & Hg & Hr). split; [assumption|].
      now apply await_ok.
    + rewrite partFiles_flat, Hcover. apply build_files.
Qed.

(** *** Exact token counts *)

(** C4 (as amended): when the token-mode split succeeds, every returned
    part carries the exact token count of its rendered content, and that
    count is at most the budget for every part made from a single file;  a
    part made from several files is committed without this check, on the
    strength of its estimates alone, whose sum (overhead included) is at
    most the budget. *)
Theorem token_single_file_parts_within_budget
    (a : Args) (maxTokensPerPart : Z) (t : list Ev)
    (ps : list OutputSplitPart) (t' : list Ev) :
  byTokens a maxTokensPerPart t = (Ok ps, t') ->
  exists counts,
    estimateAll taskRun a (argFiles a) = Ok counts /\
    let tokenMap := newMap counts in
    let batches := packFiles maxTokensPerPart tokenMap (argFiles a) in
    Forall2 (fun files p =>
                            generateOutput
                 (renderCallOf a files (index p) (length batches)) =
               Returned (partContent p) /\
               calculateOutputMetrics (partContent p) (encodingOf a) =
               Returned (tokenCount p) /\
               (length files = 1%nat -> tokenCount p <= maxTokensPerPart) /\
               (length files <> 1%nat ->
                sumTokens tokenMap files <= maxTokensPerPart))
      batches ps.
Proof.
  intros H. apply byTokens_ok in H as (counts & Hc & Hall & _).
  exists counts. split; [exact Hc|]. cbv zeta in *.
  pose proof (proj2 (packFiles_ok maxTokensPerPart (newMap counts)
                       (argFiles a))) as Hok.
  revert Hok Hall.
  generalize (length (packFiles maxTokensPerPart (newMap counts) (argFiles a))).
  generalize (packFiles maxTokensPerPart (newMap counts) (argFiles a)).
  intros batches total Hok Hall. induction Hall as [|files p bs ps' Hp _ IH].
  - constructor.
  - inversion Hok as [|? ? Hb Hbs]; subst. constructor; [|now apply IH].
    destruct Hp as (Hr & Hm & Hone & _). repeat split; auto.
    intros Hlen. destruct Hb as (_ & [(f & -> & _)|Hsum]);
      [now elim Hlen | exact Hsum].
Qed.

(** *** The packing loop is the greedy procedure of the specification *)

Lemma packFinish_flush st :
  packFinish st = partFileData st ++ flush (currentFiles st).
Proof.
  unfold packFinish. destruct (currentFiles st); simpl;
    [now rewrite app_nil_r | reflexivity].
Qed.

Lemma packLoop_refines maxTokens tm files :
  forall st,
    (currentFiles st = [] -> currentTokens st = 0) ->
    packFinish (fold_left (packStep maxTokens tm) files st) =
    partFileData st ++
    packSpec maxTokens (fileTokens tm) files (currentFiles st)
      (currentTokens st).
Proof.
  induction files as [|f files IH]; simpl; intros st Hinv.
  - now apply packFinish_flush.
  - unfold packStep at 2.
    destruct (maxTokens <? fileTokens tm f) eqn:Ebig.
    + destruct (currentFiles st) as [|g gs] eqn:Ecur; simpl.
      * rewrite IH; simpl; rewrite Ecur; [|auto].
        rewrite (Hinv eq_refl), <- app_assoc. reflexivity.
      * rewrite IH by reflexivity. simpl. rewrite <- !app_assoc. reflexivity.
    + apply Z.ltb_ge in Ebig.
      destruct (maxTokens <? currentTokens st + fileTokens tm f) eqn:Eover.
      * apply Z.ltb_lt in Eover. rewrite IH by (simpl; congruence). simpl.
        destruct (currentFiles st) as [|g gs] eqn:Ecur.
        -- specialize (Hinv eq_refl). lia.
        -- simpl. rewrite <- app_assoc. reflexivity.
      * rewrite IH; [reflexivity|]. simpl. intros E.
        now apply app_eq_nil in E as [_ E].
Qed.

(** C6: the batches of the token splitter are those of the greedy packing
    of the specification run over each file's estimate plus the overhead of
    20 tokens: files in input order, an oversized file alone after a flush
    of the current batch, a flush when the running total would pass the
    budget, accumulation otherwise, and a flush of the trailing batch.  They
    cut the input into consecutive non-empty runs.  Three files of adjusted
    estimate 80 under a budget of 100 give three single-file parts. *)
Theorem token_packing_is_greedy
    (maxTokensPerPart : Z) (tokenMap : JsMap Z) (files : list ProcessedFile) :
  packFiles maxTokensPerPart tokenMap files =
    packSpec maxTokensPerPart
      (fun f => orZero (map_get (path f) tokenMap) + 20) files [] 0 /\
  concat (packFiles maxTokensPerPart tokenMap files) = files /\
  Forall (batchOk maxTokensPerPart tokenMap)
    (packFiles maxTokensPerPart tokenMap files) /\
  (forall f1 f2 f3,
      fileTokens tokenMap f1 = 80 ->
      fileTokens tokenMap f2 = 80 ->
      fileTokens tokenMap f3 = 80 ->
      packFiles 100 tokenMap [f1; f2; f3] = [[f1]; [f2]; [f3]]).
Proof.
  split; [|split; [|split]].
  - unfold packFiles. now rewrite packLoop_refines.
  - apply packFiles_ok.
  - apply packFiles_ok.
  - intros f1 f2 f3 H1 H2 H3. unfold packFiles.
    rewrite packLoop_refines by reflexivity. simpl.
    rewrite H1, H2, H3. reflexivity.
Qed.

(** *** The byte splitter is the procedure of the specification *)

Lemma byteStep_run (a : Args) maxBytes n st g t :
  fst (byteStep generateOutput extname a maxBytes n st g t) =
  match trial generateOutput a n (currentGroups st ++ [g])
          (S (length (parts st))) with
  | Throw e => Throw e
  | Ok text =>
      if getUtf8ByteLength text <=? maxBytes then
        Ok {| parts := parts st;
              currentGroups := currentGroups st ++ [g];
              currentContent := text;
              currentBytes := getUtf8ByteLength text |}
      else if Nat.eqb (length (currentGroups st)) 0 then
        Throw (RootEntryExceedsMaxSize (rootEntry g) (getUtf8ByteLength text)
                 maxBytes)
      else
        match trial generateOutput a n [g] (S (S (length (parts st)))) with
        | Throw e => Throw e
        | Ok alone =>
            if maxBytes <? getUtf8ByteLength alone then
              Throw (RootEntryExceedsMaxSize (rootEntry g)
                       (getUtf8ByteLength alone) maxBytes)
            else
              Ok {| parts := parts st ++
                             [closePart extname a st (S (length (parts st)))];
                    currentGroups := [g];
                    currentContent := alone;
                    currentBytes := getUtf8ByteLength alone |}
        end
  end.
Proof.
  unfold byteStep, bind, progressCallback, emit. rewrite renderGroups_run.
  rewrite Nat.add_1_r.
  destruct (trial generateOutput a n (currentGroups st ++ [g])
              (S (length (parts st)))) as [text|e]; [|reflexivity].
  destruct (getUtf8ByteLength text <=? maxBytes); [reflexivity|].
  destruct (Nat.eqb (length (currentGroups st)) 0); [reflexivity|].
  rewrite renderGroups_run, length_app, Nat.add_1_r. simpl.
  rewrite Nat.add_1_r.
  destruct (trial generateOutput a n [g] (S (S (length (parts st)))))
    as [alone|e]; [|reflexivity].
  destruct (maxBytes <? getUtf8ByteLength alone); reflexivity.
Qed.

Lemma fst_bind {A B} (m : Eff A) (f : A -> Eff B) t :
  fst (bind m f t) =
  match fst (m t) with
  | Ok x => fst (f x (snd (m t)))
  | Throw e => Throw e
  end.
Proof. unfold bind. destruct (m t) as [[x|e] t1]; reflexivity. Qed.

Lemma accGroups_accOfState st : accGroups (accOfState st) = currentGroups st.
Proof. unfold accOfState. destruct (currentGroups st); reflexivity. Qed.

Lemma fst_forEach_cons {A S} (body : S -> A -> Eff S) x l s t :
  fst (forEach body (x :: l) s t) =
  match fst (body s x t) with
  | Ok s' => fst (forEach body l s' (snd (body s x t)))
  | Throw e => Throw e
  end.
Proof. simpl. apply fst_bind. Qed.

Lemma byteLoop_refines (a : Args) maxBytes n gs :
  forall st t,
    match fst (forEach (byteStep generateOutput extname a maxBytes n) gs st t)
    with
    | Ok st' => Ok (byteFinish extname a st')
    | Throw e => Throw e
    end =
    byteSplitSpec generateOutput extname a maxBytes n gs (accOfState st)
      (parts st).
Proof.
  induction gs as [|g gs IH]; intros st t.
  - simpl. unfold byteFinish, accOfState.
    destruct (currentGroups st) as [|g gs] eqn:E; simpl; [reflexivity|].
    unfold closePart. rewrite E, Nat.add_1_r. reflexivity.
  - rewrite fst_forEach_cons, byteStep_run.
    simpl byteSplitSpec. rewrite accGroups_accOfState.
    destruct (trial generateOutput a n (currentGroups st ++ [g])
                (S (length (parts st)))) as [text|e]; [|reflexivity].
    destruct (getUtf8ByteLength text <=? maxBytes) eqn:Ele.
    + rewrite IH. simpl. f_equal. unfold accOfState. simpl.
      destruct (currentGroups st); reflexivity.
    + unfold accOfState at 1 2.
      destruct (currentGroups st) as [|g0 gs0] eqn:Ecur; [reflexivity|].
      simpl. rewrite length_app. simpl. rewrite Nat.add_1_r.
      destruct (trial generateOutput a n [g] (S (S (length (parts st)))))
        as [alone|e]; [|reflexivity].
      rewrite Z.leb_antisym.
      destruct (maxBytes <? getUtf8ByteLength alone); [reflexivity|].
      simpl. rewrite IH. unfold accOfState, closePart. simpl.
      rewrite Ecur. reflexivity.
Qed.

(** C2: the outcome of the byte splitter -- the parts or the error -- is
    that of the procedure of the specification run over the sorted groups
    from an empty accumulator: accept a trial render within the budget;
    otherwise close a non-empty accumulator as a part and render the
    candidate alone; fail with the root entry, the measured size and the
    limit when the candidate alone (or the very first group) exceeds the
    budget; close a non-empty accumulator as the last part. *)
Theorem byte_splitter_follows_specification
    (a : Args) (maxBytesPerPart : Z) (t : list Ev) :
  let gs := buildOutputSplitGroups localeCompare (argFiles a) (argPaths a) in
  fst (byBytes a maxBytesPerPart t) =
  byteSplitSpec generateOutput extname a maxBytesPerPart (length gs) gs
    AccEmpty [].
Proof.
  cbv zeta. unfold generateSplitOutputPartsByBytes.
  destruct (Nat.eqb _ _) eqn:E.
  - apply Nat.eqb_eq in E.
    destruct (buildOutputSplitGroups _ _ _); [reflexivity | discriminate].
  - rewrite fst_bind.
    etransitivity;
      [|exact (byteLoop_refines a maxBytesPerPart _ _ byteInit t)].
    destruct (fst (forEach _ _ _ _)); reflexivity.
Qed.

(** *** The token-limit error *)

Lemma renderCallOf_inj (a : Args) files files' i j total :
  renderCallOf a files i total = renderCallOf a files' j total ->
  files = files' /\ i = j.
Proof.
  intros H. split.
  - exact (f_equal (@rcFiles _ _ _ _ _) H).
  - pose proof (f_equal (@rcSplitInfo _ _ _ _ _) H) as H'. simpl in H'.
    congruence.
Qed.

Lemma tokenLoop_error (a : Args) maxTokens total batches :
  forall i acc t new p m l,
    snd (tokenLoop generateOutput calculateOutputMetrics extname a maxTokens
           total batches i acc t) = new ++ t ->
    (fst (tokenLoop generateOutput calculateOutputMetrics extname a maxTokens
            total batches i acc t) = Throw (FileExceedsMaxTokens p m l) <->
     exists j f,
       nth_error batches j = Some [f] /\
       singleFileOverBudget generateOutput calculateOutputMetrics a maxTokens
         total (i + j + 1) f m new /\
       p = path f /\ l = maxTokens).
Proof.
  induction batches as [|files rest IH]; intros i acc t new p m l Hsnd.
  - simpl. split; [discriminate|].
    intros (j & f & Hnth & _). destruct j; discriminate.
  - simpl in Hsnd |- *. unfold bind in Hsnd |- *.
    rewrite tokenPart_run in Hsnd |- *. cbv zeta in Hsnd |- *.
    set (call := renderCallOf a files (i + 1) total) in *.
    assert (Hhere : forall f text',
               files = [f] ->
               generateOutput (renderCallOf a [f] (i + 0 + 1) total) =
                 Returned text' ->
               generateOutput call = Returned text').
    { intros f text' -> H. unfold call.
      now replace (i + 1)%nat with (i + 0 + 1)%nat by lia. }
    assert (Hother : forall j f,
               ~ In (EvGenerateOutput (renderCallOf a [f] (i + S j + 1) total))
                   [EvGenerateOutput call]).
      { intros j f [H|[]].
      assert (H' : call = renderCallOf a [f] (i + S j + 1) total)
        by congruence.
      apply renderCallOf_inj in H' as [_ H']. lia. }
    destruct (generateOutput call) as [text|e] eqn:Er; simpl in Hsnd |- *.
    + destruct (calculateOutputMetrics text (encodingOf a)) as [count|e]
        eqn:Ec; simpl in Hsnd |- *.
      * destruct (Nat.eqb (length files) 1 && (maxTokens <? count)) eqn:Echk;
          simpl in Hsnd |- *.
        -- (* this round throws the token-limit error *)
           apply andb_true_iff in Echk as [Hlen Hover].
           apply Nat.eqb_eq in Hlen. apply Z.ltb_lt in Hover.
           destruct files as [|f [|? ?]]; try discriminate.
           apply (app_inv_tail t [_; _] new) in Hsnd. subst new.
           split.
           ++ intros H. injection H as <- <- <-. exists 0%nat, f.
              repeat split; auto. exists text.
              replace (i + 0 + 1)%nat with (i + 1)%nat by lia.
              fold call. repeat split; auto. right. now left.
           ++ intros (j & f' & Hnth & (text' & Hin & Hr & Hm & Hlt) & -> & ->).
              destruct j as [|j].
                          ** injection Hnth as <-.
                 pose proof (Hhere _ _ eq_refl Hr) as E. injection E as <-.
                 rewrite Ec in Hm. injection Hm as <-. reflexivity.
              ** exfalso. destruct Hin as [Hin|Hin]; [discriminate|].
                 exact (Hother _ _ Hin).
        -- (* this round completes; the loop goes on *)
           match type of Hsnd with
           | snd (tokenLoop _ _ _ _ _ _ _ ?i' ?acc' ?t1) = _ =>
               destruct (emitsOnly_tokenLoop a maxTokens total rest i' acc' t1)
                 as (new' & Hnew' & _);
               specialize (IH i' acc' t1 new' p m l Hnew');
               rewrite Hnew' in Hsnd
           end.
                    match type of Hsnd with
           | new' ++ ?x :: ?y :: t = _ =>
               change (new' ++ [x; y] ++ t = new ++ t) in Hsnd
           end.
           rewrite app_assoc in Hsnd. apply app_inv_tail in Hsnd.
           subst new. rewrite IH. split.
           ++ intros (j & f & Hnth & (text' & Hin & Hr & Hm & Hlt) & -> & ->).
              exists (S j), f. repeat split; auto. exists text'.
              replace (i + S j + 1)%nat with (S i + j + 1)%nat by lia.
              repeat split; auto. apply in_or_app. now left.
           ++ intros (j & f & Hnth & (text' & Hin & Hr & Hm & Hlt) & -> & ->).
              destruct j as [|j].
                          ** exfalso. injection Hnth as ->.
                 pose proof (Hhere _ _ eq_refl Hr) as E. injection E as <-.
                 rewrite Ec in Hm. injection Hm as <-.
                 simpl in Echk. apply Z.ltb_ge in Echk. lia.
              ** exists j, f. repeat split; auto. exists text'.
                 replace (S i + j + 1)%nat with (i + S j + 1)%nat by lia.
                 repeat split; auto.
                 apply in_app_or in Hin as [Hin|Hin]; [exact Hin|].
                 exfalso. destruct Hin as [Hin|Hin]; [discriminate|].
                 exact (Hother _ _ Hin).
      * (* the tokenizer fails *)
        apply (app_inv_tail t [_; _] new) in Hsnd. subst new.
        split; [discriminate|].
        intros (j & f & Hnth & (text' & Hin & Hr & Hm & Hlt) & -> & ->).
        exfalso. destruct j as [|j].
              -- injection Hnth as ->.
           pose proof (Hhere _ _ eq_refl Hr) as E. injection E as <-.
           congruence.
        -- destruct Hin as [Hin|Hin]; [discriminate|].
           exact (Hother _ _ Hin).
    + (* the renderer fails *)
      apply (app_inv_tail t [_] new) in Hsnd. subst new.
      split; [discriminate|].
      intros (j & f & Hnth & (text' & Hin & Hr & Hm & Hlt) & -> & ->).
      exfalso. destruct j as [|j].
          * injection Hnth as ->.
        discriminate (Hhere _ _ eq_refl Hr).
      * exact (Hother _ _ Hin).
Qed.

Lemma byTokens_run (a : Args) maxTokens t :
  byTokens a maxTokens t =
  let t0 := EvProgress MsgPreCalculating :: EvInitTaskRunner :: t in
  let est := promiseAll (countFile taskRun a) (argFiles a) t0 in
  match fst est with
  | Throw e => (Throw e, EvCleanup :: snd est)
  | Ok counts =>
      let batches := packFiles maxTokens (newMap counts) (argFiles a) in
      let loop :=
        tokenLoop generateOutput calculateOutputMetrics extname a maxTokens
          (length batches) batches 0 [] (snd est) in
      (fst loop, EvCleanup :: snd loop)
  end.
Proof.
  unfold generateSplitOutputPartsByTokens, tryFinally, bind, progressCallback,
    emit. cbv zeta.
  destruct (promiseAll _ _ _) as [[counts|e] t1]; simpl; [|reflexivity].
  destruct (tokenLoop _ _ _ _ _ _ _ _ _ _) as [r t2]. reflexivity.
Qed.

Lemma estimateAll_throw (a : Args) files e :
  estimateAll taskRun a files = Throw e -> exists x, e = CollaboratorError x.
Proof.
  induction files as [|f files IH]; simpl; [discriminate|].
  destruct (taskRun _) as [c|x]; simpl.
  - destruct (estimateAll taskRun a files) as [cs|e']; [discriminate|].
    intros H. injection H as <-. now apply IH.
  - intros H. injection H as <-. now exists x.
Qed.

Lemma emitsOnly_estimate (a : Args) files :
  emitsOnly isTaskRun (promiseAll (countFile taskRun a) files : Eff _).
Proof.
  apply emitsOnly_promiseAll. intros f. unfold countFile.
  apply emitsOnly_bind; [|intros c; apply emitsOnly_ret].
  intros t. eexists [_]. split; [reflexivity|]. repeat constructor.
Qed.

(** C5: the token-mode split ends in the error that names a file, its
    measured token count and the limit exactly when, during the run, some
    batch consisting of a single file was rendered and the exact token count
    of that render exceeds the budget; the error names that file, that count
    and the budget.  The run then returns no parts, and a batch of several
    files is never the cause. *)
Theorem token_limit_error_iff
    (a : Args) (maxTokensPerPart : Z) (t new : list Ev) (p : jsstring)
    (m l : Z) :
  snd (byTokens a maxTokensPerPart t) = new ++ t ->
  (fst (byTokens a maxTokensPerPart t) = Throw (FileExceedsMaxTokens p m l) <->
   exists counts j f,
     estimateAll taskRun a (argFiles a) = Ok counts /\
     let batches := packFiles maxTokensPerPart (newMap counts) (argFiles a) in
     nth_error batches j = Some [f] /\
     singleFileOverBudget generateOutput calculateOutputMetrics a
       maxTokensPerPart (length batches) (j + 1) f m new /\
     p = path f /\ l = maxTokensPerPart) /\
  (fst (byTokens a maxTokensPerPart t) = Throw (FileExceedsMaxTokens p m l) ->
   forall ps, fst (byTokens a maxTokensPerPart t) <> Ok ps).
Proof.
  intros Hsnd. split; [|intros H ps; rewrite H; discriminate].
  rewrite byTokens_run in Hsnd |- *. cbv zeta in Hsnd |- *.
  rewrite promiseAll_countFile in Hsnd |- *.
  destruct (emitsOnly_estimate a (argFiles a)
              (EvProgress MsgPreCalculating :: EvInitTaskRunner :: t))
    as (newE & HnewE & FE).
  rewrite HnewE in Hsnd |- *.
  destruct (estimateAll taskRun a (argFiles a)) as [counts|e] eqn:Eest.
  - set (batches := packFiles maxTokensPerPart (newMap counts) (argFiles a))
      in *.
    simpl in Hsnd |- *.
    match type of Hsnd with
    | _ :: snd (tokenLoop _ _ _ _ _ _ _ ?i ?acc ?t1) = _ =>
        destruct (emitsOnly_tokenLoop a maxTokensPerPart (length batches)
                    batches i acc t1) as (newL & HnewL & _);
        rewrite (tokenLoop_error a maxTokensPerPart (length batches) batches
                   i acc t1 newL p m l HnewL);
        rewrite HnewL in Hsnd
    end.
    change (([EvCleanup] ++ newL ++ newE ++
             [EvProgress MsgPreCalculating; EvInitTaskRunner] ++ t) = new ++ t)
      in Hsnd.
    rewrite !app_assoc in Hsnd. apply app_inv_tail in Hsnd. subst new.
    split.
    + intros (j & f & Hnth & (text & Hin & Hr & Hm & Hlt) & -> & ->).
      exists counts, j, f. repeat split; auto. exists text.
      repeat split; auto. apply in_or_app. left. apply in_or_app. left.
      right. exact Hin.
    + intros (counts' & j & f & E & Hnth & (text & Hin & Hr & Hm & Hlt)
              & -> & ->).
      injection E as <-. exists j, f. repeat split; auto. exists text.
      repeat split; auto.
      apply in_app_or in Hin as [Hin|Hin];
        [apply in_app_or in Hin as [Hin|Hin]|].
      * destruct Hin as [Hin|Hin]; [discriminate | exact Hin].
      * exfalso. rewrite Forall_forall in FE. exact (FE _ Hin).
      * exfalso. destruct Hin as [Hin|[Hin|[]]]; discriminate.
  - simpl. apply estimateAll_throw in Eest as (x & ->). split; [discriminate|].
    intros (counts' & j & f & E & _). discriminate.
Qed.

End EngineProperties.

(** ** The scenarios of the test suite *)

(** Scenario A: two root entries, 50 bytes each alone and 100 together,
    budget 70: two parts. *)
Lemma byte_parts_within_budget_witness :
  Forall (fun p =>
            byteLength p = getUtf8ByteLength (partContent p) /\
            getUtf8ByteLength (partContent p) <= 70)
    (partsOf scenarioA_run) /\
  List.map (fun p => List.map path (partFiles p)) (partsOf scenarioA_run) =
  [[js "src/a.ts"]; [js "tests/test.ts"]].
Proof.
  split; [|reflexivity].
  apply (byte_parts_within_budget unit unit unit unit unit unit renderFifty
           codeUnitCompare sampleExtname
           (sampleArgs scenarioA_files scenarioA_paths) 70 []
           (partsOf scenarioA_run) (snd scenarioA_run)).
  vm_compute. reflexivity.
Defined.

(** The byte splitter on scenario A, and on a single root entry that is too
    large alone (scenario D), as the procedure of the specification. *)
Lemma byte_splitter_follows_specification_witness :
  byteSplitSpec renderFifty sampleExtname
    (sampleArgs scenarioA_files scenarioA_paths) 70 2
    (buildOutputSplitGroups codeUnitCompare scenarioA_files scenarioA_paths)
    AccEmpty [] = fst scenarioA_run /\
  fst (generateSplitOutputPartsByBytes renderFifty codeUnitCompare
         sampleExtname (sampleArgs scenarioA_files scenarioA_paths) 40 []) =
  Throw (RootEntryExceedsMaxSize (js "src") 50 40).
Proof.
  split.
    - transitivity
      (fst (generateSplitOutputPartsByBytes renderFifty codeUnitCompare
              sampleExtname (sampleArgs scenarioA_files scenarioA_paths) 70
              [])).
    + symmetry.
      exact (byte_splitter_follows_specification unit unit unit unit unit
               unit renderFifty codeUnitCompare sampleExtname
               (sampleArgs scenarioA_files scenarioA_paths) 70 []).
    + vm_compute. reflexivity.
  - vm_compute. reflexivity.
Defined.

(** Whatever the comparison, the byte splitter returns the interleaved
    files regrouped by root entry. *)
Lemma byte_split_regroups_under_any_comparison
  (cmp : jsstring -> jsstring -> Z) :
  exists ps t',
    generateSplitOutputPartsByBytes renderFifty cmp sampleExtname
      (sampleArgs interleaved_files interleaved_paths) 1000 [] = (Ok ps, t') /\
    flat_map partFiles ps <> interleaved_files.
Proof.
  unfold generateSplitOutputPartsByBytes.
  assert (Hg : buildOutputSplitGroups cmp
                 (argFiles (sampleArgs interleaved_files interleaved_paths))
                 (argPaths (sampleArgs interleaved_files interleaved_paths)) =
               if cmp (js "lib") (js "app") <=? 0
               then [expectedGroup interleaved_files interleaved_paths
                       (js "lib");
                     expectedGroup interleaved_files interleaved_paths
                       (js "app")]
               else [expectedGroup interleaved_files interleaved_paths
                       (js "app");
                     expectedGroup interleaved_files interleaved_paths
                       (js "lib")]) by reflexivity.
  rewrite Hg.
  destruct (cmp (js "lib") (js "app") <=? 0);
    eexists _, _; (split; [reflexivity|]); vm_compute; discriminate.
Qed.

(** C1, as stated, fails in byte mode: the selected files [lib/x.ts],
    [app/y.ts], [lib/z.ts] come back as [app/y.ts], [lib/x.ts], [lib/z.ts],
    the groups being sorted by root entry (and whatever the comparison, the
    two files under [lib] come back next to each other). *)
Lemma byte_split_regroups_files_counterexample :
  exists ps t',
    generateSplitOutputPartsByBytes renderFifty codeUnitCompare sampleExtname
      (sampleArgs interleaved_files interleaved_paths) 1000 [] = (Ok ps, t') /\
    flat_map partFiles ps <> argFiles (sampleArgs interleaved_files
                                         interleaved_paths).
Proof.
  exists (partsOf interleaved_run), (snd interleaved_run).
  split; [vm_compute; reflexivity|].
  vm_compute. discriminate.
Qed.

Lemma split_parts_cover_selected_files_witness :
  (exists batches,
      concat batches = scenarioB_files /\
      Forall2 (fun files p =>
                 renderPaths
                   (renderCallOf (sampleArgs scenarioB_files scenarioB_paths)
                      files (index p) (length batches)) =
                 Returned (partContent p)) batches (partsOf scenarioB_run)) /\
  Permutation (flat_map partFiles (partsOf interleaved_run)) interleaved_files.
Proof.
  split.
  - apply (split_parts_cover_selected_files unit unit unit unit unit unit
             renderPaths (constantRun 60) (constantMetrics 60)
             codeUnitCompare sampleExtname
             (sampleArgs scenarioB_files scenarioB_paths) 100 []
             (partsOf scenarioB_run) (snd scenarioB_run)).
    vm_compute. reflexivity.
  - apply (split_parts_cover_selected_files unit unit unit unit unit unit
             renderFifty (constantRun 60) (constantMetrics 60)
             codeUnitCompare sampleExtname
             (sampleArgs interleaved_files interleaved_paths) 1000 []
             (partsOf interleaved_run) (snd interleaved_run)).
    vm_compute. reflexivity.
Defined.

(** C4, as stated, fails: two files estimated at 30 tokens each are packed
    into one part under a budget of 100; its render counts 200 tokens and the
    part is returned all the same. *)
Lemma token_multi_file_part_over_budget_counterexample :
  exists p t',
    generateSplitOutputPartsByTokens renderPaths (constantRun 10)
      (constantMetrics 200) sampleExtname
      (sampleArgs scenarioA_files scenarioA_paths) 100 [] = (Ok [p], t') /\
    constantMetrics 200 (partContent p) (js "o200k_base") =
      Returned (tokenCount p) /\
    100 < tokenCount p.
Proof.
  destruct loose_run as [r t'] eqn:E.
  assert (Hr : exists p, r = Ok [p]).
  { vm_compute in E. injection E as <- _. eexists. reflexivity. }
  destruct Hr as (p & ->). exists p, t'.
  vm_compute in E. injection E as <- <-.
  repeat split; vm_compute; reflexivity.
Qed.

(** Scenario B: three files estimated at 60 tokens, budget 100: three
    single-file parts, each within the budget. *)
Lemma token_single_file_parts_within_budget_witness :
  exists counts,
    estimateAll (constantRun 60)
      (sampleArgs scenarioB_files scenarioB_paths) scenarioB_files =
      Ok counts /\
    Forall2 (fun files p =>
               renderPaths
                 (renderCallOf (sampleArgs scenarioB_files scenarioB_paths)
                    files (index p)
                    (length (packFiles 100 (newMap counts) scenarioB_files))) =
               Returned (partContent p) /\
               constantMetrics 60 (partContent p)
                 (encodingOf (sampleArgs scenarioB_files scenarioB_paths)) =
               Returned (tokenCount p) /\
               (length files = 1%nat -> tokenCount p <= 100) /\
               (length files <> 1%nat ->
                sumTokens (newMap counts) files <= 100))
      (packFiles 100 (newMap counts) scenarioB_files) (partsOf scenarioB_run).
Proof.
  apply (token_single_file_parts_within_budget unit unit unit unit unit unit
           renderPaths (constantRun 60) (constantMetrics 60) sampleExtname
           (sampleArgs scenarioB_files scenarioB_paths) 100 []
           (partsOf scenarioB_run) (snd scenarioB_run)).
  vm_compute. reflexivity.
Defined.

(** Scenario C: the single file [large.ts] renders to 200 tokens under a
    budget of 100: the error names the file, 200 and 100. *)
Lemma token_limit_error_iff_witness :
  fst scenarioC_run = Throw (FileExceedsMaxTokens (js "large.ts") 200 100).
Proof.
  apply (token_limit_error_iff unit unit unit unit unit unit renderPaths
           (constantRun 150) (constantMetrics 200) sampleExtname
           (sampleArgs scenarioC_files [js "large.ts"]) 100 []
           (snd scenarioC_run) (js "large.ts") 200 100).
  - vm_compute. reflexivity.
  - exists [(js "large.ts", 150)], 0%nat, (mkFile "large.ts" "large content").
    split; [reflexivity|]. cbv zeta. split; [reflexivity|].
    split; [|split; reflexivity].
    exists (js "large.ts"). split; [|repeat split].
    vm_compute. right. right. left. reflexivity.
Defined.

(** Scenario B at the level of the packing loop. *)
Lemma token_packing_is_greedy_witness :
  packFiles 100
    (newMap [(js "file1.ts", 60); (js "file2.ts", 60); (js "file3.ts", 60)])
    scenarioB_files =
  [[mkFile "file1.ts" "content1"]; [mkFile "file2.ts" "content2"];
   [mkFile "file3.ts" "content3"]].
Proof.
  apply (token_packing_is_greedy 100
           (newMap [(js "file1.ts", 60); (js "file2.ts", 60);
                    (js "file3.ts", 60)]) []);
    reflexivity.
Defined.

(** The renderer calls of scenario A: the trial renders of part 1 and the
    render of part 2 follow the rule of the git context. *)
Lemma render_git_context_witness :
  exists new,
    snd (generateSplitOutputParts renderFifty (constantRun 60)
           (constantMetrics 60) codeUnitCompare sampleExtname
           (sampleArgs scenarioA_files scenarioA_paths) (Some (JsInt 70)) None
           []) = new ++ [] /\
    forall call,
      In (EvGenerateOutput call) new ->
      gitContextRule (sampleArgs scenarioA_files scenarioA_paths) call.
Proof.
  apply (render_git_context unit unit unit unit unit unit renderFifty
           (constantRun 60) (constantMetrics 60) codeUnitCompare
           sampleExtname (sampleArgs scenarioA_files scenarioA_paths)
           (Some (JsInt 70)) None []).
Defined.

(** Root entries of a nested path, a Windows path, a rooted path, a bare
    name and the empty path. *)
Example getRootEntry_examples :
  List.map getRootEntry
    [js "src/a.ts"; js "a\b\c"; js "/a/b"; js "README.md"; js ""] =
  [js "src"; js "a"; js "/a/b"; js "README.md"; js ""].
Proof. reflexivity. Qed.

(** Budgets of zero and of a non-integer value are rejected; scenario E, no
    budget at all, returns no parts. *)
Lemma invalid_budget_rejected_before_any_work_witness :
  (exists n',
      ~ positiveSafeInteger n' /\
      (Some (JsInt 0) = Some n' /\
       generateSplitOutputParts renderFifty (constantRun 60)
         (constantMetrics 60) codeUnitCompare sampleExtname
         (sampleArgs scenarioA_files scenarioA_paths) (Some (JsInt 0))
         (Some JsNonInteger) [] = (Throw (InvalidMaxBytesPerPart n'), []) \/
       Some JsNonInteger = Some n' /\
       generateSplitOutputParts renderFifty (constantRun 60)
         (constantMetrics 60) codeUnitCompare sampleExtname
         (sampleArgs scenarioA_files scenarioA_paths) (Some (JsInt 0))
         (Some JsNonInteger) [] = (Throw (InvalidMaxTokensPerPart n'), []))) /\
  generateSplitOutputParts renderFifty (constantRun 60) (constantMetrics 60)
    codeUnitCompare sampleExtname
    (sampleArgs scenarioA_files scenarioA_paths) None None [] = (Ok [], []).
Proof.
  split.
    - apply (proj1 (invalid_budget_rejected_before_any_work unit unit unit unit
                    unit unit renderFifty (constantRun 60)
                    (constantMetrics 60) codeUnitCompare sampleExtname
                    (sampleArgs scenarioA_files scenarioA_paths)
                    (Some (JsInt 0)) (Some JsNonInteger) []) JsNonInteger).
    + right. reflexivity.
    + intros (z & E & _). discriminate.
    - apply (proj2 (invalid_budget_rejected_before_any_work unit unit unit unit
                    unit unit renderFifty (constantRun 60)
                    (constantMetrics 60) codeUnitCompare sampleExtname
                    (sampleArgs scenarioA_files scenarioA_paths) None None
                    []));
      reflexivity.
Defined.

(** * Further properties *)

(** ** Root entries *)

Lemma replaceAll_no_win (p : jsstring) :
  ~ In win32_sep (replaceAll win32_sep posix_sep p).
Proof.
  unfold replaceAll. rewrite in_map_iff. intros (c & E & _).
  destruct (N.eqb c win32_sep) eqn:Ec.
  - discriminate E.
  - apply N.eqb_neq in Ec. congruence.
Qed.

Lemma replaceAll_id (s : jsstring) :
  ~ In win32_sep s -> replaceAll win32_sep posix_sep s = s.
Proof.
  induction s as [|c s IH]; simpl; intros H; [reflexivity|].
  destruct (N.eqb c win32_sep) eqn:Ec.
  - apply N.eqb_eq in Ec. exfalso. apply H. now left.
  - f_equal. apply IH. intros Hin. apply H. now right.
Qed.

Lemma split_no_sep (sep : CodeUnit) (s : jsstring) :
  ~ In sep s -> split sep s = [s].
Proof.
  induction s as [|c s IH]; simpl; intros H; [reflexivity|].
  destruct (N.eqb c sep) eqn:Ec.
  - apply N.eqb_eq in Ec. exfalso. apply H. now left.
  - rewrite IH; [reflexivity|]. intros Hin. apply H. now right.
Qed.

(** The two shapes of a root entry: a non-empty first segment free of
    separators, or the whole normalized path when it is empty or begins
    with a separator. *)
Lemma getRootEntry_cases (p : jsstring) :
  let n := replaceAll win32_sep posix_sep p in
  (getRootEntry p <> [] /\ ~ In posix_sep (getRootEntry p) /\
   (n = getRootEntry p \/ exists tl, n = getRootEntry p ++ posix_sep :: tl)) \/
  (getRootEntry p = n /\ (n = [] \/ exists tl, n = posix_sep :: tl)).
Proof.
  cbv zeta. unfold getRootEntry.
  destruct (split_first posix_sep (replaceAll win32_sep posix_sep p))
    as (first & rest & E & Hno & Hs).
  rewrite E. destruct first as [|c first]; simpl.
  - right. split; [reflexivity|]. destruct Hs as [Hs|(tl & Hs)]; eauto.
  - left. repeat split; auto. discriminate.
Qed.

Lemma getRootEntry_no_win (p : jsstring) : ~ In win32_sep (getRootEntry p).
Proof.
  pose proof (replaceAll_no_win p) as Hn.
  destruct (getRootEntry_cases p) as [(_ & _ & [E|(tl & E)])|(E & _)];
    cbv zeta in *.
  - now rewrite <- E.
  - intros Hin. apply Hn. rewrite E. apply in_or_app. now left.
  - now rewrite E.
Qed.

Lemma replaceAll_idempotent (p : jsstring) :
  replaceAll win32_sep posix_sep (replaceAll win32_sep posix_sep p) =
  replaceAll win32_sep posix_sep p.
Proof. apply replaceAll_id, replaceAll_no_win. Qed.

Lemma getRootEntry_fixed (p : jsstring) :
  getRootEntry (getRootEntry p) = getRootEntry p.
Proof.
  pose proof (getRootEntry_no_win p) as Hnw.
  set (r := getRootEntry p) in *.
  destruct (getRootEntry_cases p) as [(Hne & Hno & _)|(E & Hs)];
    cbv zeta in *; fold r in Hne, Hno || fold r in E.
  - unfold getRootEntry. rewrite (replaceAll_id r Hnw).
    rewrite (split_no_sep posix_sep r Hno).
    destruct r; [congruence | reflexivity].
  - unfold getRootEntry at 1. rewrite (replaceAll_id r Hnw).
    rewrite E. destruct Hs as [->|(tl & ->)]; reflexivity.
Qed.

(** X1: a root entry is its own root entry; a path and its form with
    slashes for backslashes have the same root entry; a root entry contains
    no backslash, is empty only for the empty path, and contains a slash
    only when the path begins with a separator. *)
Theorem getRootEntry_idempotent (p : jsstring) :
  getRootEntry (getRootEntry p) = getRootEntry p /\
  getRootEntry (replaceAll win32_sep posix_sep p) = getRootEntry p /\
  ~ In win32_sep (getRootEntry p) /\
  (getRootEntry p = [] <-> p = []) /\
  (In posix_sep (getRootEntry p) ->
   exists c tl, p = c :: tl /\ (c = posix_sep \/ c = win32_sep)).
Proof.
  pose proof (getRootEntry_no_win p) as Hnw.
  split; [|split; [|split; [exact Hnw|split]]].
  - apply getRootEntry_fixed.
  - unfold getRootEntry. now rewrite replaceAll_idempotent.
  - destruct (getRootEntry_cases p) as [(Hne & _)|(E & _)]; cbv zeta in *.
    + split; [contradiction|]. intros ->. now elim Hne.
    + rewrite E. destruct p; simpl; split; congruence.
  - intros Hin.
    destruct (getRootEntry_cases p) as [(_ & Hno & _)|(E & Hs)];
      cbv zeta in *; [contradiction|].
    rewrite E in Hin. destruct Hs as [Hs|(tl & Hs)].
    + rewrite Hs in Hin. contradiction.
    + destruct p as [|c p]; [discriminate|]. exists c, p.
      split; [reflexivity|]. simpl in Hs.
      destruct (N.eqb c win32_sep) eqn:Ec.
      * right. now apply N.eqb_eq.
      * left. congruence.
Qed.

(** ** Groups *)

Lemma hasRoot_true r p : hasRoot r p = true <-> getRootEntry p = r.
Proof. apply jsstring_eqb_eq. Qed.

Section GroupFacts.
Variable localeCompare : jsstring -> jsstring -> Z.

Local Abbreviation build := (buildOutputSplitGroups localeCompare).

(** X2: every group carries at least one path; its paths and its files
    all lie under its root entry and come from the inputs; and its root
    entry is a root entry of its own. *)
Theorem groups_hold_their_root_entry
  (files : list ProcessedFile) (paths : list jsstring)
  (g : OutputSplitGroup) :
  In g (build files paths) ->
  allFilePaths g <> [] /\
  getRootEntry (rootEntry g) = rootEntry g /\
  (forall p, In p (allFilePaths g) ->
             getRootEntry p = rootEntry g /\
             (In p paths \/ In p (List.map path files))) /\
  (forall f, In f (processedFiles g) ->
             getRootEntry (path f) = rootEntry g /\ In f files).
Proof.
  intros Hin. apply build_In in Hin as [E Hm].
  set (r := rootEntry g) in *.
  assert (Hfiles : forall f, In f (filesUnder r files) ->
                             getRootEntry (path f) = r /\ In f files).
  { intros f Hf. apply filter_In in Hf as [Hf Hr].
    split; [now apply hasRoot_true | exact Hf]. }
  assert (Hpaths : forall p, In p (allFilePaths g) ->
                             getRootEntry p = r /\
                             (In p paths \/ In p (List.map path files))).
  { rewrite E. simpl. intros p Hp.
    destruct (existsb (hasRoot r) paths).
    - apply filter_In in Hp as [Hp Hr].
      split; [now apply hasRoot_true | now left].
    - apply in_map_iff in Hp as (f & <- & Hf).
      assert (Hf' : In f (filesUnder r files)).
      { destruct (filesUnder r files); [contradiction|].
        destruct Hf as [<-|[]]. now left. }
      destruct (Hfiles f Hf') as [Hr Hf'']. split; [exact Hr|].
      right. now apply in_map. }
  assert (Hne : allFilePaths g <> []).
  { rewrite E. simpl. unfold mentioned in Hm.
    destruct (existsb (hasRoot r) paths) eqn:Ep.
    - destruct (filter_cons_existsb _ _ Ep) as (x & l & ->). discriminate.
    - simpl in Hm. destruct (filter_cons_existsb _ _ Hm) as (x & l & Hx).
      unfold filesUnder. rewrite Hx. discriminate. }
  split; [exact Hne|]. split; [|split; [exact Hpaths|]].
  - destruct (allFilePaths g) as [|p l] eqn:Ep; [congruence|].
    destruct (Hpaths p (or_introl eq_refl)) as [<- _].
    apply getRootEntry_fixed.
  - rewrite E. exact Hfiles.
Qed.

(** X3: the grouper returns no group exactly when both lists are empty,
    and never more groups than there are known paths and selected
    files. *)
Theorem groups_empty_iff
  (files : list ProcessedFile) (paths : list jsstring) :
  (build files paths = [] <-> files = [] /\ paths = []) /\
  (length (build files paths) <= length paths + length files)%nat.
Proof.
  split.
  - split.
    + intros E.
      assert (Hnone : forall r, mentioned r files paths = false).
      { intros r. destruct (mentioned r files paths) eqn:Em; [|reflexivity].
        apply build_roots with (localeCompare := localeCompare) in Em.
        rewrite E in Em. contradiction. }
      split.
      * destruct files as [|f files]; [reflexivity|].
        specialize (Hnone (getRootEntry (path f))). unfold mentioned in Hnone.
        simpl in Hnone. rewrite hasRoot_self, !orb_true_r in Hnone.
        discriminate.
      * destruct paths as [|p paths]; [reflexivity|].
        specialize (Hnone (getRootEntry p)). unfold mentioned in Hnone.
        simpl in Hnone. rewrite hasRoot_self in Hnone. discriminate.
    + intros [-> ->]. reflexivity.
  - rewrite <- (length_map rootEntry).
    rewrite <- (length_map getRootEntry paths).
    rewrite <- (length_map path files).
    rewrite <- (length_map getRootEntry (List.map path files)).
    rewrite <- length_app.
    apply NoDup_incl_length; [apply build_NoDup|].
    intros r Hr. apply build_roots, mentioned_iff in Hr. apply in_or_app.
    exact Hr.
Qed.

Lemma flat_map_agree {A B} (f g : A -> list B) (l : list A) :
  (forall x, In x l -> f x = g x) -> flat_map f l = flat_map g l.
Proof.
  induction l as [|x l IH]; intros H; simpl; [reflexivity|].
  rewrite (H x (or_introl eq_refl)), IH; [reflexivity|].
  intros y Hy. apply H. now right.
Qed.

Lemma flat_map_of_map {A B C} (f : A -> B) (g : B -> list C) (l : list A) :
  flat_map g (List.map f l) = flat_map (fun x => g (f x)) l.
Proof.
  induction l as [|x l IH]; simpl; [reflexivity | now rewrite IH].
Qed.

Lemma flat_map_filter_skip (p : jsstring) (paths rs : list jsstring) :
  ~ In (getRootEntry p) rs ->
  flat_map (fun r => filter (hasRoot r) (p :: paths)) rs =
  flat_map (fun r => filter (hasRoot r) paths) rs.
Proof.
  intros Hnotin. apply flat_map_agree. intros r Hr. simpl.
  rewrite hasRoot_other; [reflexivity|]. intros E. apply Hnotin. now rewrite E.
Qed.

Lemma flat_map_filter_insert (p : jsstring) (paths rs : list jsstring) :
  NoDup rs -> In (getRootEntry p) rs ->
  Permutation (flat_map (fun r => filter (hasRoot r) (p :: paths)) rs)
    (p :: flat_map (fun r => filter (hasRoot r) paths) rs).
Proof.
  induction rs as [|r rs IH]; intros Hnd Hin; [contradiction|].
  inversion Hnd as [|? ? Hnotin Hnd']; subst.
  set (F := fun r0 => filter (hasRoot r0) (p :: paths)) in *.
  set (G := fun r0 => filter (hasRoot r0) paths) in *.
  change (Permutation (F r ++ flat_map F rs) (p :: G r ++ flat_map G rs)).
  unfold F at 1, G at 1. cbn [filter].
  destruct (jsstring_eq_dec (getRootEntry p) r) as [E|E].
  - subst r. rewrite hasRoot_self. unfold F, G.
    rewrite flat_map_filter_skip by assumption. reflexivity.
  - rewrite hasRoot_other by assumption.
    destruct Hin as [Hin|Hin]; [congruence|].
    rewrite IH by assumption. symmetry. apply Permutation_middle.
Qed.

Lemma partition_by_roots (paths rs : list jsstring) :
  NoDup rs -> (forall p, In p paths -> In (getRootEntry p) rs) ->
  Permutation (flat_map (fun r => filter (hasRoot r) paths) rs) paths.
Proof.
  intros Hnd. induction paths as [|p paths IH]; intros Hcover.
  - simpl. induction rs as [|r rs IHrs]; [reflexivity|].
    inversion Hnd; subst. simpl. now apply IHrs.
  - rewrite flat_map_filter_insert; auto using in_eq.
    constructor. apply IH. intros q Hq. apply Hcover. now right.
Qed.

(** X4: when every selected file lies under the root entry of some known
    path, the groups share out the known paths: each group carries exactly
    the known paths under its root entry, in input order, and together the
    groups carry every known path once. *)
Theorem known_paths_are_partitioned
  (files : list ProcessedFile) (paths : list jsstring) :
  (forall f, In f files ->
             In (getRootEntry (path f)) (List.map getRootEntry paths)) ->
  (forall g, In g (build files paths) ->
             allFilePaths g = filter (hasRoot (rootEntry g)) paths) /\
  Permutation (groupPaths (build files paths)) paths.
Proof.
  intros Hcover.
  assert (Hgroup : forall g, In g (build files paths) ->
                     allFilePaths g = filter (hasRoot (rootEntry g)) paths).
  { intros g Hin. apply build_In in Hin as [E Hm]. rewrite E at 1. simpl.
    destruct (existsb (hasRoot (rootEntry g)) paths) eqn:Ep; [reflexivity|].
    exfalso. unfold mentioned in Hm. rewrite Ep in Hm. simpl in Hm.
    apply existsb_exists in Hm as (f & Hf & Hr). apply hasRoot_true in Hr.
    specialize (Hcover f Hf). rewrite Hr in Hcover.
    apply in_map_iff in Hcover as (q & Hq & Hin).
    assert (existsb (hasRoot (rootEntry g)) paths = true); [|congruence].
    apply existsb_exists. exists q. split; [exact Hin|].
    now apply hasRoot_true. }
  split; [exact Hgroup|].
  unfold groupPaths.
  rewrite (flat_map_agree _ (fun g => filter (hasRoot (rootEntry g)) paths)
             _ Hgroup).
  rewrite <- (flat_map_of_map rootEntry
               (fun r => filter (hasRoot r) paths) (build files paths)).
  apply partition_by_roots; [apply build_NoDup|].
  intros q Hq. apply build_roots, mentioned_iff. left. now apply in_map.
Qed.

End GroupFacts.

Lemma groups_hold_their_root_entry_witness :
  let g := {| rootEntry := js "src";
              processedFiles := [mkFile "src/a.ts" "source a"];
              allFilePaths := [js "src/a.ts"] |} in
  allFilePaths g <> [] /\
  getRootEntry (rootEntry g) = rootEntry g.
Proof.
  cbv zeta.
  destruct (groups_hold_their_root_entry codeUnitCompare scenarioA_files
              scenarioA_paths
              {| rootEntry := js "src";
                 processedFiles := [mkFile "src/a.ts" "source a"];
                 allFilePaths := [js "src/a.ts"] |}) as (H1 & H2 & _).
  - left. reflexivity.
  - split; assumption.
Defined.

Lemma known_paths_are_partitioned_witness :
  Permutation
    (groupPaths (buildOutputSplitGroups codeUnitCompare interleaved_files
                   interleaved_paths)) interleaved_paths.
Proof.
  apply (known_paths_are_partitioned codeUnitCompare interleaved_files
           interleaved_paths).
  intros f Hf. simpl in Hf.
  destruct Hf as [<-|[<-|[<-|[]]]]; vm_compute; auto.
Defined.

(** ** Names of the parts *)

Lemma js_inj (s1 s2 : string) : js s1 = js s2 -> s1 = s2.
Proof.
  unfold js. intros H.
  rewrite <- (string_of_list_ascii_of_string s1),
          <- (string_of_list_ascii_of_string s2).
  f_equal. revert H.
  generalize (list_ascii_of_string s1) (list_ascii_of_string s2).
  induction l as [|x l IH]; intros [|y l']; simpl; try discriminate;
    [reflexivity|].
  intros H. injection H as Hxy Hl. f_equal; [|now apply IH].
  now rewrite <- (ascii_N_embedding x), <- (ascii_N_embedding y), Hxy.
Qed.

Lemma to_uint_nonnil (n : nat) : Nat.to_uint n <> Decimal.Nil.
Proof.
  rewrite <- (DecimalNat.Unsigned.of_to n) at 1.
  rewrite DecimalNat.Unsigned.to_of. apply DecimalFacts.unorm_nonnil.
Qed.

Lemma decimal_inj (n m : nat) : decimal n = decimal m -> n = m.
Proof.
  unfold decimal. intros H. apply js_inj in H.
  apply DecimalNat.Unsigned.to_uint_inj.
  pose proof (NilZero.usu _ (to_uint_nonnil n)) as Hn.
  pose proof (NilZero.usu _ (to_uint_nonnil m)) as Hm.
  rewrite H in Hn. congruence.
Qed.

Section PartNames.
Variable extname : jsstring -> jsstring.

Lemma buildSplitOutputFilePath_inj (baseFilePath : jsstring) (i j : nat) :
  buildSplitOutputFilePath extname baseFilePath i =
  buildSplitOutputFilePath extname baseFilePath j -> i = j.
Proof.
  unfold buildSplitOutputFilePath.
  destruct (truthy (extname baseFilePath)); simpl negb; cbv iota;
    intros H; apply app_inv_head in H; apply app_inv_head in H.
  - apply app_inv_tail in H. now apply decimal_inj.
  - now apply decimal_inj.
Qed.

(** X5: with [ext] the answer of [path.extname] for the base path, the
    path of part [i] is the base path followed by [.i] when [ext] is empty;
    otherwise it is the base path without its last [length ext] code units,
    whatever they are, followed by [.i] and [ext] -- so [.i] goes before
    the extension when the base path ends with it.  Different part numbers
    give different paths, whatever [path.extname] answers. *)
Theorem buildSplitOutputFilePath_names
  (baseFilePath : jsstring) (i j : nat) :
  (extname baseFilePath = [] ->
   buildSplitOutputFilePath extname baseFilePath i =
   baseFilePath ++ js "." ++ decimal i) /\
  (forall stem tail,
      extname baseFilePath <> [] ->
      baseFilePath = stem ++ tail ->
      length tail = length (extname baseFilePath) ->
      buildSplitOutputFilePath extname baseFilePath i =
      stem ++ js "." ++ decimal i ++ extname baseFilePath) /\
  (forall stem,
      extname baseFilePath <> [] ->
      baseFilePath = stem ++ extname baseFilePath ->
      buildSplitOutputFilePath extname baseFilePath i =
      stem ++ js "." ++ decimal i ++ extname baseFilePath) /\
  (buildSplitOutputFilePath extname baseFilePath i =
   buildSplitOutputFilePath extname baseFilePath j -> i = j).
Proof.
  assert (Hcut : forall stem tail,
             extname baseFilePath <> [] ->
             baseFilePath = stem ++ tail ->
             length tail = length (extname baseFilePath) ->
             buildSplitOutputFilePath extname baseFilePath i =
             stem ++ js "." ++ decimal i ++ extname baseFilePath).
  { intros stem tail Hne Hbase Hlen. unfold buildSplitOutputFilePath.
    destruct (extname baseFilePath) as [|c ext] eqn:E; [congruence|].
    simpl negb. cbv iota.
    rewrite Hbase at 1 2. rewrite length_app, Hlen, Nat.add_sub, firstn_app.
    rewrite Nat.sub_diag, firstn_all, firstn_O, app_nil_r. reflexivity. }
  split; [|split; [|split]].
  - intros E. unfold buildSplitOutputFilePath. now rewrite E.
  - exact Hcut.
  - intros stem Hne Hbase. now apply (Hcut stem (extname baseFilePath)).
  - apply buildSplitOutputFilePath_inj.
Qed.

End PartNames.

(** [out.xml] and 12; [out] and 2; and the base path [a/b.c/], whose
    extension [.c] is not its end: the two code units [c/] are dropped. *)
Lemma buildSplitOutputFilePath_names_witness :
  buildSplitOutputFilePath sampleExtname (js "out.xml") 12 = js "out.12.xml" /\
  buildSplitOutputFilePath (fun _ => []) (js "out") 2 = js "out.2" /\
  buildSplitOutputFilePath trailingExtname (js "a/b.c/") 7 = js "a/b..7.c".
Proof.
  split; [|split].
  - destruct (buildSplitOutputFilePath_names sampleExtname (js "out.xml") 12
                0) as (_ & _ & H & _).
    apply (H (js "out")); [discriminate | reflexivity].
  - destruct (buildSplitOutputFilePath_names (fun _ => []) (js "out") 2 0)
      as (H & _).
    apply H. reflexivity.
  - destruct (buildSplitOutputFilePath_names trailingExtname (js "a/b.c/") 7
                0) as (_ & H & _).
    apply (H (js "a/b.") (js "c/")); [discriminate | reflexivity..].
Defined.

(** ** Whole runs of the two splitters *)

Section EngineFacts.
Variables GitDiffResult GitLogResult : Type.
Variables GitOther OutputOther ConfigOther : Type.
Variable ExtError : Type.

Local Abbreviation Call :=
  (RenderCall GitDiffResult GitLogResult GitOther OutputOther ConfigOther).
Local Abbreviation Args :=
  (SplitArgs GitDiffResult GitLogResult GitOther OutputOther ConfigOther).
Local Abbreviation Ev :=
  (Event GitDiffResult GitLogResult GitOther OutputOther ConfigOther).
Local Abbreviation Eff :=
  (M GitDiffResult GitLogResult GitOther OutputOther ConfigOther ExtError).

Variable generateOutput : Call -> outcome ExtError jsstring.
Variable taskRun : TokenCountTask -> outcome ExtError Z.
Variable calculateOutputMetrics : jsstring -> jsstring -> outcome ExtError Z.
Variable localeCompare : jsstring -> jsstring -> Z.
Variable extname : jsstring -> jsstring.

Local Abbreviation byBytes :=
  (generateSplitOutputPartsByBytes generateOutput localeCompare extname).
Local Abbreviation byTokens :=
  (generateSplitOutputPartsByTokens generateOutput taskRun
     calculateOutputMetrics extname).
Local Abbreviation entry :=
  (generateSplitOutputParts generateOutput taskRun calculateOutputMetrics
     localeCompare extname).
Local Abbreviation step :=
  (byteStep generateOutput extname).

(** *** Numbers and names of the parts *)

Lemma byteLoop_named (a : Args) maxBytes n gs st t st' t' :
  forEach (step a maxBytes n) gs st t = (Ok st', t') ->
  Forall (namedByIndex extname a) (parts st) ->
  Forall (namedByIndex extname a) (parts st').
Proof.
  intros Hloop Hinit.
  refine (forEach_prefix _ _ _ _ _ _ _
            (fun _ s => Forall (namedByIndex extname a) (parts s))
            _ gs [] st t st' t' Hinit Hloop).
  intros done s x t0 s' t0' Hs Hstep.
  apply byteStep_ok in Hstep
    as [(text & _ & _ & ->)|(alone & _ & _ & _ & ->)]; simpl; [exact Hs|].
  apply Forall_app. split; [exact Hs|]. now repeat constructor.
Qed.

Lemma tokenLoop_named (a : Args) maxTokens total batches :
  forall i acc t ps t',
    tokenLoop generateOutput calculateOutputMetrics extname a maxTokens total
      batches i acc t = (Ok ps, t') ->
    Forall (namedByIndex extname a) acc ->
    Forall (namedByIndex extname a) ps.
Proof.
  induction batches as [|files rest IH]; simpl; intros i acc t ps t' H Hacc.
  - injection H as <- _. exact Hacc.
  - apply bind_ok_inv in H as (p & t1 & Hp & Hrest).
    eapply IH; [exact Hrest|].
    apply Forall_app. split; [exact Hacc|]. constructor; [|constructor].
    rewrite tokenPart_run in Hp. cbv zeta in Hp.
    destruct (await _) as [text|e]; [|discriminate].
    destruct (await _) as [count|e]; [|discriminate].
    destruct (_ && _); [discriminate|].
    injection Hp as <- _. reflexivity.
Qed.

Lemma NoDup_map_injective {A B} (f : A -> B) (l : list A) :
  (forall x y, f x = f y -> x = y) -> NoDup l -> NoDup (List.map f l).
Proof.
  intros Hinj. induction 1 as [|x l Hx Hl IH]; simpl; constructor; auto.
  intros Hin. apply in_map_iff in Hin as (y & E & Hy).
  apply Hinj in E. now subst y.
Qed.

Lemma named_NoDup (a : Args) ps :
  List.map index ps = seq 1 (length ps) ->
  Forall (namedByIndex extname a) ps ->
  NoDup (List.map filePath ps).
Proof.
  intros Hidx Hnamed.
  assert (E : List.map filePath ps =
              List.map (buildSplitOutputFilePath extname
                          (outFilePath (output (baseConfig a))))
                (List.map index ps)).
  { rewrite map_map. apply map_ext_in. intros p Hp.
    rewrite Forall_forall in Hnamed. exact (Hnamed p Hp). }
  rewrite E, Hidx. apply NoDup_map_injective; [|apply seq_NoDup].
  intros i j. apply buildSplitOutputFilePath_inj.
Qed.

(** X6: the parts of a successful split, in either mode, are numbered
    1, 2, ... in order; each is named by [buildSplitOutputFilePath] from the
    configured output path and its number; no two parts share a path. *)
Theorem parts_numbered_and_named
  (a : Args) (budget : Z) (t : list Ev) (ps : list OutputSplitPart)
  (t' : list Ev) :
  byBytes a budget t = (Ok ps, t') \/ byTokens a budget t = (Ok ps, t') ->
  List.map index ps = seq 1 (length ps) /\
  Forall (namedByIndex extname a) ps /\
  NoDup (List.map filePath ps).
Proof.
  intros H.
  assert (Hboth : List.map index ps = seq 1 (length ps) /\
                  Forall (namedByIndex extname a) ps).
  { destruct H as [H|H].
    - split; [now apply byBytes_ok in H as (_ & _ & Hidx)|].
      unfold generateSplitOutputPartsByBytes in H.
      destruct (Nat.eqb _ _); [injection H as <- _; constructor|].
      apply bind_ok_inv in H as (st & t1 & Hloop & Hret).
      injection Hret as <- _.
      apply byteLoop_named in Hloop; [|constructor].
      unfold byteFinish. destruct (Nat.ltb _ _); [|exact Hloop].
      apply Forall_app. split; [exact Hloop|]. now repeat constructor.
    - pose proof H as H'.
      apply byTokens_ok in H' as (counts & _ & Hall & Hidx).
      cbv zeta in Hall, Hidx.
      rewrite (Forall2_length Hall) in Hidx. split; [exact Hidx|].
      unfold generateSplitOutputPartsByTokens, bind at 1, emit, tryFinally
        in H.
      destruct (bind _ _ _) as [r t1] eqn:Ebody in H.
      injection H as -> _.
      unfold bind at 1, progressCallback, emit in Ebody.
      apply bind_ok_inv in Ebody as (counts' & t2 & _ & Hloop).
      apply tokenLoop_named in Hloop; [exact Hloop | constructor]. }
  destruct Hboth as [Hidx Hnamed].
  repeat split; [exact Hidx | exact Hnamed | now apply named_NoDup with a].
Qed.

(** *** Loops *)

Lemma forEach_prefix_trace {A S} (body : S -> A -> Eff S)
  (P : list A -> S -> list Ev -> Prop) :
  (forall done s x t s' t',
      P done s t -> body s x t = (Ok s', t') -> P (done ++ [x]) s' t') ->
  forall l done s t r t',
    P done s t -> forEach body l s t = (Ok r, t') -> P (done ++ l) r t'.
Proof.
  intros Hstep. induction l as [|x l IH]; simpl; intros done s t r t' HP H.
  - unfold ret in H. injection H as <- <-. now rewrite app_nil_r.
  - apply bind_ok_inv in H as (s1 & t1 & H1 & H2).
    replace (done ++ x :: l) with ((done ++ [x]) ++ l)
      by (now rewrite <- app_assoc).
    eapply IH; [|exact H2]. eapply Hstep; eassumption.
Qed.

(** A loop that throws does so in one round, after completed rounds. *)
Lemma forEach_throw_inv {A S} (body : S -> A -> Eff S) l :
  forall s t e t',
    forEach body l s t = (Throw e, t') ->
    exists done x rest s1 t1,
      l = done ++ x :: rest /\
      forEach body done s t = (Ok s1, t1) /\
      body s1 x t1 = (Throw e, t').
Proof.
  induction l as [|x l IH]; simpl; intros s t e t' H; [discriminate|].
  unfold bind in H. destruct (body s x t) as [[s'|e'] t1] eqn:E.
  - apply IH in H as (done & y & rest & s1 & t2 & -> & Hdone & Hy).
    exists (x :: done), y, rest, s1, t2. repeat split; auto.
    simpl. unfold bind. now rewrite E.
  - injection H as <- <-. exists [], x, l, s, t. repeat split; auto.
Qed.

Lemma length_flat_map_nonempty {A B} (f : A -> list B) (l : list A) :
  Forall (fun x => f x <> []) l -> (length l <= length (flat_map f l))%nat.
Proof.
  induction 1 as [|x l Hx Hl IH]; simpl; [lia|].
  rewrite length_app. destruct (f x); [congruence|]. simpl. lia.
Qed.

Lemma countRenders_app (t1 t2 : list Ev) :
  countRenders (t1 ++ t2) = (countRenders t1 + countRenders t2)%nat.
Proof. unfold countRenders. now rewrite filter_app, length_app. Qed.

Lemma adjacent_app_l {A} (R : A -> A -> Prop) (l l' : list A) :
  adjacent R (l ++ l') -> adjacent R l.
Proof.
  induction l as [|x [|y l] IH]; simpl; auto.
  intros [Hxy H]. split; [exact Hxy|]. now apply IH.
Qed.

Lemma adjacent_snoc {A} (R : A -> A -> Prop) (l : list A) (x y : A) :
  adjacent R (l ++ [x]) -> R x y -> adjacent R ((l ++ [x]) ++ [y]).
Proof.
  induction l as [|z [|w l] IH]; simpl; auto.
  - intros [Hzx _] Hxy. auto.
  - intros [Hzw H] Hxy. split; [exact Hzw|]. now apply IH.
Qed.

Lemma adjacent_snoc_change {A} (R : A -> A -> Prop) (l : list A) (x x' : A) :
  adjacent R (l ++ [x]) -> (forall y, R y x -> R y x') ->
  adjacent R (l ++ [x']).
Proof.
  intros H Hx. induction l as [|z [|w l] IH]; simpl in *; auto.
  - destruct H as [Hzx _]. auto.
  - destruct H as [Hzw H]. split; [exact Hzw|]. now apply IH.
Qed.

(** *** The byte splitter: shape of the result *)

Lemma groupFiles_single (g : OutputSplitGroup) :
  groupFiles [g] = processedFiles g.
Proof. unfold groupFiles. simpl. apply app_nil_r. Qed.

(** X7: a successful byte-mode split returns at most one part per root
    entry, and no part exactly when there is no root entry; every part
    embeds at least one group, and reports a token count of 0. *)
Theorem byte_parts_shape
  (a : Args) (maxBytesPerPart : Z) (t : list Ev) (ps : list OutputSplitPart)
  (t' : list Ev) :
  byBytes a maxBytesPerPart t = (Ok ps, t') ->
  let gs := buildOutputSplitGroups localeCompare (argFiles a) (argPaths a) in
  (length ps <= length gs)%nat /\
  (ps = [] <-> gs = []) /\
  Forall (fun p => tokenCount p = 0 /\
                   exists g rest, groups p = Some (g :: rest)) ps.
Proof.
  intros H. apply byBytes_ok in H as (Hcover & Hok & _). cbv zeta in *.
  assert (Hne : Forall (fun p => partGroups p <> []) ps).
  { eapply Forall_impl; [|exact Hok]. now intros p (_ & _ & _ & Hp & _). }
  split; [|split].
  - rewrite <- Hcover. now apply length_flat_map_nonempty.
  - split.
    + intros ->. now rewrite <- Hcover.
    + intros E. rewrite E in Hcover. destruct ps as [|p ps]; [reflexivity|].
      inversion Hne as [|? ? Hp _]. simpl in Hcover.
      destruct (partGroups p); [congruence | discriminate].
  - eapply Forall_impl; [|exact Hok].
    intros p (_ & _ & Htok & Hp & Hg & _). split; [exact Htok|].
    rewrite Hg. destruct (partGroups p) as [|g rest]; [congruence|].
    now exists g, rest.
Qed.

(** *** The byte splitter: failures *)

Lemma await_throw {A} (o : outcome ExtError A) e :
  await o = Throw e -> exists x, o = Failed x /\ e = CollaboratorError x.
Proof.
  destruct o as [v|x]; simpl; [discriminate|].
  intros H. injection H as <-. now exists x.
Qed.

Lemma byBytes_throw (a : Args) maxBytes t e :
  fst (byBytes a maxBytes t) = Throw e ->
  let gs := buildOutputSplitGroups localeCompare (argFiles a) (argPaths a) in
  (exists g idx text,
      In g gs /\ (1 <= idx <= length gs)%nat /\
      generateOutput (renderCallOf a (processedFiles g) idx (length gs)) =
      Returned text /\
      maxBytes < getUtf8ByteLength text /\
      e = RootEntryExceedsMaxSize (rootEntry g) (getUtf8ByteLength text)
            maxBytes) \/
  (exists x files idx,
      generateOutput (renderCallOf a files idx (length gs)) = Failed x /\
      e = CollaboratorError x).
Proof.
  unfold generateSplitOutputPartsByBytes. cbv zeta.
  set (gs := buildOutputSplitGroups localeCompare (argFiles a) (argPaths a)).
  destruct (Nat.eqb (length gs) 0); [discriminate|].
  unfold bind.
  destruct (forEach _ _ _ _) as [[st|e'] t1] eqn:Hloop; [discriminate|].
  simpl. intros E. injection E as ->.
  apply forEach_throw_inv in Hloop
    as (done & g & rest & s1 & t2 & Hgs & Hdone & Hstep).
  assert (Hinv : ByteInv generateOutput a maxBytes (length gs) done s1).
  { change done with ([] ++ done).
    eapply (forEach_prefix _ _ _ _ _ _ _
              (ByteInv generateOutput a maxBytes (length gs)));
      [|apply ByteInv_init | exact Hdone].
    intros d s x t0 s' t0'. apply ByteInv_step. }
  destruct Hinv as (Hcover & Hparts & _ & _).
  assert (Hlen : (length (parts s1) + length (currentGroups s1) <=
                  length done)%nat).
  { rewrite <- Hcover, length_app.
    apply Nat.add_le_mono_r, length_flat_map_nonempty.
    eapply Forall_impl; [|exact Hparts]. now intros p (_ & _ & _ & Hp & _). }
  assert (Hgl : length gs = (length done + S (length rest))%nat).
  { rewrite Hgs, length_app. reflexivity. }
  assert (Hin : In g gs).
  { rewrite Hgs. apply in_or_app. right. now left. }
  pose proof (byteStep_run _ _ _ _ _ _ generateOutput extname a maxBytes
                (length gs) s1 g t2) as Hrun.
  rewrite Hstep in Hrun. simpl fst in Hrun. unfold trial in Hrun.
  destruct (generateOutput
              (renderCallOf a (groupFiles (currentGroups s1 ++ [g]))
                 (S (length (parts s1))) (length gs)))
    as [text|x] eqn:E1; cbn [await] in Hrun.
  - destruct (getUtf8ByteLength text <=? maxBytes) eqn:Ele; [discriminate|].
    apply Z.leb_gt in Ele.
    destruct (currentGroups s1) as [|g0 cur] eqn:Ecur;
      cbn [length Nat.eqb] in Hrun.
    + injection Hrun as ->. left. exists g, (S (length (parts s1))), text.
      change ([] ++ [g]) with [g] in E1.
      rewrite groupFiles_single in E1. simpl in Hlen.
      repeat split; auto; lia.
    + destruct (generateOutput
                  (renderCallOf a (groupFiles [g]) (S (S (length (parts s1))))
                     (length gs))) as [alone|x] eqn:E2; cbn [await] in Hrun.
      * destruct (maxBytes <? getUtf8ByteLength alone) eqn:Elt;
          [|discriminate].
        apply Z.ltb_lt in Elt. injection Hrun as ->. left.
        exists g, (S (S (length (parts s1)))), alone.
        rewrite groupFiles_single in E2. simpl in Hlen.
        repeat split; auto; lia.
      * injection Hrun as ->. right. eexists x, _, _. split; [exact E2|].
        reflexivity.
  - injection Hrun as ->. right. eexists x, _, _. split; [exact E1|].
    reflexivity.
Qed.

(** X8: a failed byte-mode split either reports a root entry of the input
    whose files, rendered alone as some part, measure more than the budget
    -- with that measure and the budget in the error -- or hands on a
    failure of the renderer.  Hence the split succeeds whenever the renderer
    answers every call and every root entry rendered alone fits the
    budget. *)
Theorem byte_split_failures
  (a : Args) (maxBytesPerPart : Z) (t : list Ev) :
  let gs := buildOutputSplitGroups localeCompare (argFiles a) (argPaths a) in
  (forall e,
      fst (byBytes a maxBytesPerPart t) = Throw e ->
      (exists g idx text,
          In g gs /\ (1 <= idx <= length gs)%nat /\
          generateOutput
            (renderCallOf a (processedFiles g) idx (length gs)) =
          Returned text /\
          maxBytesPerPart < getUtf8ByteLength text /\
          e = RootEntryExceedsMaxSize (rootEntry g) (getUtf8ByteLength text)
                maxBytesPerPart) \/
      (exists x files idx,
          generateOutput (renderCallOf a files idx (length gs)) = Failed x /\
          e = CollaboratorError x)) /\
  ((forall call, exists text, generateOutput call = Returned text) ->
   (forall g idx text,
       In g gs -> (1 <= idx <= length gs)%nat ->
       generateOutput (renderCallOf a (processedFiles g) idx (length gs)) =
       Returned text ->
       getUtf8ByteLength text <= maxBytesPerPart) ->
   exists ps, fst (byBytes a maxBytesPerPart t) = Ok ps).
Proof.
  cbv zeta. split.
  - intros e. apply byBytes_throw.
  - intros Hrender Hfit.
    destruct (fst (byBytes a maxBytesPerPart t)) as [ps|e] eqn:E;
      [now exists ps|].
    exfalso. apply byBytes_throw in E
      as [(g & idx & text & Hin & Hidx & Hr & Hlt & _)|(x & fs & idx & Hr & _)].
    + specialize (Hfit g idx text Hin Hidx Hr). lia.
    + destruct (Hrender (renderCallOf a fs idx
                  (length (buildOutputSplitGroups localeCompare (argFiles a)
                             (argPaths a))))) as (text & Ht).
      congruence.
Qed.

(** *** The byte splitter: why parts are closed, and what a run costs *)

(** The two ways a round of the loop can complete, with the renders made. *)
Lemma byteStep_success (a : Args) maxBytes n st g t st' t' :
  step a maxBytes n st g t = (Ok st', t') ->
  (exists text,
      trial generateOutput a n (currentGroups st ++ [g])
        (S (length (parts st))) = Ok text /\
      st' = {| parts := parts st;
               currentGroups := currentGroups st ++ [g];
               currentContent := text;
               currentBytes := getUtf8ByteLength text |} /\
      countRenders t' = S (countRenders t)) \/
  (exists text alone,
      trial generateOutput a n (currentGroups st ++ [g])
        (S (length (parts st))) = Ok text /\
      maxBytes < getUtf8ByteLength text /\
      st' = {| parts := parts st ++
                        [closePart extname a st (S (length (parts st)))];
               currentGroups := [g];
               currentContent := alone;
               currentBytes := getUtf8ByteLength alone |} /\
      countRenders t' = S (S (countRenders t))).
Proof.
  unfold byteStep, bind, progressCallback, emit. rewrite renderGroups_run.
  rewrite Nat.add_1_r.
  destruct (trial generateOutput a n (currentGroups st ++ [g])
              (S (length (parts st)))) as [text|e] eqn:Et; [|discriminate].
  destruct (getUtf8ByteLength text <=? maxBytes) eqn:Ele.
  - intros H. injection H as <- <-. left. exists text. auto.
  - destruct (Nat.eqb (length (currentGroups st)) 0) eqn:Elen;
      [discriminate|].
    rewrite renderGroups_run, length_app, Nat.add_1_r. simpl.
    rewrite Nat.add_1_r.
    destruct (trial generateOutput a n [g] (S (S (length (parts st)))))
      as [alone|e] eqn:Ea; [|discriminate].
    destruct (maxBytes <? getUtf8ByteLength alone) eqn:Elt; [discriminate|].
    intros H. injection H as <- <-. right. exists text, alone.
    apply Z.leb_gt in Ele. auto.
Qed.

Lemma closedByOverflow_grow (a : Args) maxBytes n p k cur g :
  closedByOverflow generateOutput a maxBytes n p (k, cur) ->
  closedByOverflow generateOutput a maxBytes n p (k, cur ++ [g]).
Proof.
  intros (g0 & rest & text & E & Hr & Hlt). simpl in E. subst cur.
  exists g0, (rest ++ [g]), text. auto.
Qed.

(** X9: in a successful byte-mode split a part is closed only for want of
    room: for any two consecutive parts, the groups of the first together
    with the first group of the second were rendered under the number of the
    first, and that render measured more than the budget. *)
Theorem byte_parts_closed_by_overflow
  (a : Args) (maxBytesPerPart : Z) (t : list Ev) (ps : list OutputSplitPart)
  (t' : list Ev) :
  byBytes a maxBytesPerPart t = (Ok ps, t') ->
  let gs := buildOutputSplitGroups localeCompare (argFiles a) (argPaths a) in
  adjacent (closedByOverflow generateOutput a maxBytesPerPart (length gs))
    (List.map partView ps).
Proof.
  unfold generateSplitOutputPartsByBytes. cbv zeta.
  set (gs := buildOutputSplitGroups localeCompare (argFiles a) (argPaths a)).
  set (R := closedByOverflow generateOutput a maxBytesPerPart (length gs)).
  destruct (Nat.eqb (length gs) 0); [intros H; injection H as <- _; exact I|].
  intros H. apply bind_ok_inv in H as (st & t1 & Hloop & Hret).
  injection Hret as <- _.
  assert (Hinv : adjacent R (List.map partView (parts st) ++
                             [(S (length (parts st)), currentGroups st)])).
  { refine (forEach_prefix _ _ _ _ _ _ _
              (fun _ s =>
                 adjacent R (List.map partView (parts s) ++
                             [(S (length (parts s)), currentGroups s)]))
              _ gs [] byteInit t st t1 I Hloop).
    intros done s x t0 s' t0' Hs Hstep.
    apply byteStep_success in Hstep
      as [(text & _ & -> & _)|(text & alone & Etext & Hlt & -> & _)];
      cbn [parts currentGroups].
    - eapply adjacent_snoc_change; [exact Hs|].
      intros y. apply closedByOverflow_grow.
    - rewrite map_app, length_app. cbn [List.map length].
      rewrite Nat.add_1_r. apply adjacent_snoc; [exact Hs|].
      exists x, [], text. repeat split; auto.
      unfold trial in Etext. now apply await_ok in Etext. }
  unfold byteFinish. destruct (Nat.ltb _ _).
  - rewrite map_app, Nat.add_1_r. exact Hinv.
  - now apply adjacent_app_l in Hinv.
Qed.

Lemma emitsByte_step (a : Args) maxBytes n st g :
  emitsOnly (@isByteEvent _ _ _ _ _) (step a maxBytes n st g).
Proof.
  assert (Hp : forall msg,
             emitsOnly (@isByteEvent _ _ _ _ _)
               (progressCallback msg : Eff unit)).
  { intros msg. apply emitsOnly_emit. exact I. }
  assert (Hr : forall gs idx,
             emitsOnly (@isByteEvent _ _ _ _ _)
               (renderGroups generateOutput a n gs idx)).
  { intros gs idx t. eexists [_]. split; [reflexivity|].
    now repeat constructor. }
  unfold byteStep.
  apply emitsOnly_bind; [apply Hp | intros _].
  apply emitsOnly_bind; [apply Hr | intros text].
  destruct (_ <=? _); [apply emitsOnly_ret|].
  destruct (Nat.eqb _ _); [apply emitsOnly_throw|].
  apply emitsOnly_bind; [apply Hp | intros _].
  apply emitsOnly_bind; [apply Hr | intros alone].
  destruct (_ <? _); [apply emitsOnly_throw | apply emitsOnly_ret].
Qed.

(** X10: the byte splitter, whatever its outcome, only reports progress
    and calls the renderer: it starts no worker pool and counts no tokens.
    A successful split over [n] root entries into [k] parts has called the
    renderer [n + k - 1] times: once per root entry, and once more for every
    part closed before the last. *)
Theorem byte_split_renders
  (a : Args) (maxBytesPerPart : Z) (t : list Ev) :
  let gs := buildOutputSplitGroups localeCompare (argFiles a) (argPaths a) in
  exists new,
    snd (byBytes a maxBytesPerPart t) = new ++ t /\
    Forall (@isByteEvent _ _ _ _ _) new /\
    forall ps,
      fst (byBytes a maxBytesPerPart t) = Ok ps ->
      countRenders new = (length gs + length ps - 1)%nat.
Proof.
  cbv zeta.
  assert (Hemits : emitsOnly (@isByteEvent _ _ _ _ _)
                     (byBytes a maxBytesPerPart)).
  { unfold generateSplitOutputPartsByBytes.
    destruct (Nat.eqb _ _); [apply emitsOnly_ret|].
    apply emitsOnly_bind; [|intros st; apply emitsOnly_ret].
    apply emitsOnly_forEach. intros s x. apply emitsByte_step. }
  destruct (Hemits t) as (new & Hnew & Hall).
  exists new. split; [exact Hnew|]. split; [exact Hall|].
  intros ps Hps.
  assert (Hcount : countRenders (snd (byBytes a maxBytesPerPart t)) =
                   (countRenders t +
                    (length (buildOutputSplitGroups localeCompare (argFiles a)
                               (argPaths a)) + length ps - 1))%nat).
  { clear new Hnew Hall Hemits. revert Hps.
    unfold generateSplitOutputPartsByBytes.
    set (gs := buildOutputSplitGroups localeCompare (argFiles a)
                 (argPaths a)).
    destruct (Nat.eqb (length gs) 0) eqn:Elen.
    - intros H. injection H as <-. apply Nat.eqb_eq in Elen.
      rewrite Elen. simpl. lia.
    - unfold bind.
      destruct (forEach _ _ _ _) as [[st|e] t1] eqn:Hloop; [|discriminate].
      simpl. intros H. injection H as <-.
      assert (Hinv : countRenders t1 =
                     (countRenders t + length gs + length (parts st))%nat /\
                     (gs <> [] -> currentGroups st <> [])).
      { refine (forEach_prefix_trace _
                  (fun done s tc =>
                     countRenders tc =
                     (countRenders t + length done + length (parts s))%nat /\
                     (done <> [] -> currentGroups s <> []))
                  _ gs [] byteInit t st t1 _ Hloop).
        - intros done s x t0 s' t0' [Hc _] Hstep.
          apply byteStep_success in Hstep
            as [(text & _ & -> & Ht)|(text & alone & _ & _ & -> & Ht)];
            cbn [parts currentGroups]; rewrite Ht, Hc, !length_app;
            simpl; (split; [lia|]); intros _ E.
          + now apply app_eq_nil in E as [_ E].
          + discriminate.
        - simpl. split; [lia | congruence]. }
      destruct Hinv as [Hc Hcur]. rewrite Hc. unfold byteFinish.
      destruct (currentGroups st) as [|g cur] eqn:Ecur.
      + exfalso. apply Hcur; [|reflexivity]. intros E. rewrite E in Elen.
        discriminate.
      + simpl. rewrite length_app. simpl. lia. }
  rewrite Hnew, countRenders_app in Hcount. lia.
Qed.

(** *** The token splitter: the worker pool and the order of the calls *)

Lemma emitsWork_estimate (a : Args) files :
  emitsOnly (@isWork _ _ _ _ _) (promiseAll (countFile taskRun a) files).
Proof.
  apply emitsOnly_promiseAll. intros f. unfold countFile.
  apply emitsOnly_bind; [|intros c; apply emitsOnly_ret].
  intros t. eexists [_]. split; [reflexivity|]. now repeat constructor.
Qed.

Lemma emitsWork_tokenLoop (a : Args) maxTokens total batches :
  forall i acc,
    emitsOnly (@isWork _ _ _ _ _)
      (tokenLoop generateOutput calculateOutputMetrics extname a maxTokens
         total batches i acc).
Proof.
  induction batches as [|files rest IH]; intros i acc; simpl.
  - apply emitsOnly_ret.
  - apply emitsOnly_bind; [|intros p; apply IH].
    unfold tokenPart. apply emitsOnly_bind.
    + intros t. eexists [_]. split; [reflexivity|]. now repeat constructor.
    + intros text. apply emitsOnly_bind.
      * intros t. eexists [_]. split; [reflexivity|]. now repeat constructor.
      * intros count. destruct (_ && _);
          [apply emitsOnly_throw | apply emitsOnly_ret].
Qed.

(** X11: whatever the outcome of a token-mode split -- parts, the
    token-limit error or a failure of a collaborator -- the worker pool is
    started before anything else happens and released after everything
    else, each exactly once. *)
Theorem token_worker_pool_lifecycle
  (a : Args) (maxTokensPerPart : Z) (t : list Ev) :
  exists mid,
    snd (byTokens a maxTokensPerPart t) =
    EvCleanup :: mid ++ EvInitTaskRunner :: t /\
    Forall (@isWork _ _ _ _ _) mid.
Proof.
  rewrite byTokens_run. cbv zeta.
  destruct (emitsWork_estimate a (argFiles a)
              (EvProgress MsgPreCalculating :: EvInitTaskRunner :: t))
    as (newE & HnewE & FE).
  destruct (fst (promiseAll _ _ _)) as [counts|e].
  - match goal with
    | |- context [tokenLoop _ _ _ _ _ ?total ?batches ?i ?acc ?t1] =>
        destruct (emitsWork_tokenLoop a maxTokensPerPart total batches i acc
                    t1) as (newL & HnewL & FL)
    end.
    exists (newL ++ newE ++ [EvProgress MsgPreCalculating]).
    cbn [snd]. rewrite HnewL, HnewE, <- !app_assoc. split; [reflexivity|].
    apply Forall_app. split; [exact FL|].
    apply Forall_app. split; [exact FE|]. now repeat constructor.
  - exists (newE ++ [EvProgress MsgPreCalculating]).
    cbn [snd]. rewrite HnewE, <- !app_assoc. split; [reflexivity|].
    apply Forall_app. split; [exact FE|]. now repeat constructor.
Qed.

Lemma promiseAll_countFile_trace (a : Args) files :
  forall t,
    snd (promiseAll (countFile taskRun a) files t) =
    rev (List.map (fun f => EvTaskRun (taskOf a f)) files) ++ t.
Proof.
  induction files as [|f files IH]; intros t; [reflexivity|].
  cbn [promiseAll List.map rev].
  unfold countFile at 1, bind, callTaskRun, ret.
  destruct (await (taskRun _)) as [c|e];
    match goal with
    | |- context [promiseAll ?g files ?t1] =>
        specialize (IH t1); destruct (promiseAll g files t1) as [rs t2]
    end; cbn [snd] in *; subst t2; now rewrite <- app_assoc.
Qed.

Lemma tokenLoop_trace (a : Args) maxTokens total batches :
  forall i acc t ps t',
    tokenLoop generateOutput calculateOutputMetrics extname a maxTokens total
      batches i acc t = (Ok ps, t') ->
    exists new,
      ps = acc ++ new /\
      t' = rev (flat_map (partEvents a total) (combine batches new)) ++ t.
Proof.
  induction batches as [|files rest IH]; simpl; intros i acc t ps t' H.
  - injection H as <- <-. exists []. now rewrite app_nil_r.
  - apply bind_ok_inv in H as (p & t1 & Hp & Hrest).
    apply IH in Hrest as (new & -> & ->).
    exists (p :: new). rewrite <- app_assoc. split; [reflexivity|].
    rewrite tokenPart_run in Hp. cbv zeta in Hp.
    destruct (await (generateOutput _)) as [text|e]; [|discriminate].
    destruct (await (calculateOutputMetrics _ _)) as [count|e];
      [|discriminate].
    destruct (_ && _); [discriminate|].
    injection Hp as <- <-. cbn [combine flat_map].
    rewrite rev_app_distr, <- app_assoc. reflexivity.
Qed.

(** X12: the calls of a successful token-mode split, in order: the worker
    pool is started and the progress message sent; every selected file is
    submitted to the tokenizer once, in input order; every batch is rendered
    once under its part number and the result measured once, batch after
    batch; the worker pool is released. *)
Theorem token_run_events
  (a : Args) (maxTokensPerPart : Z) (t : list Ev)
  (ps : list OutputSplitPart) (t' : list Ev) :
  byTokens a maxTokensPerPart t = (Ok ps, t') ->
  exists counts,
    estimateAll taskRun a (argFiles a) = Ok counts /\
    let batches := packFiles maxTokensPerPart (newMap counts) (argFiles a) in
    length ps = length batches /\
    t' = rev (tokenRunEvents a batches ps) ++ t.
Proof.
  intros Hrun. pose proof Hrun as Hok.
  apply byTokens_ok in Hok as (counts0 & Hest0 & Hall & _).
  apply Forall2_length in Hall. revert Hrun.
  rewrite byTokens_run. cbv zeta.
  rewrite promiseAll_countFile, promiseAll_countFile_trace.
  destruct (estimateAll taskRun a (argFiles a)) as [counts|e];
    [|discriminate].
  intros H. exists counts. split; [reflexivity|].
  injection Hest0 as <-. split; [now symmetry|].
  destruct (tokenLoop _ _ _ _ _ _ _ _ _ _) as [r t1] eqn:Hloop.
  cbn [fst snd] in H. injection H as -> <-.
  apply tokenLoop_trace in Hloop as (new & -> & ->).
  unfold tokenRunEvents. rewrite !rev_app_distr. cbn [app rev].
  rewrite <- !app_assoc. reflexivity.
Qed.

(** *** The token splitter: estimates *)

Lemma newMap_keeps {V} (k : jsstring) (pairs : list (jsstring * V)) :
  forall m,
    ~ In k (List.map fst pairs) ->
    map_get k (fold_left (fun m kv => map_set (fst kv) (snd kv) m) pairs m) =
    map_get k m.
Proof.
  induction pairs as [|[k' v] pairs IH]; simpl; intros m Hk; [reflexivity|].
  rewrite IH by (intros H; apply Hk; now right). apply map_get_set_other. intros E. apply Hk. now left.
Qed.

Lemma newMap_last {V} (k : jsstring) (v : V) (pre post : list (jsstring * V)) :
  ~ In k (List.map fst post) ->
  map_get k (newMap (pre ++ (k, v) :: post)) = Some v.
Proof.
  intros Hk. unfold newMap. rewrite fold_left_app. simpl.
  rewrite newMap_keeps by exact Hk. apply map_get_set_same.
Qed.

Lemma estimateAll_ok (a : Args) files :
  forall counts,
    estimateAll taskRun a files = Ok counts ->
    Forall2 (fun f kv => fst kv = path f /\
                         taskRun (taskOf a f) = Returned (snd kv))
      files counts.
Proof.
  induction files as [|f files IH]; simpl; intros counts H.
  - injection H as <-. constructor.
  - fold (taskOf a f) in H.
    destruct (taskRun (taskOf a f)) as [c|e] eqn:Ec; simpl in H;
      destruct (estimateAll taskRun a files) as [cs|e']; try discriminate.
    injection H as <-. constructor; [now split | now apply IH].
Qed.

(** X13: when the pre-estimate succeeds, the tokenizer has answered for
    every selected file, and the packing loop charges a file the answer
    given for the last selected file of the same path, plus 20: its own
    estimate when the paths are distinct, another file's when a path
    occurs twice. *)
Theorem estimates_are_looked_up_by_path
  (a : Args) (files : list ProcessedFile) (counts : list (jsstring * Z)) :
  estimateAll taskRun a files = Ok counts ->
  Forall2 (fun f kv => fst kv = path f /\
                       taskRun (taskOf a f) = Returned (snd kv))
    files counts /\
  (forall pre f post c g,
      files = pre ++ f :: post ->
      ~ In (path f) (List.map path post) ->
      taskRun (taskOf a f) = Returned c ->
      path g = path f ->
      fileTokens (newMap counts) g = c + 20) /\
  (NoDup (List.map path files) ->
   forall f c,
     In f files -> taskRun (taskOf a f) = Returned c ->
     fileTokens (newMap counts) f = c + 20).
Proof.
  intros H. apply estimateAll_ok in H.
  assert (Hlast : forall pre f post c g,
             files = pre ++ f :: post ->
             ~ In (path f) (List.map path post) ->
             taskRun (taskOf a f) = Returned c ->
             path g = path f ->
             fileTokens (newMap counts) g = c + 20).
  { intros pre f post c g -> Hnot Hc Hg.
    apply Forall2_app_inv_l in H as (cpre & cs & _ & Hcs & ->).
    inversion Hcs as [|? [k v] ? cpost [Hk Hv] Hpost]; subst.
    simpl in Hk, Hv. subst k. rewrite Hc in Hv. injection Hv as <-.
    assert (Hkeys : List.map fst cpost = List.map path post).
    { clear -Hpost. induction Hpost as [|x y l l' [E _] _ IH]; simpl;
        [reflexivity | now rewrite E, IH]. }
    unfold fileTokens. rewrite Hg, newMap_last by now rewrite Hkeys.
    unfold orZero, overheadPerFile. destruct (c =? 0) eqn:E; [|reflexivity].
    apply Z.eqb_eq in E. lia. }
  split; [exact H|]. split; [exact Hlast|].
  intros Hnd f c Hin Hc.
  apply in_split in Hin as (pre & post & ->).
  apply (Hlast pre f post c f eq_refl); auto.
  rewrite map_app in Hnd. apply NoDup_remove_2 in Hnd.
  intros Hin. apply Hnd. apply in_or_app. now right.
Qed.

(** *** Failures of the collaborators and errors of the engine *)

Local Abbreviation verdictOf :=
  (verdict generateOutput taskRun calculateOutputMetrics).
Local Abbreviation runsWith :=
  (runs generateOutput taskRun calculateOutputMetrics).
Local Abbreviation isAnswered :=
  (answered generateOutput taskRun calculateOutputMetrics).

Lemma verdict_app {A} Q (r : result ExtError A) (n1 n2 : list Ev) :
  Forall isAnswered n1 -> verdictOf Q r n2 -> verdictOf Q r (n2 ++ n1).
Proof.
  intros H1. destruct r as [x|[]]; simpl;
    try (intros [HQ H2]; split; [exact HQ|]); try intros H2;
    try (apply Forall_app; now split).
  apply Exists_app. now left.
Qed.

Lemma runs_weaken {A} (Q Q' : SplitError ExtError -> Prop) (m : Eff A) :
  (forall e, Q e -> Q' e) -> runsWith Q m -> runsWith Q' m.
Proof.
  intros HQ Hm t. destruct (Hm t) as (new & E & V). exists new.
  split; [exact E|]. destruct (fst (m t)) as [x|[]]; simpl in *; auto;
    destruct V; auto.
Qed.

Lemma runs_ret {A} Q (x : A) : runsWith Q (ret x).
Proof. intros t. exists []. split; [reflexivity | constructor]. Qed.

Lemma runs_throw {A} (Q : SplitError ExtError -> Prop) e :
  Q e -> (forall x, e <> CollaboratorError x) ->
  runsWith Q (throw e : Eff A).
Proof.
  intros HQ Hne t. exists []. split; [reflexivity|].
  destruct e; simpl; try (split; [exact HQ | constructor]).
  now elim (Hne e).
Qed.

Lemma runs_emit Q ev : isAnswered ev -> runsWith Q (emit ev).
Proof.
  intros H t. exists [ev]. split; [reflexivity|]. simpl. now constructor.
Qed.

Lemma runs_bind {A B} Q (m : Eff A) (f : A -> Eff B) :
  runsWith Q m -> (forall x, runsWith Q (f x)) ->
  runsWith Q (bind m f).
Proof.
  intros Hm Hf t. unfold bind.
  destruct (Hm t) as (n1 & E1 & V1).
  destruct (m t) as [[x|e] t1]; simpl in E1, V1; subst t1.
  - destruct (Hf x (n1 ++ t)) as (n2 & E2 & V2).
    exists (n2 ++ n1). rewrite E2, app_assoc. split; [reflexivity|].
    now apply verdict_app.
  - exists n1. split; [reflexivity | exact V1].
Qed.

Lemma runs_forEach {A S} Q (body : S -> A -> Eff S) l :
  (forall s x, runsWith Q (body s x)) ->
  forall s, runsWith Q (forEach body l s).
Proof.
  intros Hb. induction l as [|x l IH]; intros s; simpl.
  - apply runs_ret.
  - apply runs_bind; [apply Hb | exact IH].
Qed.

Lemma runs_tryFinally Q {A} (body : Eff A) ev :
  runsWith Q body -> isAnswered ev ->
  runsWith Q (tryFinally body (emit ev)).
Proof.
  intros Hb Hev t. unfold tryFinally, emit.
  destruct (Hb t) as (n1 & E1 & V1).
  destruct (body t) as [r t1]; simpl in E1, V1; subst t1.
  exists (ev :: n1). split; [reflexivity|]. simpl.
  destruct r as [x|[]]; simpl in *;
    try (destruct V1 as [HQ V1]; split; [exact HQ|]);
    first [now apply Forall_cons | now apply Exists_cons_tl].
Qed.

Lemma runs_promiseAll {A B} (f : A -> Eff B) l :
  (forall x, runsWith (fun _ => False) (f x)) ->
  runsWith (fun _ => False) (promiseAll f l).
Proof.
  intros Hf. induction l as [|x l IH]; intros t; simpl.
  - exists []. split; [reflexivity | constructor].
  - destruct (Hf x t) as (n1 & E1 & V1).
    destruct (f x t) as [r t1]; simpl in E1, V1; subst t1.
    destruct (IH (n1 ++ t)) as (n2 & E2 & V2).
    destruct (promiseAll f l (n1 ++ t)) as [rs t2]; simpl in E2, V2; subst t2.
    exists (n2 ++ n1). rewrite app_assoc. split; [reflexivity|]. simpl.
    destruct r as [b|[]]; simpl in V1; try (now destruct V1).
    + destruct rs as [bs|[]]; simpl in V2 |- *; try (now destruct V2).
      * apply Forall_app. now split.
      * apply Exists_app. now left.
    + apply Exists_app. now right.
Qed.

Lemma runs_generateOutput Q call :
  runsWith Q (callGenerateOutput generateOutput call).
Proof.
  intros t. exists [EvGenerateOutput call]. split; [reflexivity|].
  unfold callGenerateOutput. simpl.
  destruct (generateOutput call) as [text|x] eqn:E; simpl.
  - constructor; [|constructor]. simpl. now exists text.
  - now constructor.
Qed.

Lemma runs_taskRun Q task : runsWith Q (callTaskRun taskRun task).
Proof.
  intros t. exists [EvTaskRun task]. split; [reflexivity|].
  unfold callTaskRun. simpl.
  destruct (taskRun task) as [c|x] eqn:E; simpl.
  - constructor; [|constructor]. simpl. now exists c.
  - now constructor.
Qed.

Lemma runs_calculateOutputMetrics Q text encoding :
  runsWith Q
    (callCalculateOutputMetrics calculateOutputMetrics text encoding).
Proof.
  intros t. exists [EvCalculateOutputMetrics text encoding].
  split; [reflexivity|]. unfold callCalculateOutputMetrics. simpl.
  destruct (calculateOutputMetrics text encoding) as [c|x] eqn:E; simpl.
  - constructor; [|constructor]. simpl. now exists c.
  - now constructor.
Qed.

Lemma runs_byBytes (a : Args) maxBytes :
  runsWith (fun e => exists r m, e = RootEntryExceedsMaxSize r m maxBytes)
    (byBytes a maxBytes).
Proof.
  unfold generateSplitOutputPartsByBytes.
  destruct (Nat.eqb _ _); [apply runs_ret|].
  apply runs_bind; [|intros st; apply runs_ret].
  apply runs_forEach. intros st g. unfold byteStep.
  apply runs_bind; [now apply runs_emit | intros _].
  apply runs_bind; [apply runs_generateOutput | intros text].
  destruct (_ <=? _); [apply runs_ret|].
  destruct (Nat.eqb _ _); [apply runs_throw; [eauto | discriminate]|].
  apply runs_bind; [now apply runs_emit | intros _].
  apply runs_bind; [apply runs_generateOutput | intros alone].
  destruct (_ <? _); [apply runs_throw; [eauto | discriminate]|].
  apply runs_ret.
Qed.

Lemma runs_byTokens (a : Args) maxTokens :
  runsWith (fun e => exists p m, e = FileExceedsMaxTokens p m maxTokens)
    (byTokens a maxTokens).
Proof.
  unfold generateSplitOutputPartsByTokens.
  apply runs_bind; [now apply runs_emit | intros _].
  apply runs_tryFinally; [|exact I].
  apply runs_bind; [now apply runs_emit | intros _].
  apply runs_bind.
  - apply runs_weaken with (Q := fun _ => False); [tauto|].
    apply runs_promiseAll. intros f. unfold countFile.
    apply runs_bind; [apply runs_taskRun | intros c; apply runs_ret].
  - intros counts.
    generalize (packFiles maxTokens (newMap counts) (argFiles a)) at 2.
    generalize (length (packFiles maxTokens (newMap counts) (argFiles a))).
    intros total batches. generalize 0%nat, (@nil OutputSplitPart).
    induction batches as [|files rest IH]; intros i acc; simpl.
    + apply runs_ret.
    + apply runs_bind; [|intros p; apply IH].
      unfold tokenPart.
      apply runs_bind; [apply runs_generateOutput | intros text].
      apply runs_bind; [apply runs_calculateOutputMetrics | intros count].
      destruct (_ && _); [apply runs_throw; [eauto | discriminate]|].
      apply runs_ret.
Qed.

Lemma runs_entry (a : Args) maxBytes maxTokens :
  runsWith (errorFits maxBytes maxTokens) (entry a maxBytes maxTokens).
Proof.
  unfold generateSplitOutputParts.
  apply runs_bind.
  { destruct maxBytes as [n|]; [|apply runs_ret].
    destruct (invalidBudget n) eqn:E; [|apply runs_ret].
    apply runs_throw; [now split | discriminate]. }
  intros _. apply runs_bind.
  { destruct maxTokens as [n|]; [|apply runs_ret].
    destruct (invalidBudget n) eqn:E; [|apply runs_ret].
    apply runs_throw; [now split | discriminate]. }
  intros _. destruct maxTokens as [n|].
  - eapply runs_weaken; [|apply runs_byTokens].
    intros e (p & m & ->). simpl. now exists n.
  - destruct maxBytes as [n|]; [|apply runs_ret].
    eapply runs_weaken; [|apply runs_byBytes].
    intros e (r & m & ->). simpl. split; [reflexivity | now exists n].
Qed.

(** X16: a failure of the renderer or of a tokenizer reaches the caller
    of the entry point as it is, and the engine invents none: when the run
    throws a collaborator's failure, a call made during the run failed that
    way; in every other outcome -- parts or an error of the engine -- each
    collaborator call made during the run was answered. *)
Theorem collaborator_failures_are_handed_on
  (a : Args) (maxBytes maxTokens : option JsNumber) (t : list Ev) :
  exists new,
    snd (entry a maxBytes maxTokens t) = new ++ t /\
    (forall x,
        fst (entry a maxBytes maxTokens t) = Throw (CollaboratorError x) ->
        Exists (failedWith generateOutput taskRun calculateOutputMetrics x)
          new) /\
    ((forall x,
         fst (entry a maxBytes maxTokens t) <> Throw (CollaboratorError x)) ->
     Forall isAnswered new).
Proof.
  destruct (runs_entry a maxBytes maxTokens t) as (new & E & V).
  exists new. split; [exact E|].
  destruct (fst (entry a maxBytes maxTokens t)) as [ps|[]]; simpl in V;
    (split; [intros x Hx; try discriminate | intros Hne]);
    try (now destruct V); try exact V.
  - injection Hx as <-. exact V.
  - now elim (Hne e).
Qed.

(** X17: the errors of the entry point fit the budgets it was given: an
    invalid-budget error names a budget that was supplied and is invalid;
    the root-entry error occurs only with a byte budget and no token
    budget, the file error only with a token budget, and each carries the
    budget as its limit. *)
Theorem errors_fit_the_mode
  (a : Args) (maxBytes maxTokens : option JsNumber) (t : list Ev)
  (e : SplitError ExtError) :
  fst (entry a maxBytes maxTokens t) = Throw e ->
  errorFits maxBytes maxTokens e.
Proof.
  intros H. destruct (runs_entry a maxBytes maxTokens t) as (new & _ & V).
  rewrite H in V. destruct e; simpl in V |- *;
    first [exact I | now destruct V].
Qed.

(** X18: once a valid token budget is given the byte budget has no say:
    the entry point runs the token splitter, whatever valid byte budget
    comes with it; the byte splitter runs only when no token budget is
    given. *)
Theorem token_budget_takes_precedence
  (a : Args) (maxBytes : option JsNumber) (n : JsNumber) (t : list Ev) :
  positiveSafeInteger n ->
  (forall b, maxBytes = Some b -> positiveSafeInteger b) ->
  entry a maxBytes (Some n) t = byTokens a (numberValue n) t /\
  entry a (Some n) None t = byBytes a (numberValue n) t.
Proof.
  intros Hn Hb. apply invalidBudget_false in Hn.
  unfold generateSplitOutputParts, bind. rewrite Hn. split; [|reflexivity].
  destruct maxBytes as [b|]; [|reflexivity].
  specialize (Hb b eq_refl). apply invalidBudget_false in Hb.
  now rewrite Hb.
Qed.

(** *** When the token splitter succeeds *)

Lemma byTokens_file_error (a : Args) maxTokens t p m l :
  fst (byTokens a maxTokens t) = Throw (FileExceedsMaxTokens p m l) ->
  exists f idx total text,
    In f (argFiles a) /\ p = path f /\
    generateOutput (renderCallOf a [f] idx total) = Returned text /\
    calculateOutputMetrics text (encodingOf a) = Returned m /\
    maxTokens < m.
Proof.
  rewrite byTokens_run. cbv zeta. rewrite promiseAll_countFile.
  destruct (estimateAll taskRun a (argFiles a)) as [counts|e] eqn:Eest;
    cbn [fst].
  - set (batches := packFiles maxTokens (newMap counts) (argFiles a)).
    match goal with
    | |- fst (tokenLoop _ _ _ _ _ _ _ ?i ?acc ?t1) = _ -> _ =>
        destruct (emitsOnly_tokenLoop _ _ _ _ _ _ generateOutput
                    calculateOutputMetrics extname a maxTokens
                    (length batches) batches i acc t1) as (newL & HnewL & _);
        intros H;
        apply (proj1 (tokenLoop_error _ _ _ _ _ _ generateOutput
                        calculateOutputMetrics extname a maxTokens
                        (length batches) batches i acc t1 newL p m l HnewL))
          in H
    end.
    destruct H as (j & f & Hnth & (text & _ & Hr & Hm & Hlt) & -> & ->).
    exists f, (0 + j + 1)%nat, (length batches), text.
    repeat split; auto.
    rewrite <- (proj1 (packFiles_ok maxTokens (newMap counts) (argFiles a))).
    apply in_concat. exists [f]. split; [|now left].
    eapply nth_error_In. exact Hnth.
  - intros H. apply estimateAll_throw in Eest as (x & ->). discriminate.
Qed.

(** X19: the token-mode split succeeds whenever the renderer and the
    tokenizers answer every call and no selected file, rendered alone as a
    part, counts more tokens than the budget. *)
Theorem token_split_succeeds
  (a : Args) (maxTokensPerPart : Z) (t : list Ev) :
  (forall call, exists text, generateOutput call = Returned text) ->
  (forall task, exists c, taskRun task = Returned c) ->
  (forall text encoding,
      exists c, calculateOutputMetrics text encoding = Returned c) ->
  (forall f idx total text m,
      In f (argFiles a) ->
      generateOutput (renderCallOf a [f] idx total) = Returned text ->
      calculateOutputMetrics text (encodingOf a) = Returned m ->
      m <= maxTokensPerPart) ->
  exists ps, fst (byTokens a maxTokensPerPart t) = Ok ps.
Proof.
  intros Hrender Htask Hmetrics Hfit.
  destruct (fst (byTokens a maxTokensPerPart t)) as [ps|e] eqn:E;
    [now exists ps|].
  exfalso. destruct (runs_byTokens a maxTokensPerPart t) as (new & _ & V).
  rewrite E in V. destruct e as [n|n|r m l|p m l|x]; simpl in V.
  - destruct V as ((p & m & H) & _). discriminate.
  - destruct V as ((p & m & H) & _). discriminate.
  - destruct V as ((p & m' & H) & _). discriminate.
  - apply byTokens_file_error in E
      as (f & idx & total & text & Hin & _ & Hr & Hm & Hlt).
    specialize (Hfit f idx total text m Hin Hr Hm). lia.
  - apply Exists_exists in V as (ev & _ & Hev).
    destruct ev as [msg|call| |task|text encoding|]; simpl in Hev;
      try contradiction.
    + destruct (Hrender call) as (text & H). congruence.
    + destruct (Htask task) as (c & H). congruence.
    + destruct (Hmetrics text encoding) as (c & H). congruence.
Qed.

(** *** Root entries and parts *)

(** X20: the byte splitter never splits a root entry: in a successful
    split no root entry occurs in two parts, and a part that embeds one
    file embeds every selected file with the same root entry. *)
Theorem root_entries_are_never_split
  (a : Args) (maxBytesPerPart : Z) (t : list Ev) (ps : list OutputSplitPart)
  (t' : list Ev) :
  byBytes a maxBytesPerPart t = (Ok ps, t') ->
  NoDup (List.map rootEntry (flat_map partGroups ps)) /\
  forall p f f',
    In p ps -> In f (partFiles p) -> In f' (argFiles a) ->
    getRootEntry (path f') = getRootEntry (path f) ->
    In f' (partFiles p).
Proof.
  intros H. apply byBytes_ok in H as (Hcover & _ & _). cbv zeta in Hcover.
  split; [rewrite Hcover; apply build_NoDup|].
  intros p f f' Hp Hf Hf' Hroot. unfold partFiles, groupFiles in *.
  apply in_flat_map in Hf as (g & Hg & Hf). apply in_flat_map.
  exists g. split; [exact Hg|].
  assert (Hin : In g (buildOutputSplitGroups localeCompare (argFiles a)
                        (argPaths a))).
  { rewrite <- Hcover. apply in_flat_map. now exists p. }
  apply build_In in Hin as [E _]. rewrite E in Hf |- *. simpl in *.
  apply filter_In in Hf as [_ Hr]. apply filter_In. split; [exact Hf'|].
  apply hasRoot_true in Hr. apply hasRoot_true. congruence.
Qed.

(** *** A byte budget that holds everything *)

Lemma byBytes_refines (a : Args) maxBytes t :
  let gs := buildOutputSplitGroups localeCompare (argFiles a) (argPaths a) in
  fst (byBytes a maxBytes t) =
  byteSplitSpec generateOutput extname a maxBytes (length gs) gs AccEmpty [].
Proof.
  cbv zeta. unfold generateSplitOutputPartsByBytes.
  destruct (Nat.eqb _ _) eqn:E.
  - apply Nat.eqb_eq in E.
    destruct (buildOutputSplitGroups _ _ _); [reflexivity | discriminate].
  - rewrite fst_bind.
    etransitivity;
      [|exact (byteLoop_refines _ _ _ _ _ _ generateOutput extname a maxBytes
                 _ _ byteInit t)].
    destruct (fst (forEach _ _ _ _)); reflexivity.
Qed.

Lemma byteSplitSpec_all_fit (a : Args) maxBytes n gs :
  (forall k, (1 <= k <= length gs)%nat ->
             exists text,
               trial generateOutput a n (firstn k gs) 1 = Ok text /\
               getUtf8ByteLength text <= maxBytes) ->
  forall rest pre acc,
    gs = pre ++ rest ->
    gs <> [] ->
    accGroups acc = pre ->
    (forall gs' text b,
        acc = AccCommitted gs' text b ->
        trial generateOutput a n pre 1 = Ok text /\
        b = getUtf8ByteLength text) ->
    exists text,
      trial generateOutput a n gs 1 = Ok text /\
      byteSplitSpec generateOutput extname a maxBytes n rest acc [] =
      Ok (closeAccumulator extname a
            (AccCommitted gs text (getUtf8ByteLength text)) []).
Proof.
  intros Hfit. induction rest as [|g rest IH]; intros pre acc Hgs Hne Hacc Hc.
  - rewrite app_nil_r in Hgs. subst pre. simpl.
    destruct acc as [|gs' text b]; simpl in Hacc; [congruence|]. subst gs'.
    destruct (Hc gs text b eq_refl) as [Ht ->]. now exists text.
  - simpl. rewrite Hacc.
    destruct (Hfit (length pre + 1)%nat) as (text & Ht & Hle).
    { rewrite Hgs, length_app. simpl. lia. }
    assert (Hfirst : firstn (length pre + 1) gs = pre ++ [g]).
    { rewrite Hgs, firstn_app, firstn_all2 by lia.
      replace (length pre + 1 - length pre)%nat with 1%nat by lia.
      reflexivity. }
    rewrite Hfirst in Ht. rewrite Ht.
    apply Z.leb_le in Hle. rewrite Hle.
    apply (IH (pre ++ [g])); auto.
    + now rewrite <- app_assoc.
    + intros gs' text' b H. injection H as _ <- <-. now split.
Qed.

(** X21: when the renderer answers and the render of every initial run
    of the sorted root entries, as part 1, is within the byte budget, the
    split is a single part: number 1, holding all the root entries in
    order, its content the render of all of them. *)
Theorem byte_split_single_part
  (a : Args) (maxBytesPerPart : Z) (t : list Ev) :
  let gs := buildOutputSplitGroups localeCompare (argFiles a) (argPaths a) in
  gs <> [] ->
  (forall k, (1 <= k <= length gs)%nat ->
             exists text,
               generateOutput
                 (renderCallOf a (groupFiles (firstn k gs)) 1 (length gs)) =
               Returned text /\
               getUtf8ByteLength text <= maxBytesPerPart) ->
  exists text,
    generateOutput (renderCallOf a (groupFiles gs) 1 (length gs)) =
    Returned text /\
    fst (byBytes a maxBytesPerPart t) =
    Ok [{| index := 1;
           filePath :=
             buildSplitOutputFilePath extname
               (outFilePath (output (baseConfig a))) 1;
           partContent := text;
           byteLength := getUtf8ByteLength text;
           tokenCount := 0;
           groups := Some gs |}].
Proof.
  cbv zeta. intros Hne Hfit. rewrite byBytes_refines. cbv zeta.
  set (gs := buildOutputSplitGroups localeCompare (argFiles a) (argPaths a))
    in *.
  destruct (byteSplitSpec_all_fit a maxBytesPerPart (length gs) gs)
    with (rest := gs) (pre := @nil OutputSplitGroup)
         (acc := AccEmpty) as (text & Ht & Hspec); auto.
  - intros k Hk. destruct (Hfit k Hk) as (text & Hr & Hle).
    exists text. unfold trial. rewrite Hr. now split.
  - discriminate.
  - exists text. split; [now apply await_ok in Ht | exact Hspec].
Qed.

End EngineFacts.

(** ** The packing loop of the token splitter *)

Lemma packFiles_packSpec maxTokens tm files :
  packFiles maxTokens tm files =
  packSpec maxTokens (fileTokens tm) files [] 0.
Proof. unfold packFiles. now rewrite packLoop_refines. Qed.

Lemma sumTokens_nonneg tm files :
  (forall f, In f files -> 0 <= fileTokens tm f) -> 0 <= sumTokens tm files.
Proof.
  unfold sumTokens. induction files as [|f files IH]; simpl; intros H; [lia|].
  assert (0 <= fileTokens tm f) by (apply H; now left).
  assert (0 <= fold_right Z.add 0 (List.map (fileTokens tm) files))
    by (apply IH; intros g Hg; apply H; now right).
  lia.
Qed.

Lemma packSpec_all_fit maxTokens tm files :
  forall batch total,
    (forall f, In f files -> 0 <= fileTokens tm f) ->
    0 <= total ->
    total + sumTokens tm files <= maxTokens ->
    packSpec maxTokens (fileTokens tm) files batch total =
    flush (batch ++ files).
Proof.
  induction files as [|f files IH]; simpl; intros batch total Hpos Htot Hsum.
  - now rewrite app_nil_r.
  - assert (Hf : 0 <= fileTokens tm f) by (apply Hpos; now left).
    assert (Hrest : 0 <= sumTokens tm files)
      by (apply sumTokens_nonneg; intros g Hg; apply Hpos; now right).
    change (sumTokens tm (f :: files))
      with (fileTokens tm f + sumTokens tm files) in Hsum.
    destruct (maxTokens <? fileTokens tm f) eqn:Ebig;
      [apply Z.ltb_lt in Ebig; lia|].
    destruct (maxTokens <? total + fileTokens tm f) eqn:Eover;
      [apply Z.ltb_lt in Eover; lia|].
    rewrite IH; [now rewrite <- app_assoc | | lia | lia].
    intros g Hg. apply Hpos. now right.
Qed.

(** X14: the packing loop makes at most one batch per file, and none only
    for no file; and when no adjusted estimate is negative and their sum is
    within the budget, all the files go into one batch. *)
Theorem packing_batch_count
  (maxTokensPerPart : Z) (tokenMap : JsMap Z) (files : list ProcessedFile) :
  (length (packFiles maxTokensPerPart tokenMap files) <= length files)%nat /\
  (packFiles maxTokensPerPart tokenMap files = [] <-> files = []) /\
  ((forall f, In f files -> 0 <= fileTokens tokenMap f) ->
   files <> [] ->
   sumTokens tokenMap files <= maxTokensPerPart ->
   packFiles maxTokensPerPart tokenMap files = [files]).
Proof.
  destruct (packFiles_ok maxTokensPerPart tokenMap files) as [Hcat Hok].
  split; [|split].
  - rewrite <- Hcat at 2.
    rewrite <- (map_id (packFiles maxTokensPerPart tokenMap files)) at 2.
    rewrite <- flat_map_concat_map. apply length_flat_map_nonempty.
    eapply Forall_impl; [|exact Hok]. now intros b [Hb _].
  - split.
    + intros E. now rewrite E in Hcat.
    + intros ->. reflexivity.
  - intros Hpos Hne Hsum. rewrite packFiles_packSpec.
    rewrite packSpec_all_fit by (auto; lia). simpl.
    destruct files; [congruence | reflexivity].
Qed.

Lemma adjacent_cons {A} (R : A -> A -> Prop) (x : A) (l : list A) :
  (forall y l', l = y :: l' -> R x y) -> adjacent R l -> adjacent R (x :: l).
Proof.
  intros Hx Hl. destruct l as [|y l']; simpl; [exact I|].
  split; [now apply (Hx y l') | exact Hl].
Qed.

Lemma packSpec_boundaries maxTokens tm files :
  forall batch total,
    total = sumTokens tm batch ->
    let L := packSpec maxTokens (fileTokens tm) files batch total in
    adjacent (batchBoundary maxTokens tm) L /\
    Forall (fun b => b <> []) L /\
    (batch <> [] -> exists more rest, L = (batch ++ more) :: rest).
Proof.
  induction files as [|f files IH]; intros batch total Htot; cbv zeta.
  - simpl. destruct batch as [|g batch]; simpl.
    + repeat split; auto. congruence.
    + repeat split; auto; [repeat constructor; discriminate|].
      intros _. exists [], []. now rewrite app_nil_r.
  - simpl. destruct (maxTokens <? fileTokens tm f) eqn:Ebig.
    + apply Z.ltb_lt in Ebig.
      destruct (IH [] 0 eq_refl) as (Hadj & Hne & _).
      assert (Hsingle : adjacent (batchBoundary maxTokens tm)
                          ([f] :: packSpec maxTokens (fileTokens tm) files
                                    [] 0)).
      { apply adjacent_cons; [|exact Hadj].
        intros b l' E. rewrite E in Hne. inversion Hne as [|? ? Hb _]; subst.
        destruct b as [|h r]; [congruence|]. exists h, r.
        split; [reflexivity|]. right. left. now exists f. }
      destruct batch as [|g batch]; simpl.
      * repeat split; auto; [|congruence].
        constructor; [discriminate | exact Hne].
      * repeat split.
        -- exists f, []. split; [reflexivity|]. now left.
        -- exact Hsingle.
        -- constructor; [discriminate|].
           constructor; [discriminate | exact Hne].
        -- intros _.
           exists [], ([f] :: packSpec maxTokens (fileTokens tm) files [] 0).
           now rewrite app_nil_r.
    + apply Z.ltb_ge in Ebig.
      destruct (maxTokens <? total + fileTokens tm f) eqn:Eover.
      * apply Z.ltb_lt in Eover.
        destruct (IH [f] (fileTokens tm f)) as (Hadj & Hne & Hhead).
        { unfold sumTokens. simpl. lia. }
        destruct Hhead as (more & rest & E); [discriminate|].
        destruct batch as [|g batch].
        { exfalso. unfold sumTokens in Htot. simpl in Htot. lia. }
        rewrite E in Hadj, Hne |- *. simpl. split; [|split].
        -- split; [|exact Hadj]. exists f, more. split; [reflexivity|].
           right. right. now rewrite <- Htot.
        -- constructor; [discriminate | exact Hne].
        -- intros _. exists [], ((f :: more) :: rest).
           now rewrite app_nil_r.
      * destruct (IH (batch ++ [f]) (total + fileTokens tm f))
          as (Hadj & Hne & Hhead).
        { rewrite sumTokens_app, Htot. unfold sumTokens. simpl. lia. }
        repeat split; auto.
        intros _. destruct Hhead as (more & rest & E).
        { intros E. now apply app_eq_nil in E as [_ E]. }
        exists ([f] ++ more), rest. now rewrite app_assoc.
Qed.

(** X15: the packing loop starts a new batch only for cause: of any two
    consecutive batches, the second begins with a file whose adjusted
    estimate alone exceeds the budget, or the first is such a file on its
    own, or the first batch and the first file of the second together would
    have exceeded the budget. *)
Theorem batches_end_for_cause
  (maxTokensPerPart : Z) (tokenMap : JsMap Z) (files : list ProcessedFile) :
  adjacent (batchBoundary maxTokensPerPart tokenMap)
    (packFiles maxTokensPerPart tokenMap files).
Proof.
  rewrite packFiles_packSpec.
  now destruct (packSpec_boundaries maxTokensPerPart tokenMap files [] 0
                  eq_refl) as [H _].
Qed.

(** ** The scenarios of the test suite, once more *)

(** Scenario B: three parts, numbered 1 to 3 and named after their
    numbers. *)
Lemma parts_numbered_and_named_witness :
  (List.map index (partsOf scenarioB_run) =
   seq 1 (length (partsOf scenarioB_run)) /\
   Forall (namedByIndex sampleExtname
             (sampleArgs scenarioB_files scenarioB_paths))
     (partsOf scenarioB_run) /\
   NoDup (List.map filePath (partsOf scenarioB_run))) /\
  List.map filePath (partsOf scenarioB_run) =
  [js "repomix-output.1.xml"; js "repomix-output.2.xml";
   js "repomix-output.3.xml"].
Proof.
  split; [|reflexivity].
  apply (parts_numbered_and_named unit unit unit unit unit unit renderPaths
           (constantRun 60) (constantMetrics 60) codeUnitCompare sampleExtname
           (sampleArgs scenarioB_files scenarioB_paths) 100 []
           (partsOf scenarioB_run) (snd scenarioB_run)).
  right. vm_compute. reflexivity.
Defined.

(** Scenario A: two root entries, two parts. *)
Lemma byte_parts_shape_witness :
  (length (partsOf scenarioA_run) <=
   length (buildOutputSplitGroups codeUnitCompare scenarioA_files
             scenarioA_paths))%nat /\
  (partsOf scenarioA_run = [] <->
   buildOutputSplitGroups codeUnitCompare scenarioA_files scenarioA_paths =
   []) /\
  Forall (fun p => tokenCount p = 0 /\
                   exists g rest, groups p = Some (g :: rest))
    (partsOf scenarioA_run).
Proof.
  apply (byte_parts_shape unit unit unit unit unit unit renderFifty
           codeUnitCompare sampleExtname
           (sampleArgs scenarioA_files scenarioA_paths) 70 []
           (partsOf scenarioA_run) (snd scenarioA_run)).
  vm_compute. reflexivity.
Defined.

(** Scenario A: every root entry alone measures 50 bytes, so a budget of 70
    cannot fail. *)
Lemma byte_split_failures_witness :
  exists ps,
    fst (generateSplitOutputPartsByBytes renderFifty codeUnitCompare
           sampleExtname (sampleArgs scenarioA_files scenarioA_paths) 70 []) =
    Ok ps.
Proof.
  apply (proj2 (byte_split_failures unit unit unit unit unit unit renderFifty
                  codeUnitCompare sampleExtname
                  (sampleArgs scenarioA_files scenarioA_paths) 70 [])).
  - intros call. eexists. reflexivity.
  - intros g idx text Hin _ Hr. unfold renderFifty in Hr.
    injection Hr as <-. vm_compute in Hin.
    destruct Hin as [<-|[<-|[]]]; vm_compute; discriminate.
Defined.

(** Scenario A: part 1 was closed because [src] and [tests] together
    measure 100 bytes. *)
Lemma byte_parts_closed_by_overflow_witness :
  adjacent
    (closedByOverflow renderFifty
       (sampleArgs scenarioA_files scenarioA_paths) 70
       (length (buildOutputSplitGroups codeUnitCompare scenarioA_files
                  scenarioA_paths)))
    (List.map partView (partsOf scenarioA_run)).
Proof.
  apply (byte_parts_closed_by_overflow unit unit unit unit unit unit
           renderFifty codeUnitCompare sampleExtname
           (sampleArgs scenarioA_files scenarioA_paths) 70 []
           (partsOf scenarioA_run) (snd scenarioA_run)).
  vm_compute. reflexivity.
Defined.

(** Scenario A: two root entries, two parts, three calls of the
    renderer. *)
Lemma byte_split_renders_witness :
  exists new,
    snd (generateSplitOutputPartsByBytes renderFifty codeUnitCompare
           sampleExtname (sampleArgs scenarioA_files scenarioA_paths) 70 []) =
    new ++ [] /\
    countRenders new = 3%nat.
Proof.
  destruct (byte_split_renders unit unit unit unit unit unit renderFifty
              codeUnitCompare sampleExtname
              (sampleArgs scenarioA_files scenarioA_paths) 70 [])
    as (new & Hsnd & _ & Hcount).
  exists new. split; [exact Hsnd|].
  rewrite (Hcount (partsOf scenarioA_run)); vm_compute; reflexivity.
Defined.

(** Scenario B: start, progress, three estimates, three renders each
    followed by its count, release. *)
Lemma token_run_events_witness :
  exists counts,
    estimateAll (constantRun 60) (sampleArgs scenarioB_files scenarioB_paths)
      scenarioB_files = Ok counts /\
    length (partsOf scenarioB_run) =
    length (packFiles 100 (newMap counts) scenarioB_files) /\
    snd scenarioB_run =
    rev (tokenRunEvents (sampleArgs scenarioB_files scenarioB_paths)
           (packFiles 100 (newMap counts) scenarioB_files)
           (partsOf scenarioB_run)) ++ [].
Proof.
  apply (token_run_events unit unit unit unit unit unit renderPaths
           (constantRun 60) (constantMetrics 60) sampleExtname
           (sampleArgs scenarioB_files scenarioB_paths) 100 []
           (partsOf scenarioB_run) (snd scenarioB_run)).
  vm_compute. reflexivity.
Defined.

(** Two files of path [a.ts], of 1 and 3 code units: the first is charged
    the estimate of the second. *)
Lemma estimates_are_looked_up_by_path_witness :
  fileTokens (newMap [(js "a.ts", 1); (js "a.ts", 3)]) (mkFile "a.ts" "x") =
  3 + 20.
Proof.
  destruct (estimates_are_looked_up_by_path unit unit unit unit unit unit
              lengthRun (sampleArgs twice_files [js "a.ts"]) twice_files
              [(js "a.ts", 1); (js "a.ts", 3)] eq_refl) as (_ & Hlast & _).
  apply (Hlast [mkFile "a.ts" "x"] (mkFile "a.ts" "yyy") [] 3
           (mkFile "a.ts" "x")); try reflexivity.
  intros [].
Defined.

(** Two files of adjusted estimate 30 under a budget of 100: one batch. *)
Lemma packing_batch_count_witness :
  packFiles 100 (newMap [(js "src/a.ts", 10); (js "tests/test.ts", 10)])
    scenarioA_files = [scenarioA_files].
Proof.
  apply (proj2 (proj2 (packing_batch_count 100
                         (newMap [(js "src/a.ts", 10);
                                  (js "tests/test.ts", 10)])
                         scenarioA_files))).
  - intros f [<-|[<-|[]]]; vm_compute; discriminate.
  - discriminate.
  - vm_compute. discriminate.
Defined.

(** A renderer that fails: its failure is what the entry point throws. *)
Lemma collaborator_failures_are_handed_on_witness :
  exists new,
    snd (generateSplitOutputParts failingRender (constantRun 60)
           (constantMetrics 60) codeUnitCompare sampleExtname
           (sampleArgs scenarioA_files scenarioA_paths) (Some (JsInt 70))
           None []) = new ++ [] /\
    Exists (failedWith failingRender (constantRun 60) (constantMetrics 60)
              tt) new.
Proof.
  destruct (collaborator_failures_are_handed_on unit unit unit unit unit unit
              failingRender (constantRun 60) (constantMetrics 60)
              codeUnitCompare sampleExtname
              (sampleArgs scenarioA_files scenarioA_paths) (Some (JsInt 70))
              None []) as (new & Hsnd & Hfail & _).
  exists new. split; [exact Hsnd|]. apply Hfail. vm_compute. reflexivity.
Defined.

(** Scenario C through the entry point: the file error, under a token
    budget, with the budget as its limit. *)
Lemma errors_fit_the_mode_witness :
  @errorFits unit None (Some (JsInt 100))
    (FileExceedsMaxTokens (js "large.ts") 200 100).
Proof.
  apply (errors_fit_the_mode unit unit unit unit unit unit renderPaths
           (constantRun 150) (constantMetrics 200) codeUnitCompare
           sampleExtname (sampleArgs scenarioC_files [js "large.ts"]) None
           (Some (JsInt 100)) []).
  vm_compute. reflexivity.
Defined.

(** Scenario B with a byte budget of 70 beside the token budget of 100. *)
Lemma token_budget_takes_precedence_witness :
  generateSplitOutputParts renderPaths (constantRun 60) (constantMetrics 60)
    codeUnitCompare sampleExtname
    (sampleArgs scenarioB_files scenarioB_paths) (Some (JsInt 70))
    (Some (JsInt 100)) [] = scenarioB_run.
Proof.
  transitivity
    (generateSplitOutputPartsByTokens renderPaths (constantRun 60)
       (constantMetrics 60) sampleExtname
       (sampleArgs scenarioB_files scenarioB_paths) 100 []).
  - apply (token_budget_takes_precedence unit unit unit unit unit unit
             renderPaths (constantRun 60) (constantMetrics 60)
             codeUnitCompare sampleExtname
             (sampleArgs scenarioB_files scenarioB_paths) (Some (JsInt 70))
             (JsInt 100) []).
    + exists 100. split; [reflexivity | vm_compute; split; congruence].
    + intros b H. injection H as <-. exists 70.
      split; [reflexivity | vm_compute; split; congruence].
  - vm_compute. reflexivity.
Defined.

(** Scenario B: every render counts 60 tokens, so a budget of 100 cannot
    fail. *)
Lemma token_split_succeeds_witness :
  exists ps,
    fst (generateSplitOutputPartsByTokens renderPaths (constantRun 60)
           (constantMetrics 60) sampleExtname
           (sampleArgs scenarioB_files scenarioB_paths) 100 []) = Ok ps.
Proof.
  apply (token_split_succeeds unit unit unit unit unit unit renderPaths
           (constantRun 60) (constantMetrics 60) sampleExtname
           (sampleArgs scenarioB_files scenarioB_paths) 100 []).
  - intros call. eexists. reflexivity.
  - intros task. eexists. reflexivity.
  - intros text encoding. eexists. reflexivity.
  - intros f idx total text m _ _ Hm. injection Hm as <-.
    vm_compute. discriminate.
Defined.

(** The interleaved files: [lib/x.ts] and [lib/z.ts] share the part of
    [lib]. *)
Lemma root_entries_are_never_split_witness :
  NoDup (List.map rootEntry (flat_map partGroups (partsOf interleaved_run))) /\
  forall p f f',
    In p (partsOf interleaved_run) -> In f (partFiles p) ->
    In f' interleaved_files ->
    getRootEntry (path f') = getRootEntry (path f) ->
    In f' (partFiles p).
Proof.
  apply (root_entries_are_never_split unit unit unit unit unit unit
           renderFifty codeUnitCompare sampleExtname
           (sampleArgs interleaved_files interleaved_paths) 1000 []
           (partsOf interleaved_run) (snd interleaved_run)).
  vm_compute. reflexivity.
Defined.

(** The interleaved files under a budget of 1000 bytes: one part of 150
    bytes holding [app] and [lib]. *)
Lemma byte_split_single_part_witness :
  exists text,
    renderFifty
      (renderCallOf (sampleArgs interleaved_files interleaved_paths)
         (groupFiles (buildOutputSplitGroups codeUnitCompare
                        interleaved_files interleaved_paths)) 1
         (length (buildOutputSplitGroups codeUnitCompare interleaved_files
                    interleaved_paths))) = Returned text /\
    fst (generateSplitOutputPartsByBytes renderFifty codeUnitCompare
           sampleExtname (sampleArgs interleaved_files interleaved_paths)
           1000 []) =
    Ok [{| index := 1;
           filePath :=
             buildSplitOutputFilePath sampleExtname
               (js "repomix-output.xml") 1;
           partContent := text;
           byteLength := getUtf8ByteLength text;
           tokenCount := 0;
           groups := Some (buildOutputSplitGroups codeUnitCompare
                             interleaved_files interleaved_paths) |}].
Proof.
  apply (byte_split_single_part unit unit unit unit unit unit renderFifty
           codeUnitCompare sampleExtname
           (sampleArgs interleaved_files interleaved_paths) 1000 []).
  - vm_compute. discriminate.
  - intros k Hk. eexists. split; [reflexivity|].
    destruct k as [|[|[|k]]].
    + lia.
    + vm_compute. discriminate.
    + vm_compute. discriminate.
    + exfalso. vm_compute in Hk. lia.
Defined.
